(** * Shift scheduling for last-mile delivery: the solver's model builder

    A shallow embedding of [solver/solver.py]: the derivation of an
    [Instance] from the instance file and the multipliers, the four
    models handed to the MILP solver, and the extraction of results from a
    solved model.

    Conventions of the embedding.
    - Python integers are [Z].  In the computation of the bounds, where a
      float is converted to an integer and its rounding decides the result,
      floats are IEEE 754 doubles ([double], the Standard Library's
      specification of floating-point arithmetic).  Everywhere else, in the
      coefficients of the models and in the reported results, floats are
      exact rationals [Q] (rounding, overflow and infinities are out of the
      model there); the one not-a-number those computations can produce,
      numpy's mean of an empty list, is kept: [npfloat] has a [NaN].
    - Python dictionaries are [gmap]s; a failed subscript is [KeyError].
    - Exceptions are the [Raise] half of [result]; the functions are written
      in the error monad, in the order in which Python evaluates them.
    - The solver library is a collaborator: a model is the list of declared
      variables and the list of named linear constraints; a variable is
      identified with its key, an expression built with the overloaded
      operators is kept as the syntax tree of those operators. *)

From Stdlib Require Import QArith Qround Qminmax SpecFloat.
From stdpp Require Import gmap strings list fin_maps.

Local Open Scope Z_scope.

(** ** Exceptions and the error monad *)

Inductive exn :=
  | KeyError | IndexError | ValueError | ZeroDivisionError
  | NotImplementedError | AssertionError | AttributeError | TypeError
  | OverflowError.

Inductive result (A : Type) :=
  | Ok (a : A)
  | Raise (e : exn).
Arguments Ok {A} a.
Arguments Raise {A} e.

#[global] Instance result_ret : MRet result := λ A a, Ok a.
#[global] Instance result_bind : MBind result := λ A B f r,
  match r with Ok a => f a | Raise e => Raise e end.
#[global] Instance result_fmap : FMap result := λ A B f r,
  match r with Ok a => Ok (f a) | Raise e => Raise e end.

Definition is_Ok {A} (r : result A) : Prop := ∃ a, r = Ok a.

(** [d[k]] on a dictionary. *)
Definition subscript `{Countable K} {V} (d : gmap K V) (k : K) : result V :=
  match d !! k with Some v => Ok v | None => Raise KeyError end.

(** [obj.attr] on an attribute that may never have been assigned. *)
Definition getattr {A} (a : option A) : result A :=
  match a with Some v => Ok v | None => Raise AttributeError end.

(** [l[0]] on a list. *)
Definition first {A} (l : list A) : result A :=
  match l with x :: _ => Ok x | [] => Raise IndexError end.

(** A dictionary comprehension [{k: f(k) for k in keys}]: the values are
    computed in order, the first exception ends the comprehension, a key
    met twice keeps its last value. *)
Fixpoint dict_comp_from `{Countable K} {V} (f : K → result V)
    (keys : list K) (d : gmap K V) : result (gmap K V) :=
  match keys with
  | [] => Ok d
  | k :: ks => v ← f k; dict_comp_from f ks (<[k := v]> d)
  end.

Definition dict_comp `{Countable K} {V} (f : K → result V) (keys : list K)
  : result (gmap K V) := dict_comp_from f keys ∅.

(** A list comprehension with a condition that may raise. *)
Fixpoint filterM {A} (p : A → result bool) (l : list A) : result (list A) :=
  match l with
  | [] => Ok []
  | a :: l => b ← p a; r ← filterM p l; Ok (if b : bool then a :: r else r)
  end.

(** ** Numbers *)

(** [range(n)] *)
Definition range (n : Z) : list Z := seqZ 0 n.

(** [enumerate(l)] *)
Definition enumerate {A} (l : list A) : list (Z * A) :=
  imap (λ i v, (Z.of_nat i, v)) l.

(** The built-in [sum] of floats: a left fold from 0. *)
Definition py_sum (l : list Q) : Q := fold_left Qplus l 0%Q.

(** The built-in [sum] of integers. *)
Definition py_sumZ (l : list Z) : Z := fold_left Z.add l 0.

(** [sum(d.values())] for a dictionary of integers. *)
Definition sum_values `{Countable K} (d : gmap K Z) : Z :=
  map_fold (λ _ v acc, acc + v) 0 d.

(** [max(a, b)]: the second argument wins only when strictly greater. *)
Definition py_max (a b : Q) : Q := if Qlt_le_dec a b then b else a.

(** [a / b] on floats (or an integer divisor): a zero divisor raises. *)
Definition py_div (a b : Q) : result Q :=
  if Qeq_bool b 0 then Raise ZeroDivisionError else Ok (a / b)%Q.

(** Truncation toward zero, the rounding of [int(.)] on a float. *)
Definition Qtrunc (q : Q) : Z := Z.quot (Qnum q) (Zpos (Qden q)).

(** Numpy floats: a rational or not-a-number. *)
Inductive npfloat :=
  | Fin (q : Q)
  | NaN.

Definition nf_add (a b : npfloat) : npfloat :=
  match a, b with Fin p, Fin q => Fin (p + q) | _, _ => NaN end.

(** [sum] of numpy floats, again a left fold from 0. *)
Definition nf_sum (l : list npfloat) : npfloat := fold_left nf_add l (Fin 0).

(** [np.mean(l)]: the sum over the length; not-a-number (and only a
    warning) on the empty list. *)
Definition np_mean (l : list npfloat) : npfloat :=
  match l with
  | [] => NaN
  | _ => match nf_sum l with
         | Fin t => Fin (t / inject_Z (Z.of_nat (length l)))
         | NaN => NaN
         end
  end.

(** ** Double precision

    Python's floats and numpy's [float64] are IEEE 754 binary64 numbers:
    53 bits of precision, every operation rounded to the nearest double,
    ties to even.  The operations are those of the Standard Library's
    specification of floating-point arithmetic. *)
Abbreviation double := spec_float.

Definition fl_add : double → double → double := SFadd 53 1024.
Definition fl_mul : double → double → double := SFmul 53 1024.
Definition fl_div : double → double → double := SFdiv 53 1024.

(** [float(z)] on an integer: the nearest double. *)
Definition fl_of_Z (z : Z) : double := binary_normalize 53 1024 z 0 false.

(** The double that a decimal number [p/q] of the instance file or of the
    command line is read as: the double nearest to it. *)
Definition fl_of_Q (q : Q) : double :=
  match Qnum q with
  | Z0 => S754_zero false
  | Zpos p => fl_div (S754_finite false p 0) (S754_finite false (Qden q) 0)
  | Zneg p => fl_div (S754_finite true p 0) (S754_finite false (Qden q) 0)
  end.

(** [float * int]: the integer is converted first, and one that is too large
    for a double is an [OverflowError]. *)
Definition py_float (z : Z) : result double :=
  match fl_of_Z z with
  | S754_infinity _ => Raise OverflowError
  | f => Ok f
  end.

(** The built-in [sum] of doubles: from 0, from left to right. *)
Definition fl_sum (l : list double) : double := fold_left fl_add l (S754_zero false).

(** Numpy adds the values of an array by pairwise summation.  Fewer than 8
    values are added from left to right, from -0.0.  Up to 128 values go
    through 8 accumulators, [r[0..7]]: they start as the first 8 values,
    each further full row of 8 values is added to them position by
    position, they are combined as
    [((r0 + r1) + (r2 + r3)) + ((r4 + r5) + (r6 + r7))], and the values
    after the last full row are added from left to right.  More than 128
    values are split at half the length, rounded down to a multiple of 8,
    and the sums of the two parts are added. *)
Definition pw_combine (r : list double) : double :=
  match r with
  | [r0; r1; r2; r3; r4; r5; r6; r7] =>
      fl_add (fl_add (fl_add r0 r1) (fl_add r2 r3))
             (fl_add (fl_add r4 r5) (fl_add r6 r7))
  | _ => S754_nan
  end.

(** [k] further rows of 8 values added to the accumulators [r]; returns the
    accumulators and the values not yet read. *)
Fixpoint pw_rows (k : nat) (r l : list double) : list double * list double :=
  match k with
  | O => (r, l)
  | S k => pw_rows k (zip_with fl_add r (take 8 l)) (drop 8 l)
  end.

Definition pw_block (l : list double) : double :=
  let '(r, rest) := pw_rows (length l / 8 - 1) (take 8 l) (drop 8 l) in
  fold_left fl_add rest (pw_combine r).

(** The recursion of the C function, on a bound for its depth (the length
    of the list is one: the two parts of a split are shorter). *)
Fixpoint pairwise_sum (depth : nat) (l : list double) : double :=
  let n := length l in
  if decide (n < 8)%nat then fold_left fl_add l (S754_zero true)
  else if decide (n ≤ 128)%nat then pw_block l
  else match depth with
       | O => S754_nan
       | S depth =>
           let n2 := (n / 2 - (n / 2) mod 8)%nat in
           fl_add (pairwise_sum depth (take n2 l)) (pairwise_sum depth (drop n2 l))
       end.

(** [np.add.reduce] on an array of doubles: the pairwise sum of the whole
    array, added to the initial value 0. *)
Definition np_sum (l : list double) : double :=
  fl_add (S754_zero false) (pairwise_sum (length l) l).

(** [np.mean(l)] in doubles: numpy's sum over the length; not-a-number (and
    only a warning) on the empty list, where it is 0.0 / 0. *)
Definition fl_mean (l : list double) : double :=
  fl_div (np_sum l) (fl_of_Z (Z.of_nat (length l))).

(** [int(f)] on a double: the integer part, toward zero; not-a-number and
    the infinities cannot be converted. *)
Definition fl_int (f : double) : result Z :=
  match f with
  | S754_zero _ => Ok 0
  | S754_finite s m e => Ok (cond_Zopp s (Z.shiftl (Zpos m) e))
  | S754_nan => Raise ValueError
  | S754_infinity _ => Raise OverflowError
  end.

(** ** The instance file *)

Record region_json := {
  r_id : string;
  r_areas : list string     (* the [id] of each entry of [areas] *)
}.

Record data_json := {
  area_id : string;
  demand : list Q;
  required_couriers : list Q
}.

Record scenario_json := {
  scenario_num : Z;
  data : list data_json
}.

Record instance_json := {
  geography_city_regions : list region_json;
  num_time_intervals : Z;
  num_scenarios : Z;
  demand_baseline : string;
  demand_type : string;
  j_scenarios : list scenario_json
}.

(** ** How the parameters arrive: parsed arguments or keywords *)

Record Namespace := {
  args_model : string;
  args_outsourcing_cost_multiplier : Q;
  args_regional_multiplier : Q;
  args_global_multiplier : Q;
  args_max_n_shifts : option Z     (* [None] when [-u] is not given *)
}.

(** The keyword arguments of a programmatic call; an absent keyword is
    [None], and reading it is a [KeyError]. *)
Record Kwargs := {
  kw_model : option string;
  kw_outsourcing_cost_multiplier : option Q;
  kw_regional_multiplier : option Q;
  kw_global_multiplier : option Q;
  kw_max_n_shifts : option (option Z)
}.

Definition kwarg {A} (k : option A) : result A :=
  match k with Some v => Ok v | None => Raise KeyError end.

(** ** class Instance *)

Record Instance := {
  args : option Namespace;
  i_json : instance_json;
  reg_multiplier : Q;
  glb_multiplier : Q;
  outsourcing_cost_multiplier : Q;
  outsourcing_cost : Q;
  model : string;
  n_regions : Z;
  n_areas : Z;
  n_periods : Z;
  n_scenarios : Z;
  periods : list Z;
  scenarios : list Z;
  regions : list string;
  areas : list string;
  reg_areas : gmap string (list string);
  area_regs : gmap string string;
  sdemand : gmap (Z * string * Z) Q;
  srequired : gmap (Z * string * Z) Q;
  ub_reg : gmap string Z;
  ub_global : Z;
  shifts : list (list Z);
  (* the two attributes the partflex branch may assign; [None]: never
     assigned, [Some None]: assigned Python's [None] *)
  max_n_shifts : option (option Z);
  max_n_shift : option (option Z)
}.

Definition CAPACITY : Q := 5.
Definition COST_PER_COURIER_AND_PERIOD : Q := 1.
Definition COST_PER_PARCEL_AND_PERIOD : Q := (COST_PER_COURIER_AND_PERIOD / CAPACITY)%Q.
Definition EPS : Q := (1 # 1000000)%Q.

(** The two [enumerate] loops filling [sdemand] and [srequired]. *)
Definition fill (s : Z) (a : string) (vals : list Q)
    (d : gmap (Z * string * Z) Q) : gmap (Z * string * Z) Q :=
  fold_left (λ d '(theta, v), <[(s, a, theta) := v]> d) (enumerate vals) d.

Definition fill_demand (scs : list scenario_json) : gmap (Z * string * Z) Q :=
  fold_left (λ d sc,
    fold_left (λ d dt, fill (scenario_num sc) (area_id dt) (demand dt) d)
              (data sc) d) scs ∅.

Definition fill_required (scs : list scenario_json) : gmap (Z * string * Z) Q :=
  fold_left (λ d sc,
    fold_left (λ d dt, fill (scenario_num sc) (area_id dt) (required_couriers dt) d)
              (data sc) d) scs ∅.

(** [Instance.__get_shifts] *)
Definition get_shifts (n_periods : Z) (periods : list Z) : result (list (list Z)) :=
  shifts ← (if decide (n_periods = 8) then Ok [seqZ 0 4; seqZ 4 4]
            else Raise NotImplementedError);
  if decide (concat shifts = periods) then Ok shifts else Raise AssertionError.

(** [Instance.__get_ubs], on the attributes it reads. *)
Section get_ubs.
Variables (srequired : gmap (Z * string * Z) Q)
          (scenarios periods : list Z)
          (areas regions : list string)
          (reg_areas : gmap string (list string))
          (reg_multiplier glb_multiplier : Q).

Definition mhat1_entry (k : string * Z) : result double :=
  vals ← mapM (λ s, subscript srequired (s, k.1, k.2)) scenarios;
  Ok (fl_mean (fl_of_Q <$> vals)).

Definition mhat2_entry (mhat1 : gmap (string * Z) double) (a : string)
  : result double :=
  vals ← mapM (λ theta, subscript mhat1 (a, theta)) periods;
  Ok (fl_mean vals).

Definition ub_reg_entry (mhat2 : gmap string double) (region : string)
  : result Z :=
  ras ← subscript reg_areas region;
  vals ← mapM (λ a, subscript mhat2 a) ras;
  fl_int (fl_mul (fl_of_Q reg_multiplier) (fl_sum vals)).

Definition get_ubs : result (gmap string Z * Z) :=
  mhat1 ← dict_comp mhat1_entry (a ← areas; theta ← periods; [(a, theta)]);
  mhat2 ← dict_comp (mhat2_entry mhat1) areas;
  ub_reg ← dict_comp (ub_reg_entry mhat2) regions;
  total ← py_float (sum_values ub_reg);
  ub_global ← fl_int (fl_mul (fl_of_Q glb_multiplier) total);
  Ok (ub_reg, ub_global).
End get_ubs.

(** How [__compute_data] reads its parameters. *)
Inductive invocation :=
  | CommandLine (a : Namespace)
  | Programmatic (kw : Kwargs).

Definition inv_args (c : invocation) : option Namespace :=
  match c with CommandLine a => Some a | Programmatic _ => None end.

(** The first lines of [__compute_data]: the multipliers and the model
    name, from the keywords or from the parsed arguments. *)
Definition read_params (c : invocation) : result (Q * Q * Q * string) :=
  match c with
  | Programmatic kw =>
      rm ← kwarg (kw_regional_multiplier kw);
      gm ← kwarg (kw_global_multiplier kw);
      ocm ← kwarg (kw_outsourcing_cost_multiplier kw);
      mdl ← kwarg (kw_model kw);
      Ok (rm, gm, ocm, mdl)
  | CommandLine a =>
      Ok (args_regional_multiplier a, args_global_multiplier a,
          args_outsourcing_cost_multiplier a, args_model a)
  end.

(** [{region['id']: [area['id'] for area in region['areas']] for region in dregions}] *)
Definition make_reg_areas (dregions : list region_json) : gmap string (list string) :=
  fold_left (λ d r, <[r_id r := r_areas r]> d) dregions ∅.

(** [{area: [region for region in regions if area in reg_areas[region]][0] for area in areas}] *)
Definition make_area_regs (regions areas : list string)
    (reg_areas : gmap string (list string)) : result (gmap string string) :=
  dict_comp (λ area,
      rs ← filterM (λ region, ras ← subscript reg_areas region;
                              Ok (bool_decide (area ∈ ras))) regions;
      first rs) areas.

(** The last branch of [__compute_data]: which attribute receives the
    shift cap.  The pair is ([max_n_shifts], [max_n_shift]). *)
Definition partflex_attrs (c : invocation) (mdl : string)
  : result (option (option Z) * option (option Z)) :=
  if decide (mdl = "partflex") then
    match c with
    | Programmatic kw => v ← kwarg (kw_max_n_shifts kw); Ok (None, Some v)
    | CommandLine a => Ok (Some (args_max_n_shifts a), None)
    end
  else Ok (None, None).

(** [Instance.__init__] after the file is loaded: [__compute_data]. *)
Definition compute_data (c : invocation) (i : instance_json) : result Instance :=
  '(rm, gm, ocm, mdl) ← read_params c;
  let oc := (COST_PER_COURIER_AND_PERIOD * ocm)%Q in
  let dregions := geography_city_regions i in
  let n_regions := Z.of_nat (length dregions) in
  let n_areas := py_sumZ ((λ r, Z.of_nat (length (r_areas r))) <$> dregions) in
  let n_periods := num_time_intervals i in
  let n_scenarios := num_scenarios i in
  let periods := range n_periods in
  let scenarios := range n_scenarios in
  let regions := r_id <$> dregions in
  let areas := r ← dregions; r_areas r in
  let reg_areas := make_reg_areas dregions in
  area_regs ← make_area_regs regions areas reg_areas;
  let sdemand := fill_demand (j_scenarios i) in
  let srequired := fill_required (j_scenarios i) in
  '(ub_reg, ub_global) ←
    get_ubs srequired scenarios periods areas regions reg_areas rm gm;
  shifts ← get_shifts n_periods periods;
  '(mns, mn) ← partflex_attrs c mdl;
  Ok {| args := inv_args c; i_json := i;
        reg_multiplier := rm; glb_multiplier := gm;
        outsourcing_cost_multiplier := ocm; outsourcing_cost := oc;
        model := mdl;
        n_regions := n_regions; n_areas := n_areas;
        n_periods := n_periods; n_scenarios := n_scenarios;
        periods := periods; scenarios := scenarios;
        regions := regions; areas := areas;
        reg_areas := reg_areas; area_regs := area_regs;
        sdemand := sdemand; srequired := srequired;
        ub_reg := ub_reg; ub_global := ub_global;
        shifts := shifts;
        max_n_shifts := mns; max_n_shift := mn |}.

(** ** The solver library's objects *)

(** A variable is identified with the tupledict it lives in and its key. *)
Inductive var :=
  | var_x (a : string) (theta : Z)
  | var_omega (a : string) (theta s : Z)
  | var_y (a1 a2 : string) (theta : Z)
  | var_zplus (a : string) (theta : Z)
  | var_zminus (a : string) (theta : Z)
  | var_w (theta : Z).

#[global] Instance var_eq_dec : EqDecision var.
Proof. solve_decision. Defined.

Definition vx (k : string * Z) : var := var_x k.1 k.2.
Definition vomega (k : string * Z * Z) : var := var_omega k.1.1 k.1.2 k.2.
Definition vy (k : string * string * Z) : var := var_y k.1.1 k.1.2 k.2.
Definition vzplus (k : string * Z) : var := var_zplus k.1 k.2.
Definition vzminus (k : string * Z) : var := var_zminus k.1 k.2.
Definition vw (k : Z) : var := var_w k.

Inductive vtype := INTEGER | CONTINUOUS | BINARY.

(** A declared variable; [UB = None] is the library's default, no upper
    bound. *)
Record Var := {
  key : var;
  VType : vtype;
  LB : Q;
  UB : option Q;
  Obj : Q
}.

(** Expressions as the overloaded operators build them. *)
Inductive linexpr :=
  | Num (q : Q)
  | V (v : var)
  | Add (e1 e2 : linexpr)
  | Sub (e1 e2 : linexpr)
  | Mul (e : linexpr) (c : Q)       (* expression * number *)
  | CMul (c : Q) (e : linexpr).     (* number * expression *)

(** The built-in [sum] of expressions: a left fold from 0. *)
Definition lin_sum (es : list linexpr) : linexpr := fold_left Add es (Num 0).

Inductive sense := LESS_EQUAL | GREATER_EQUAL | EQUAL.

Record TempConstr := {
  lhs : linexpr;
  csense : sense;
  rhs : linexpr
}.

Definition le_ (l r : linexpr) : TempConstr := {| lhs := l; csense := LESS_EQUAL; rhs := r |}.
Definition ge_ (l r : linexpr) : TempConstr := {| lhs := l; csense := GREATER_EQUAL; rhs := r |}.
Definition eq_ (l r : linexpr) : TempConstr := {| lhs := l; csense := EQUAL; rhs := r |}.

Record Constr := {
  ConstrName : string;      (* the family given as [name=] *)
  tc : TempConstr
}.

Record Model := {
  m_vars : list Var;
  m_constrs : list Constr
}.

Definition Model_new : Model := {| m_vars := []; m_constrs := [] |}.

Definition mkVar (vt : vtype) (lb obj : Q) (k : var) : Var :=
  {| key := k; VType := vt; LB := lb; UB := None; Obj := obj |}.

(** [Model.addVars(indices, vtype=, lb=, obj=)]: one variable per index. *)
Definition addVars {K} (mk : K → var) (idx : list K) (vt : vtype) (lb obj : Q)
    (m : Model) : Model :=
  {| m_vars := m_vars m ++ (mkVar vt lb obj ∘ mk <$> idx);
     m_constrs := m_constrs m |}.

(** [Model.addConstrs(generator, name=)]: the generator runs to its end or
    to its first exception. *)
Definition addConstrs (name : string) (gen : result (list TempConstr))
    (m : Model) : result Model :=
  cs ← gen;
  Ok {| m_vars := m_vars m;
        m_constrs := m_constrs m ++ (Build_Constr name <$> cs) |}.

(** [Model.addConstr(constraint, name=)] *)
Definition addConstr (name : string) (c : TempConstr) (m : Model) : Model :=
  {| m_vars := m_vars m;
     m_constrs := m_constrs m ++ [Build_Constr name c] |}.

(** [v.UB = u] on a declared variable. *)
Definition set_UB (k : var) (u : Q) (m : Model) : Model :=
  {| m_vars := (λ v, if decide (key v = k)
                     then {| key := key v; VType := VType v; LB := LB v;
                             UB := Some u; Obj := Obj v |}
                     else v) <$> m_vars m;
     m_constrs := m_constrs m |}.

(** A tupledict is the list of the indices its variables were declared
    at.  [td[k]] is a [KeyError] off that list. *)
Definition td_get {K} `{EqDecision K} (mk : K → var) (td : list K) (k : K)
  : result linexpr :=
  if decide (k ∈ td) then Ok (V (mk k)) else Raise KeyError.

(** [td.sum(pattern)]: the sum of the variables whose key matches. *)
Definition td_sum {K} `{EqDecision K} (mk : K → var) (td : list K)
    (p : K → bool) : linexpr :=
  lin_sum (V ∘ mk <$> filter (λ k, p k = true) (remove_dups td)).

(** A loop that updates a value and may raise. *)
Fixpoint foldM {A B} (f : B → A → result B) (l : list A) (b : B) : result B :=
  match l with
  | [] => Ok b
  | a :: l => b' ← f b a; foldM f l b'
  end.

(** [range(a, b)] *)
Definition range2 (a b : Z) : list Z := seqZ a (b - a).

(** ** class Solver *)

Record Solver := {
  m : Model;
  x : list (string * Z);
  omega : list (string * Z * Z);
  y : option (list (string * string * Z));
  zplus : option (list (string * Z));
  zminus : option (list (string * Z));
  w : option (list Z)
}.

Definition with_m (s : Solver) (m' : Model) : Solver :=
  {| m := m'; x := x s; omega := omega s; y := y s;
     zplus := zplus s; zminus := zminus s; w := w s |}.

(** The constraint family [reg_bound] of the base model. *)
Definition reg_bound (i : Instance) (x : list (string * Z)) : result (list TempConstr) :=
  mapM (λ '(region, theta),
     ras ← subscript (reg_areas i) region;
     xs ← mapM (λ a, td_get vx x (a, theta)) ras;
     ub ← subscript (ub_reg i) region;
     Ok (le_ (lin_sum xs) (Num (inject_Z ub))))
   (region ← regions i; theta ← periods i; [(region, theta)]).

(** The family [global_bound]; [self.x.sum('*', theta)] is the sum over the
    keys of [x] whose period is [theta]. *)
Definition global_bound (i : Instance) (x : list (string * Z)) : result (list TempConstr) :=
  mapM (λ theta,
     Ok (le_ (td_sum vx x (λ k, bool_decide (k.2 = theta)))
             (Num (inject_Z (ub_global i)))))
   (periods i).

(** The family [set_omega]. *)
Definition set_omega (i : Instance) (x : list (string * Z))
    (omega : list (string * Z * Z)) : result (list TempConstr) :=
  mapM (λ '(a, theta, s),
     r ← subscript (srequired i) (s, a, theta);
     om ← td_get vomega omega (a, theta, s);
     r' ← subscript (srequired i) (s, a, theta);
     xv ← td_get vx x (a, theta);
     d ← subscript (sdemand i) (s, a, theta);
     Ok (ge_ (CMul r om) (Mul (Mul (Sub (Num r') xv) d) (outsourcing_cost i))))
   (a ← areas i; theta ← periods i; s ← scenarios i; [(a, theta, s)]).

(** [Solver.__build_base_model] *)
Definition build_base_model (i : Instance) : result Solver :=
  let m0 := Model_new in
  let x := a ← areas i; theta ← periods i; [(a, theta)] in
  let m1 := addVars vx x INTEGER 0 1 m0 in
  obj ← py_div 1 (inject_Z (n_scenarios i));
  let omega := a ← areas i; theta ← periods i; s ← scenarios i; [(a, theta, s)] in
  (* no [lb=] is given for omega: the library's default is 0 *)
  let m2 := addVars vomega omega CONTINUOUS 0 obj m1 in
  m3 ← addConstrs "reg_bound" (reg_bound i x) m2;
  m4 ← addConstrs "global_bound" (global_bound i x) m3;
  m5 ← addConstrs "set_omega" (set_omega i x omega) m4;
  Ok {| m := m5; x := x; omega := omega;
        y := None; zplus := None; zminus := None; w := None |}.

(** The index list of [__add_y_vars]: ordered pairs of distinct areas of
    one region, per period. *)
Definition y_idx (i : Instance) : result (list (string * string * Z)) :=
  filterM (λ '(a1, a2, theta),
      if decide (a1 ≠ a2) then
        r1 ← subscript (area_regs i) a1;
        r2 ← subscript (area_regs i) a2;
        Ok (bool_decide (r1 = r2))
      else Ok false)
    (a1 ← areas i; a2 ← areas i; theta ← periods i; [(a1, a2, theta)]).

(** [Solver.__add_y_vars] *)
Definition add_y_vars (i : Instance) (self : Solver) : result Solver :=
  y_idx ← y_idx i;
  Ok {| m := addVars vy y_idx INTEGER 0 EPS (m self);
        x := x self; omega := omega self; y := Some y_idx;
        zplus := zplus self; zminus := zminus self; w := w self |}.

(** [self.y.sum('*', a1, theta)] and [self.y.sum(a1, '*', theta)] *)
Definition y_into (yd : list (string * string * Z)) (a1 : string) (theta : Z) : linexpr :=
  td_sum vy yd (λ k, bool_decide (k.1.2 = a1) && bool_decide (k.2 = theta)).
Definition y_out_of (yd : list (string * string * Z)) (a1 : string) (theta : Z) : linexpr :=
  td_sum vy yd (λ k, bool_decide (k.1.1 = a1) && bool_decide (k.2 = theta)).

(** The family [fix_region_n_couriers_in_shift] of the fixed model;
    [shift[1:]] is [tail shift], [shift[0]] is [first shift]. *)
Definition fix_region_fixed (i : Instance) (self : Solver) : result (list TempConstr) :=
  mapM (λ '(region, shift, theta),
     ras ← subscript (reg_areas i) region;
     l ← mapM (λ a, td_get vx (x self) (a, theta)) ras;
     ras' ← subscript (reg_areas i) region;
     r ← mapM (λ a, t0 ← first shift; td_get vx (x self) (a, t0)) ras';
     Ok (eq_ (lin_sum l) (lin_sum r)))
   (region ← regions i; shift ← shifts i; theta ← tail shift;
    [(region, shift, theta)]).

(** The family [flow_balance] of the fixed model. *)
Definition flow_balance_fixed (i : Instance) (self : Solver) : result (list TempConstr) :=
  css ← mapM (λ region,
     ras ← subscript (reg_areas i) region;
     mapM (λ '(a1, theta),
        xt ← td_get vx (x self) (a1, theta);
        xp ← td_get vx (x self) (a1, theta - 1);
        yd ← getattr (y self);
        Ok (eq_ xt (Sub (Add xp (y_into yd a1 theta)) (y_out_of yd a1 theta))))
      (a1 ← ras; shift ← shifts i; theta ← tail shift; [(a1, theta)]))
   (regions i);
  Ok (concat css).

(** [Solver.__build_fixed_model] *)
Definition build_fixed_model (i : Instance) : result Solver :=
  self ← build_base_model i;
  self ← add_y_vars i self;
  m1 ← addConstrs "fix_region_n_couriers_in_shift" (fix_region_fixed i self) (m self);
  m2 ← addConstrs "flow_balance" (flow_balance_fixed i self) m1;
  Ok (with_m self m2).

(** The two loops of the flexible model that close the upper bounds. *)
Definition close_zminus (i : Instance) (zm : list (string * Z)) (shift_len : Z)
    (md : Model) : result Model :=
  foldM (λ md '(theta, a),
      _ ← td_get vzminus zm (a, theta);
      Ok (set_UB (var_zminus a theta) 0 md))
    (theta ← range2 (n_periods i - shift_len + 1) (n_periods i);
     a ← areas i; [(theta, a)]) md.

Definition close_zplus (i : Instance) (zp : list (string * Z)) (shift_len : Z)
    (md : Model) : result Model :=
  foldM (λ md '(theta, a),
      _ ← td_get vzplus zp (a, theta);
      Ok (set_UB (var_zplus a theta) 0 md))
    (theta ← range (shift_len - 1); a ← areas i; [(theta, a)]) md.

(** The family [fix_region_n_couriers_in_shift] of the flexible model. *)
Definition fix_region_flex (i : Instance) (zm zp : list (string * Z))
    (shift_len : Z) : result (list TempConstr) :=
  mapM (λ '(region, theta),
     ras ← subscript (reg_areas i) region;
     l ← mapM (λ a, td_get vzminus zm (a, theta)) ras;
     ras' ← subscript (reg_areas i) region;
     r ← mapM (λ a, td_get vzplus zp (a, theta + shift_len - 1)) ras';
     Ok (eq_ (lin_sum l) (lin_sum r)))
   (region ← regions i;
    theta ← filter (λ theta, theta < n_periods i + 1 - shift_len) (periods i);
    [(region, theta)]).

(** The family [flow_balance] of the flexible model. *)
Definition flow_balance_flex (i : Instance) (self : Solver)
    (zm zp : list (string * Z)) : result (list TempConstr) :=
  css ← mapM (λ region,
     ras ← subscript (reg_areas i) region;
     mapM (λ '(a1, theta),
        xt ← td_get vx (x self) (a1, theta);
        xp ← td_get vx (x self) (a1, theta - 1);
        yd ← getattr (y self);
        zmv ← td_get vzminus zm (a1, theta);
        zpv ← td_get vzplus zp (a1, theta - 1);
        Ok (eq_ xt (Sub (Add (Sub (Add xp (y_into yd a1 theta))
                                  (y_out_of yd a1 theta)) zmv) zpv)))
      (a1 ← ras; theta ← filter (λ theta, 0 < theta) (periods i);
       [(a1, theta)]))
   (regions i);
  Ok (concat css).

(** The family [flow_balance_first_period]. *)
Definition flow_balance_first_period (i : Instance) (self : Solver)
    (zm : list (string * Z)) : result (list TempConstr) :=
  mapM (λ a,
     x0 ← td_get vx (x self) (a, 0);
     z0 ← td_get vzminus zm (a, 0);
     Ok (eq_ x0 z0))
   (areas i).

(** [Solver.__build_flexible_model].  When the period count is not 8 the
    method returns (it does not raise) an exception object that its callers
    drop: the model built so far is left as it is. *)
Definition build_flexible_model (i : Instance) : result Solver :=
  self ← build_base_model i;
  self ← add_y_vars i self;
  let zp := a ← areas i; theta ← periods i; [(a, theta)] in
  let zm := a ← areas i; theta ← periods i; [(a, theta)] in
  let m1 := addVars vzplus zp INTEGER 0 0 (m self) in
  let m2 := addVars vzminus zm INTEGER 0 0 m1 in
  let self := {| m := m2; x := x self; omega := omega self; y := y self;
                 zplus := Some zp; zminus := Some zm; w := w self |} in
  if decide (n_periods i = 8) then
    let shift_len := 4 in
    m3 ← close_zminus i zm shift_len m2;
    m4 ← close_zplus i zp shift_len m3;
    m5 ← addConstrs "fix_region_n_couriers_in_shift"
           (fix_region_flex i zm zp shift_len) m4;
    m6 ← addConstrs "flow_balance" (flow_balance_flex i self zm zp) m5;
    m7 ← addConstrs "flow_balance_first_period"
           (flow_balance_first_period i self zm) m6;
    Ok (with_m self m7)
  else Ok self.

(** The family [link_z_w] of the partflex model. *)
Definition link_z_w (i : Instance) (self : Solver) (w_idx : list Z)
  : result (list TempConstr) :=
  mapM (λ '(region, theta),
     ras ← subscript (reg_areas i) region;
     zm ← getattr (zminus self);
     l ← mapM (λ a, td_get vzminus zm (a, theta)) ras;
     ub ← subscript (ub_reg i) region;
     wv ← td_get vw w_idx theta;
     Ok (le_ (lin_sum l) (CMul (inject_Z ub) wv)))
   (region ← regions i; theta ← w_idx; [(region, theta)]).

(** The right-hand side of [limit_n_shifts]: [self.i.max_n_shifts].  The
    attribute may be missing; comparing an expression with [None] is a
    type error in the library. *)
Definition shift_cap (i : Instance) : result Z :=
  cap ← getattr (max_n_shifts i);
  match cap with Some n => Ok n | None => Raise TypeError end.

(** [Solver.__build_partflex_model] *)
Definition build_partflex_model (i : Instance) : result Solver :=
  self ← build_flexible_model i;
  if decide (n_periods i = 8) then
    let shift_len := 4 in
    let w_idx := range (n_periods i - shift_len + 1) in
    let m1 := addVars vw w_idx BINARY 0 0 (m self) in
    m2 ← addConstrs "link_z_w" (link_z_w i self w_idx) m1;
    let total := td_sum vw w_idx (λ _, true) in
    cap ← shift_cap i;
    Ok {| m := addConstr "limit_n_shifts" (le_ total (Num (inject_Z cap))) m2;
          x := x self; omega := omega self; y := y self;
          zplus := zplus self; zminus := zminus self; w := Some w_idx |}
  else Ok self.

(** The keys of the tupledicts [x] and [omega]. *)
Definition x_keys (i : Instance) : list (string * Z) :=
  a ← areas i; theta ← periods i; [(a, theta)].
Definition omega_keys (i : Instance) : list (string * Z * Z) :=
  a ← areas i; theta ← periods i; s ← scenarios i; [(a, theta, s)].

(** The data-model invariant the builder relies on for the demand table:
    every (scenario, area, period) has a demand value. *)
Definition demand_complete (i : Instance) : Prop :=
  Forall (λ k : string * Z * Z, is_Some (sdemand i !! (k.2, k.1.1, k.1.2)))
         (a ← areas i; theta ← periods i; s ← scenarios i; [(a, theta, s)]).

#[global] Instance Qle_dec : RelDecision Qle.
Proof.
  intros p q. destruct (Qlt_le_dec q p) as [Hlt|Hle].
  - right. by apply Qlt_not_le.
  - by left.
Defined.

(** ** The bounds as the specification words them *)

Section bounds_spec.
Variables (srequired : gmap (Z * string * Z) Q) (scenarios periods : list Z).

(** [required[s,a,theta]] *)
Definition required_of (s : Z) (a : string) (theta : Z) : Q :=
  default 0%Q (srequired !! (s, a, theta)).

(** The arithmetic mean: the sum over the number of items. *)
Definition Qmean (l : list Q) : Q :=
  (py_sum l / inject_Z (Z.of_nat (length l)))%Q.

(** The mean over the scenarios of [required[s,a,theta]]. *)
Definition mhat1_of (a : string) (theta : Z) : Q :=
  Qmean ((λ s, required_of s a theta) <$> scenarios).

(** The mean over the periods of [mhat1[a,theta]]. *)
Definition mhat2_of (a : string) : Q :=
  Qmean (mhat1_of a <$> periods).
End bounds_spec.

Definition mhat2 (i : Instance) (a : string) : Q :=
  mhat2_of (srequired i) (scenarios i) (periods i) a.

(** ** The bounds in double precision *)

(** The value of a double that is a number: plus or minus [m * 2^e]. *)
Definition fl_value (f : double) : Q :=
  match f with
  | S754_finite s m (Zneg k) => cond_Zopp s (Zpos m) # 2 ^ k
  | S754_finite s m e => inject_Z (cond_Zopp s (Zpos m) * 2 ^ e)
  | _ => 0
  end.

(** A zero or a finite double: not an infinity, not not-a-number. *)
Definition fl_finite (f : double) : Prop :=
  match f with
  | S754_zero _ | S754_finite _ _ _ => True
  | _ => False
  end.

(** The sum of doubles from left to right, continuing from [a]: by
    recursion from the last summand. *)
Fixpoint fl_total_to_last (a : double) (l : list double) : double :=
  match l with
  | [] => a
  | x :: l => fl_add (fl_total_to_last a l) x
  end.

Definition fl_total_from (a : double) (l : list double) : double :=
  fl_total_to_last a (rev l).

Definition fl_total (l : list double) : double := fl_total_from (S754_zero false) l.

(** The sum, from left to right, of the values of [l] at the positions [j],
    [j + 8], ..., [j + 8 * rows]. *)
Fixpoint fl_lane (l : list double) (j rows : nat) : double :=
  match rows with
  | O => nth j l S754_nan
  | S rows' => fl_add (fl_lane l j rows') (nth (j + 8 * rows) l S754_nan)
  end.

(** The pairwise sum of 8 to 128 values: the eight sums of every eighth
    value of the full rows, combined two by two, then the values after the
    last full row. *)
Definition fl_block (l : list double) : double :=
  let rows := (length l / 8 - 1)%nat in
  let r j := fl_lane l j rows in
  fl_total_from
    (fl_add (fl_add (fl_add (r 0%nat) (r 1%nat)) (fl_add (r 2%nat) (r 3%nat)))
            (fl_add (fl_add (r 4%nat) (r 5%nat)) (fl_add (r 6%nat) (r 7%nat))))
    (drop (8 * (length l / 8)) l).

(** The pairwise sum of any number of values: fewer than 8 from left to
    right, from -0.0; up to 128 as above; more in two parts, the first of
    half the length rounded down to a multiple of 8. *)
Fixpoint fl_pairwise (depth : nat) (l : list double) : double :=
  if (length l <? 8)%nat then fl_total_from (S754_zero true) l
  else if (length l <=? 128)%nat then fl_block l
  else match depth with
       | O => S754_nan
       | S depth =>
           let half := (length l / 2)%nat in
           let n2 := (half - half mod 8)%nat in
           fl_add (fl_pairwise depth (take n2 l)) (fl_pairwise depth (drop n2 l))
       end.

(** The mean of doubles as numpy takes it. *)
Definition fl_average (l : list double) : double :=
  fl_div (fl_add (S754_zero false) (fl_pairwise (length l) l))
         (fl_of_Z (Z.of_nat (length l))).

(** A double that is not below zero: not a negative number, not minus
    infinity. *)
Definition fl_nonneg (f : double) : Prop :=
  match f with
  | S754_finite true _ _ | S754_infinity true => False
  | _ => True
  end.

(** The accumulators after the rows 0 to [m]. *)
Definition fl_lanes (l : list double) (m : nat) : list double :=
  (λ j, fl_lane l j m) <$> seq 0 8.

Section bounds_double.
Variables (srequired : gmap (Z * string * Z) Q) (scenarios periods : list Z).

(** The mean over the scenarios of [required[s,a,theta]], in doubles. *)
Definition mhat1_double (a : string) (theta : Z) : double :=
  fl_average ((λ s, fl_of_Q (required_of srequired s a theta)) <$> scenarios).

(** The mean over the periods of [mhat1[a,theta]], in doubles. *)
Definition mhat2_double (a : string) : double :=
  fl_average (mhat1_double a <$> periods).
End bounds_double.

(** The product whose integer part is the bound of a region with the areas
    [ras], and the product whose integer part is the global bound: the sum
    of the regional bounds is a sum of integers, over the distinct
    regions. *)
Definition reg_product (i : Instance) (ras : list string) : double :=
  fl_mul (fl_of_Q (reg_multiplier i))
         (fl_total (mhat2_double (srequired i) (scenarios i) (periods i) <$> ras)).

Definition regions_sum (i : Instance) : Z :=
  foldr Z.add 0 ((λ region, default 0 (ub_reg i !! region)) <$> remove_dups (regions i)).

Definition glb_product (i : Instance) : double :=
  fl_mul (fl_of_Q (glb_multiplier i)) (fl_of_Z (regions_sum i)).

(** A valid instance: the two bound multipliers and every required-couriers
    value are non-negative. *)
Definition valid_instance (i : Instance) : Prop :=
  (0 <= reg_multiplier i)%Q ∧ (0 <= glb_multiplier i)%Q ∧
  map_Forall (λ _ r, (0 <= r)%Q) (srequired i).

(** ** Solutions of a model *)

Fixpoint eval (sol : var → Q) (e : linexpr) : Q :=
  match e with
  | Num q => q
  | V v => sol v
  | Add e1 e2 => eval sol e1 + eval sol e2
  | Sub e1 e2 => eval sol e1 - eval sol e2
  | Mul e c => eval sol e * c
  | CMul c e => c * eval sol e
  end%Q.

Definition holds (sol : var → Q) (c : TempConstr) : Prop :=
  match csense c with
  | LESS_EQUAL => (eval sol (lhs c) <= eval sol (rhs c))%Q
  | GREATER_EQUAL => (eval sol (rhs c) <= eval sol (lhs c))%Q
  | EQUAL => (eval sol (lhs c) == eval sol (rhs c))%Q
  end.

Definition integral (q : Q) : Prop := ∃ z : Z, (q == inject_Z z)%Q.

Definition within (sol : var → Q) (v : Var) : Prop :=
  (LB v <= sol (key v))%Q ∧
  (∀ u, UB v = Some u → (sol (key v) <= u)%Q) ∧
  match VType v with
  | INTEGER => integral (sol (key v))
  | BINARY => (sol (key v) == 0)%Q ∨ (sol (key v) == 1)%Q
  | CONTINUOUS => True
  end.

(** The values a solve may leave in the variables: every declared bound
    and type is respected and every constraint holds. *)
Definition solution (md : Model) (sol : var → Q) : Prop :=
  Forall (within sol) (m_vars md) ∧
  Forall (λ c, holds sol (tc c)) (m_constrs md).
(** ** Results *)

(** What the library exposes after [optimize()]: the value [X] of every
    variable and the attributes of the solved model. *)
Record Solved := {
  X : var → Q;
  ObjVal : Q;
  Runtime : Q;
  NumVars : Z;
  NumConstrs : Z;
  NumNZs : Z
}.

(** The results dictionary, one field per key.  The entries copied from the
    file name and the arguments ([instance], [model], [city], [DB], [DT],
    [OC], [RM], [GM]) are left out. *)
Record Results := {
  num_periods : Z;
  num_scenarios_ : Z;
  obj_value : Q;
  elapsed_time : Q;
  n_variables : Z;
  n_constraints : Z;
  n_nonzeroes : Z;
  courier_moved_pct : option npfloat;    (* set only when [self.y] exists *)
  hiring_costs : Q;
  outsourcing_costs : Q;
  hired_couriers : gmap string (list Z);
  outsourced_parcels : gmap string (list Q);
  inhouse_parcels : gmap string (list Q);
  regional_hired_pct : gmap string Q;
  regional_avg_hired_pct : npfloat;
  global_avg_hired_pct : Q;
  n_shift_start_periods : option Z;      (* fixed *)
  periods_with_start : option Z;         (* flex, partflex *)
  periods_with_start_pct : option Q
}.

(** [td[k].X] *)
Definition td_X {K} `{EqDecision K} (sv : Solved) (mk : K → var) (td : list K)
    (k : K) : result Q :=
  if decide (k ∈ td) then Ok (X sv (mk k)) else Raise KeyError.

Section parcels.
(** The division operator of the three per-scenario quotients and of the
    three averages; the program's is [py_div]. *)
Variable divide : Q → Q → result Q.
Variables (i : Instance) (self : Solver) (sv : Solved).

(** The body of the loop over [theta]: the three values appended to
    [outsourced], [outsourced_pct] and [inhouse]. *)
Definition parcel_estimates_with (a : string) (theta : Z) : result (Q * Q * Q) :=
  scenarios_with_demand ← filterM (λ s,
      r ← subscript (srequired i) (s, a, theta);
      Ok (if Qlt_le_dec 0 r then true else false)) (scenarios i);
  if decide (length scenarios_with_demand = 0%nat) then Ok (0, 0, 0)%Q
  else
    t1 ← mapM (λ s,
        r ← subscript (srequired i) (s, a, theta);
        xv ← td_X sv vx (x self) (a, theta);
        d ← subscript (sdemand i) (s, a, theta);
        r' ← subscript (srequired i) (s, a, theta);
        divide ((r - xv) * d) r') scenarios_with_demand;
    let tot_outsourced := py_sum t1 in
    t2 ← mapM (λ s,
        r ← subscript (srequired i) (s, a, theta);
        xv ← td_X sv vx (x self) (a, theta);
        r' ← subscript (srequired i) (s, a, theta);
        divide (100 * (r - xv)) r') scenarios_with_demand;
    let tot_outsourced_pct := py_sum t2 in
    t3 ← mapM (λ s,
        d ← subscript (sdemand i) (s, a, theta);
        xv ← td_X sv vx (x self) (a, theta);
        r ← subscript (srequired i) (s, a, theta);
        divide (d * xv) r) scenarios_with_demand;
    let tot_inhouse := py_sum t3 in
    let tot_outsourced := py_max tot_outsourced 0 in
    let tot_outsourced_pct := py_max tot_outsourced_pct 0 in
    let n := inject_Z (Z.of_nat (length scenarios_with_demand)) in
    avg_outsourced ← divide tot_outsourced n;
    avg_outsourced_pct ← divide tot_outsourced_pct n;
    avg_inhouse ← divide tot_inhouse n;
    Ok (avg_outsourced, avg_outsourced_pct, avg_inhouse).
End parcels.

Definition parcel_estimates := parcel_estimates_with py_div.

(** One turn of the loop over the areas: the three lists of the area are
    stored in the three dictionaries. *)
Definition parcel_step (i : Instance) (self : Solver) (sv : Solved)
    (acc : gmap string (list Q) * gmap string (list Q) * gmap string (list Q))
    (a : string)
  : result (gmap string (list Q) * gmap string (list Q) * gmap string (list Q)) :=
  let '(o, p, h) := acc in
  rows ← mapM (parcel_estimates i self sv a) (periods i);
  Ok (<[a := (λ r, r.1.1) <$> rows]> o,
      <[a := (λ r, r.1.2) <$> rows]> p,
      <[a := (λ r, r.2) <$> rows]> h).

(** The three dictionaries filled by the loop over the areas; the second
    one, [outsourced_parcels_pct], is computed and then not stored in the
    results. *)
Definition parcel_tables (i : Instance) (self : Solver) (sv : Solved)
  : result (gmap string (list Q) * gmap string (list Q) * gmap string (list Q)) :=
  foldM (parcel_step i self sv) (areas i) (∅, ∅, ∅).

(** The movement percentages, one per region and period. *)
Definition pct_movement (i : Instance) (self : Solver) (sv : Solved)
    (yd : list (string * string * Z)) : result (list Q) :=
  mapM (λ '(r, theta),
      pairs ← filterM (λ '(a1, a2),
          if decide (a1 ≠ a2) then
            r1 ← subscript (area_regs i) a1;
            if decide (r1 = r) then
              r2 ← subscript (area_regs i) a2; Ok (bool_decide (r2 = r))
            else Ok false
          else Ok false)
        (a1 ← areas i; a2 ← areas i; [(a1, a2)]);
      ys ← mapM (λ '(a1, a2), td_X sv vy yd (a1, a2, theta)) pairs;
      let movements := py_sum ys in
      ras ← subscript (reg_areas i) r;
      xs ← mapM (λ a, td_X sv vx (x self) (a, theta)) ras;
      let employed := py_sum xs in
      if Qeq_bool employed 0 then Ok 0%Q
      else py_div (100 * movements) employed)
    (r ← regions i; theta ← periods i; [(r, theta)]).

(** The value computed for a region in [regional_hired_pct]. *)
Definition regional_pct (i : Instance) (self : Solver) (sv : Solved)
    (region : string) : result Q :=
  ras ← subscript (reg_areas i) region;
  xs ← mapM (λ '(a, theta), td_X sv vx (x self) (a, theta))
            (a ← ras; theta ← periods i; [(a, theta)]);
  ub ← subscript (ub_reg i) region;
  py_div (100 * py_sum xs) (inject_Z (ub * n_periods i)).

(** [Solver.__basic_results] *)
Definition basic_results (i : Instance) (self : Solver) (sv : Solved)
  : result Results :=
  let hiring_costs := py_sum (X sv ∘ vx <$> remove_dups (x self)) in
  let outsourcing_costs := (ObjVal sv - hiring_costs)%Q in
  hired ← dict_comp (λ a,
      mapM (λ theta, xv ← td_X sv vx (x self) (a, theta); Ok (Qtrunc xv))
           (periods i)) (areas i);
  '(outsourced, _, inhouse) ← parcel_tables i self sv;
  reg_pct ← dict_comp (regional_pct i self sv) (regions i);
  let reg_avg := np_mean (Fin ∘ snd <$> map_to_list reg_pct) in
  glb_avg ← py_div (100 * py_sum (X sv ∘ vx <$> remove_dups (x self)))
                   (inject_Z (ub_global i * n_periods i));
  moved ← match y self with
          | Some yd => l ← pct_movement i self sv yd; Ok (Some (np_mean (Fin <$> l)))
          | None => Ok None
          end;
  Ok {| num_periods := num_time_intervals (i_json i);
        num_scenarios_ := num_scenarios (i_json i);
        obj_value := ObjVal sv; elapsed_time := Runtime sv;
        n_variables := NumVars sv; n_constraints := NumConstrs sv;
        n_nonzeroes := NumNZs sv;
        courier_moved_pct := moved;
        hiring_costs := hiring_costs;
        outsourcing_costs := outsourcing_costs;
        hired_couriers := hired;
        outsourced_parcels := outsourced;
        inhouse_parcels := inhouse;
        regional_hired_pct := reg_pct;
        regional_avg_hired_pct := reg_avg;
        global_avg_hired_pct := glb_avg;
        n_shift_start_periods := None;
        periods_with_start := None;
        periods_with_start_pct := None |}.

(** [Solver.__fixed_results] *)
Definition fixed_results (i : Instance) (self : Solver) (sv : Solved)
  : result Results :=
  results ← basic_results i self sv;
  Ok {| num_periods := num_periods results;
        num_scenarios_ := num_scenarios_ results;
        obj_value := obj_value results; elapsed_time := elapsed_time results;
        n_variables := n_variables results;
        n_constraints := n_constraints results;
        n_nonzeroes := n_nonzeroes results;
        courier_moved_pct := courier_moved_pct results;
        hiring_costs := hiring_costs results;
        outsourcing_costs := outsourcing_costs results;
        hired_couriers := hired_couriers results;
        outsourced_parcels := outsourced_parcels results;
        inhouse_parcels := inhouse_parcels results;
        regional_hired_pct := regional_hired_pct results;
        regional_avg_hired_pct := regional_avg_hired_pct results;
        global_avg_hired_pct := global_avg_hired_pct results;
        n_shift_start_periods := Some 2;
        periods_with_start := periods_with_start results;
        periods_with_start_pct := periods_with_start_pct results |}.

(** The built-in [any] over a generator whose items may raise. *)
Fixpoint anyM {A} (p : A → result bool) (l : list A) : result bool :=
  match l with
  | [] => Ok false
  | a :: l => b ← p a; if b : bool then Ok true else anyM p l
  end.

(** [Solver.__flex_results] *)
Definition flex_results (i : Instance) (self : Solver) (sv : Solved)
  : result Results :=
  results ← basic_results i self sv;
  count ← foldM (λ n theta,
      zm ← getattr (zminus self);
      present ← anyM (λ a, Ok (bool_decide ((a, theta) ∈ zm))) (areas i);
      if present : bool then
        started ← anyM (λ a, v ← td_X sv vzminus zm (a, theta);
                            Ok (if Qlt_le_dec (1 # 10) v then true else false))
                       (areas i);
        Ok (if started : bool then n + 1 else n)
      else Ok n)
    (periods i) 0;
  pct ← py_div (100 * inject_Z count) (inject_Z (n_periods i));
  Ok {| num_periods := num_periods results;
        num_scenarios_ := num_scenarios_ results;
        obj_value := obj_value results; elapsed_time := elapsed_time results;
        n_variables := n_variables results;
        n_constraints := n_constraints results;
        n_nonzeroes := n_nonzeroes results;
        courier_moved_pct := courier_moved_pct results;
        hiring_costs := hiring_costs results;
        outsourcing_costs := outsourcing_costs results;
        hired_couriers := hired_couriers results;
        outsourced_parcels := outsourced_parcels results;
        inhouse_parcels := inhouse_parcels results;
        regional_hired_pct := regional_hired_pct results;
        regional_avg_hired_pct := regional_avg_hired_pct results;
        global_avg_hired_pct := global_avg_hired_pct results;
        n_shift_start_periods := n_shift_start_periods results;
        periods_with_start := Some count;
        periods_with_start_pct := Some pct |}.

Section solve.
(** The collaborator: [self.m.optimize()] leaves the solved attributes in
    the model. *)
Variable optimize : Model → Solved.

Definition solve_base (i : Instance) : result Results :=
  self ← build_base_model i;
  basic_results i self (optimize (m self)).

Definition solve_fixed (i : Instance) : result Results :=
  self ← build_fixed_model i;
  fixed_results i self (optimize (m self)).

Definition solve_partflex (i : Instance) : result Results :=
  self ← build_partflex_model i;
  flex_results i self (optimize (m self)).

Definition solve_flex (i : Instance) : result Results :=
  self ← build_flexible_model i;
  flex_results i self (optimize (m self)).

(** The script's body after argument parsing: derive the instance, then
    dispatch on the model. *)
Definition main (a : Namespace) (j : instance_json) : result Results :=
  i ← compute_data (CommandLine a) j;
  (* [-m] is one of base, fixed, partflex, flex *)
  if decide (args_model a = "base") then solve_base i
  else if decide (args_model a = "fixed") then solve_fixed i
  else if decide (args_model a = "partflex") then solve_partflex i
  else solve_flex i.
End solve.

(** ** The parcel estimates as the specification words them *)

Definition required (i : Instance) (s : Z) (a : string) (theta : Z) : Q :=
  required_of (srequired i) s a theta.

Definition demand_at (i : Instance) (s : Z) (a : string) (theta : Z) : Q :=
  default 0%Q (sdemand i !! (s, a, theta)).

Definition positive (r : Q) : bool := if Qlt_le_dec 0 r then true else false.

(** The scenarios with positive required couriers at an area and period. *)
Definition positive_scenarios (i : Instance) (a : string) (theta : Z) : list Z :=
  filter (λ s, positive (required i s a theta) = true) (scenarios i).

(** Clamping to at least 0: the larger of the number and 0. *)
Definition clamp (q : Q) : Q := Qmax q 0.

(** The three averages over the scenarios with positive required couriers,
    for [xv] hired couriers: outsourced parcels and outsourced percentage,
    clamped, and in-house parcels. *)
Definition avg_outsourced (i : Instance) (xv : Q) (a : string) (theta : Z) : Q :=
  clamp (Qmean ((λ s, (required i s a theta - xv) * demand_at i s a theta
                      / required i s a theta)%Q <$> positive_scenarios i a theta)).

Definition avg_outsourced_pct (i : Instance) (xv : Q) (a : string) (theta : Z) : Q :=
  clamp (Qmean ((λ s, 100 * (required i s a theta - xv)
                      / required i s a theta)%Q <$> positive_scenarios i a theta)).

Definition avg_inhouse (i : Instance) (xv : Q) (a : string) (theta : Z) : Q :=
  Qmean ((λ s, demand_at i s a theta * xv / required i s a theta)%Q
         <$> positive_scenarios i a theta).

(** The other reading of the specification's words, in which the term of
    each scenario is clamped before the average is taken. *)
Definition avg_outsourced_per_scenario (i : Instance) (xv : Q) (a : string)
    (theta : Z) : Q :=
  Qmean ((λ s, clamp ((required i s a theta - xv) * demand_at i s a theta
                      / required i s a theta))%Q <$> positive_scenarios i a theta).

Definition avg_outsourced_pct_per_scenario (i : Instance) (xv : Q) (a : string)
    (theta : Z) : Q :=
  Qmean ((λ s, clamp (100 * (required i s a theta - xv)
                      / required i s a theta))%Q <$> positive_scenarios i a theta).

(** ** Flow balance, as a property of a model and of a solution *)

(** The couriers moved into and out of an area at a period, in a solution:
    the values of [y.sum('*', a, theta)] and of [y.sum(a, '*', theta)]. *)
Definition moved_in (sol : var → Q) (yd : list (string * string * Z))
    (a : string) (theta : Z) : Q :=
  py_sum (sol ∘ vy <$>
          filter (λ k, bool_decide (k.1.2 = a) && bool_decide (k.2 = theta) = true)
                 (remove_dups yd)).

Definition moved_out (sol : var → Q) (yd : list (string * string * Z))
    (a : string) (theta : Z) : Q :=
  py_sum (sol ∘ vy <$>
          filter (λ k, bool_decide (k.1.1 = a) && bool_decide (k.2 = theta) = true)
                 (remove_dups yd)).

(** The two flow-balance families are in the model, for every area. *)
Definition flow_balance_members (i : Instance) (yd : list (string * string * Z))
    (md : Model) : Prop :=
  (∀ a, a ∈ areas i →
     {| ConstrName := "flow_balance_first_period";
        tc := eq_ (V (var_x a 0)) (V (var_zminus a 0)) |} ∈ m_constrs md) ∧
  (∀ a theta, a ∈ areas i → theta ∈ periods i → 0 < theta →
     {| ConstrName := "flow_balance";
        tc := eq_ (V (var_x a theta))
                  (Sub (Add (Sub (Add (V (var_x a (theta - 1))) (y_into yd a theta))
                                 (y_out_of yd a theta))
                            (V (var_zminus a theta)))
                       (V (var_zplus a (theta - 1)))) |} ∈ m_constrs md).

(** The flow-balance identity holds, with equality, at every area and
    period. *)
Definition flow_balance_identity (i : Instance) (yd : list (string * string * Z))
    (sol : var → Q) : Prop :=
  ∀ a, a ∈ areas i →
    (sol (var_x a 0) == sol (var_zminus a 0))%Q ∧
    ∀ theta, theta ∈ periods i → 0 < theta →
      (sol (var_x a theta) ==
       sol (var_x a (theta - 1)) + moved_in sol yd a theta
       - moved_out sol yd a theta
       + sol (var_zminus a theta) - sol (var_zplus a (theta - 1)))%Q.

(** The total of [x] over a list of areas at a period, in a solution. *)
Definition region_total (sol : var → Q) (ras : list string) (theta : Z) : Q :=
  py_sum ((λ a, sol (var_x a theta)) <$> ras).

(** *** A small instance to run the definitions on *)

Definition flat (v : Q) : list Q := replicate 8 v.

Definition toy_json (req dem : Q) : instance_json :=
  {| geography_city_regions := [ {| r_id := "r"; r_areas := ["a"; "b"] |} ];
     num_time_intervals := 8;
     num_scenarios := 2;
     demand_baseline := "db"; demand_type := "dt";
     j_scenarios :=
       [ {| scenario_num := 0;
            data := [ {| area_id := "a"; demand := flat dem; required_couriers := flat req |};
                      {| area_id := "b"; demand := flat dem; required_couriers := flat req |} ] |};
         {| scenario_num := 1;
            data := [ {| area_id := "a"; demand := flat dem; required_couriers := flat req |};
                      {| area_id := "b"; demand := flat dem; required_couriers := flat req |} ] |} ] |}.

Definition toy_args (m : string) (u : option Z) : Namespace :=
  {| args_model := m;
     args_outsourcing_cost_multiplier := 2;
     args_regional_multiplier := 1;
     args_global_multiplier := 1;
     args_max_n_shifts := u |}.

(** A computation that returns, and the value it returns. *)
Definition returns {A} (r : result A) : Prop :=
  match r with Ok _ => True | Raise _ => False end.

Definition value {A} (r : result A) : returns r → A :=
  match r with
  | Ok a => λ _, a
  | Raise _ => λ H, match H with end
  end.

Definition toy_base : Instance :=
  value (compute_data (CommandLine (toy_args "base" None)) (toy_json 2 10)) I.

Definition toy_fixed : Instance :=
  value (compute_data (CommandLine (toy_args "fixed" None)) (toy_json 2 10)) I.

Definition toy_flex : Instance :=
  value (compute_data (CommandLine (toy_args "flex" None)) (toy_json 2 10)) I.

(** Partflex from the command line, without [-u]. *)
Definition toy_partflex_nocap : Instance :=
  value (compute_data (CommandLine (toy_args "partflex" None)) (toy_json 2 10)) I.

(** Partflex called with keywords, the cap supplied. *)
Definition toy_kwargs : Kwargs :=
  {| kw_model := Some "partflex";
     kw_outsourcing_cost_multiplier := Some 2%Q;
     kw_regional_multiplier := Some 1%Q;
     kw_global_multiplier := Some 1%Q;
     kw_max_n_shifts := Some (Some 2) |}.

Definition toy_programmatic : Instance :=
  value (compute_data (Programmatic toy_kwargs) (toy_json 2 10)) I.

(** No courier required anywhere. *)
Definition toy_idle : Instance :=
  value (compute_data (CommandLine (toy_args "base" None)) (toy_json 0 10)) I.

(** A tenth of a courier required everywhere: the regional bound is the
    integer part of 0.2. *)
Definition toy_small : Instance :=
  value (compute_data (CommandLine (toy_args "base" None)) (toy_json (1 # 10) 10)) I.

(** Solved values: one courier hired everywhere, nothing else. *)
Definition toy_solved : Solved :=
  {| X := λ v, match v with var_x _ _ => 1%Q | _ => 0%Q end;
     ObjVal := 16; Runtime := 0; NumVars := 48; NumConstrs := 48; NumNZs := 0 |}.

Definition toy_base_solver : Solver := value (build_base_model toy_base) I.
Definition toy_idle_solver : Solver := value (build_base_model toy_idle) I.

(** ** What the derivation leaves in an instance *)

(** The attributes of a derived instance, step by step. *)
Record derived (c : invocation) (j : instance_json) (i : Instance) : Prop := {
  d_params : read_params c =
             Ok (reg_multiplier i, glb_multiplier i,
                 outsourcing_cost_multiplier i, model i);
  d_args : args i = inv_args c;
  d_json : i_json i = j;
  d_cost : outsourcing_cost i =
           (COST_PER_COURIER_AND_PERIOD * outsourcing_cost_multiplier i)%Q;
  d_n_periods : n_periods i = num_time_intervals j;
  d_n_scenarios : n_scenarios i = num_scenarios j;
  d_periods : periods i = range (n_periods i);
  d_scenarios : scenarios i = range (n_scenarios i);
  d_regions : regions i = r_id <$> geography_city_regions j;
  d_areas : areas i = (r ← geography_city_regions j; r_areas r);
  d_reg_areas : reg_areas i = make_reg_areas (geography_city_regions j);
  d_area_regs : make_area_regs (regions i) (areas i) (reg_areas i) = Ok (area_regs i);
  d_sdemand : sdemand i = fill_demand (j_scenarios j);
  d_srequired : srequired i = fill_required (j_scenarios j);
  d_ubs : get_ubs (srequired i) (scenarios i) (periods i) (areas i) (regions i)
                  (reg_areas i) (reg_multiplier i) (glb_multiplier i)
          = Ok (ub_reg i, ub_global i);
  d_shifts : get_shifts (n_periods i) (periods i) = Ok (shifts i);
  d_partflex : partflex_attrs c (model i) = Ok (max_n_shifts i, max_n_shift i)
}.

(** What the derivation guarantees to the model builder. *)
Record wf_instance (i : Instance) : Prop := {
  wf_n_periods : n_periods i = 8;
  wf_periods : periods i = seqZ 0 8;
  wf_scenarios : scenarios i = range (n_scenarios i);
  wf_shifts : shifts i = [seqZ 0 4; seqZ 4 4];
  wf_reg_areas : ∀ region, region ∈ regions i →
    ∃ ras, reg_areas i !! region = Some ras ∧ ∀ a, a ∈ ras → a ∈ areas i;
  wf_area_regs : ∀ a, a ∈ areas i →
    ∃ region ras, area_regs i !! a = Some region ∧ region ∈ regions i ∧
                  reg_areas i !! region = Some ras ∧ a ∈ ras;
  wf_ub_reg : ∀ region, region ∈ regions i → is_Some (ub_reg i !! region);
  wf_srequired : ∀ s a theta,
    s ∈ scenarios i → a ∈ areas i → theta ∈ periods i →
    is_Some (srequired i !! (s, a, theta));
  wf_cost : outsourcing_cost i =
            (COST_PER_COURIER_AND_PERIOD * outsourcing_cost_multiplier i)%Q
}.

(** A row of the family [flow_balance] of the flexible model. *)
Definition flow_balance_flex_row (yd : list (string * string * Z))
    (k : string * Z) : TempConstr :=
  eq_ (V (var_x k.1 k.2))
      (Sub (Add (Sub (Add (V (var_x k.1 (k.2 - 1))) (y_into yd k.1 k.2))
                     (y_out_of yd k.1 k.2))
                (V (var_zminus k.1 k.2)))
           (V (var_zplus k.1 (k.2 - 1)))).

(** The instance of the specification's example, with the period count set
    to 6. *)
Definition six_periods_json : instance_json :=
  {| geography_city_regions := [ {| r_id := "r"; r_areas := ["a"] |} ];
     num_time_intervals := 6;
     num_scenarios := 1;
     demand_baseline := "db"; demand_type := "dt";
     j_scenarios :=
       [ {| scenario_num := 0;
            data := [ {| area_id := "a"; demand := flat 10;
                         required_couriers := flat 2 |} ] |} ] |}.

(** ** Notions for the properties of the four models and of the results *)

(** [self] is what one of the four builders leaves. *)
Definition built (i : Instance) (self : Solver) : Prop :=
  build_base_model i = Ok self ∨ build_fixed_model i = Ok self ∨
  build_flexible_model i = Ok self ∨ build_partflex_model i = Ok self.

(** The value of [self.x.sum('*', theta)] in a solution: the sum over the
    keys of [x] at that period. *)
Definition period_total (sol : var → Q) (i : Instance) (theta : Z) : Q :=
  py_sum (sol ∘ vx <$>
          filter (λ k : string * Z, bool_decide (k.2 = theta) = true)
                 (remove_dups (x_keys i))).

(** The shift starts and the shift ends of a list of areas at a period. *)
Definition region_starts (sol : var → Q) (ras : list string) (theta : Z) : Q :=
  py_sum ((λ a, sol (var_zminus a theta)) <$> ras).

Definition region_ends (sol : var → Q) (ras : list string) (theta : Z) : Q :=
  py_sum ((λ a, sol (var_zplus a theta)) <$> ras).

(** The value of [self.w.sum()] in a solution. *)
Definition w_total (sol : var → Q) (w_idx : list Z) : Q :=
  py_sum (sol ∘ vw <$> filter (λ _ : Z, true = true) (remove_dups w_idx)).

(** The effect on a declared variable of closing the upper bound of the
    variables with a key in [keys]. *)
Definition close_at (keys : list var) (v : Var) : Var :=
  if decide (key v ∈ keys)
  then {| key := key v; VType := VType v; LB := LB v; UB := Some 0%Q; Obj := Obj v |}
  else v.

(** The test of [__flex_results] at a period: some area starts a shift,
    [zminus[a, theta].X > 0.1]. *)
Definition starts_shift (sv : Solved) (i : Instance) (theta : Z) : bool :=
  existsb (λ a, if Qlt_le_dec (1 # 10) (X sv (var_zminus a theta)) then true else false)
          (areas i).

(** The periods counted by [__flex_results]. *)
Definition start_periods (sv : Solved) (i : Instance) : list Z :=
  filter (λ theta, starts_shift sv i theta = true) (periods i).

(** ** Checking a candidate solution *)

(** The test of [within] on a declared variable. *)
Definition withinb (sol : var → Q) (v : Var) : bool :=
  Qle_bool (LB v) (sol (key v)) &&
  match UB v with Some u => Qle_bool (sol (key v)) u | None => true end &&
  match VType v with
  | INTEGER => Qeq_bool (sol (key v)) (inject_Z (Qfloor (sol (key v))))
  | BINARY => Qeq_bool (sol (key v)) 0 || Qeq_bool (sol (key v)) 1
  | CONTINUOUS => true
  end.

(** The test of [holds] on a constraint. *)
Definition holdsb (sol : var → Q) (c : TempConstr) : bool :=
  match csense c with
  | LESS_EQUAL => Qle_bool (eval sol (lhs c)) (eval sol (rhs c))
  | GREATER_EQUAL => Qle_bool (eval sol (rhs c)) (eval sol (lhs c))
  | EQUAL => Qeq_bool (eval sol (lhs c)) (eval sol (rhs c))
  end.

Definition solutionb (md : Model) (sol : var → Q) : bool :=
  forallb (withinb sol) (m_vars md) &&
  forallb (λ c, holdsb sol (tc c)) (m_constrs md).

(** *** The small instance, solved *)

(** Partflex from the command line, with [-u 2]. *)
Definition toy_partflex : Instance :=
  value (compute_data (CommandLine (toy_args "partflex" (Some 2))) (toy_json 2 10)) I.

Definition toy_fixed_solver : Solver := value (build_fixed_model toy_fixed) I.
Definition toy_flex_solver : Solver := value (build_flexible_model toy_flex) I.
Definition toy_partflex_solver : Solver := value (build_partflex_model toy_partflex) I.

(** Two couriers in each area at every period, in two shifts of four
    periods that start at periods 0 and 4; nobody moves and nothing is
    outsourced. *)
Definition toy_shifts (v : var) : Q :=
  match v with
  | var_x _ _ => 2
  | var_zminus _ theta => if decide (theta = 0 ∨ theta = 4) then 2 else 0
  | var_zplus _ theta => if decide (theta = 3 ∨ theta = 7) then 2 else 0
  | var_w theta => if decide (theta = 0 ∨ theta = 4) then 1 else 0
  | _ => 0
  end.

Definition toy_run : Solved :=
  {| X := toy_shifts; ObjVal := 32; Runtime := 0;
     NumVars := 0; NumConstrs := 0; NumNZs := 0 |}.

(** Two regions with the same identifier: the second list replaces the
    first, and area "a" is left in no list. *)
Definition twin_regions_json : instance_json :=
  {| geography_city_regions := [ {| r_id := "r"; r_areas := ["a"] |};
                                 {| r_id := "r"; r_areas := ["b"] |} ];
     num_time_intervals := 8;
     num_scenarios := 1;
     demand_baseline := "db"; demand_type := "dt";
     j_scenarios :=
       [ {| scenario_num := 0;
            data := [ {| area_id := "a"; demand := flat 10;
                         required_couriers := flat 2 |};
                      {| area_id := "b"; demand := flat 10;
                         required_couriers := flat 2 |} ] |} ] |}.

(** The required couriers of area "a" stop after seven periods. *)
Definition short_required_json : instance_json :=
  {| geography_city_regions := [ {| r_id := "r"; r_areas := ["a"] |} ];
     num_time_intervals := 8;
     num_scenarios := 1;
     demand_baseline := "db"; demand_type := "dt";
     j_scenarios :=
       [ {| scenario_num := 0;
            data := [ {| area_id := "a"; demand := flat 10;
                         required_couriers := replicate 7 2%Q |} ] |} ] |}.

(** No scenario at all. *)
Definition no_scenarios_json : instance_json :=
  {| geography_city_regions := [ {| r_id := "r"; r_areas := ["a"] |} ];
     num_time_intervals := 8;
     num_scenarios := 0;
     demand_baseline := "db"; demand_type := "dt";
     j_scenarios := [] |}.

(** Two regions and three areas, the required couriers differing by
    scenario; a regional multiplier of 0.29 and a global one of 1.5. *)
Definition toy_bounds_json : instance_json :=
  {| geography_city_regions := [ {| r_id := "r1"; r_areas := ["a"; "b"] |};
                                 {| r_id := "r2"; r_areas := ["c"] |} ];
     num_time_intervals := 8;
     num_scenarios := 2;
     demand_baseline := "db"; demand_type := "dt";
     j_scenarios :=
       [ {| scenario_num := 0;
            data := [ {| area_id := "a"; demand := flat 10; required_couriers := flat 100 |};
                      {| area_id := "b"; demand := flat 10; required_couriers := flat 50 |};
                      {| area_id := "c"; demand := flat 10; required_couriers := flat 100 |} ] |};
         {| scenario_num := 1;
            data := [ {| area_id := "a"; demand := flat 10; required_couriers := flat 200 |};
                      {| area_id := "b"; demand := flat 10; required_couriers := flat 51 |};
                      {| area_id := "c"; demand := flat 10; required_couriers := flat 100 |} ] |} ] |}.

Definition toy_bounds_args (rm : Q) : Namespace :=
  {| args_model := "base";
     args_outsourcing_cost_multiplier := 2;
     args_regional_multiplier := rm;
     args_global_multiplier := 3 # 2;
     args_max_n_shifts := None |}.

Definition toy_bounds : Instance :=
  value (compute_data (CommandLine (toy_bounds_args (29 # 100))) toy_bounds_json) I.

(** The same with a negative regional multiplier, -0.375. *)
Definition toy_negative : Instance :=
  value (compute_data (CommandLine (toy_bounds_args (-(3 # 8)))) toy_bounds_json) I.

(** The small instance with the period count set to 9, the data still
    holding eight values per area, and with the period count set to 0. *)
Definition nine_periods_json : instance_json :=
  {| geography_city_regions := geography_city_regions (toy_json 2 10);
     num_time_intervals := 9;
     num_scenarios := 2;
     demand_baseline := "db"; demand_type := "dt";
     j_scenarios := j_scenarios (toy_json 2 10) |}.

Definition no_periods_json : instance_json :=
  {| geography_city_regions := geography_city_regions (toy_json 2 10);
     num_time_intervals := 0;
     num_scenarios := 2;
     demand_baseline := "db"; demand_type := "dt";
     j_scenarios := j_scenarios (toy_json 2 10) |}.

(** Scenario 0 requires one courier and scenario 1 three, at every area and
    period; the demand is 10. *)
Definition toy_uneven_json : instance_json :=
  {| geography_city_regions := [ {| r_id := "r"; r_areas := ["a"; "b"] |} ];
     num_time_intervals := 8;
     num_scenarios := 2;
     demand_baseline := "db"; demand_type := "dt";
     j_scenarios :=
       [ {| scenario_num := 0;
            data := [ {| area_id := "a"; demand := flat 10; required_couriers := flat 1 |};
                      {| area_id := "b"; demand := flat 10; required_couriers := flat 1 |} ] |};
         {| scenario_num := 1;
            data := [ {| area_id := "a"; demand := flat 10; required_couriers := flat 3 |};
                      {| area_id := "b"; demand := flat 10; required_couriers := flat 3 |} ] |} ] |}.

Definition toy_uneven : Instance :=
  value (compute_data (CommandLine (toy_args "base" None)) toy_uneven_json) I.

Definition toy_uneven_solver : Solver := value (build_base_model toy_uneven) I.

(** * Properties *)

(** ** The error monad *)

Lemma bind_Ok {A B} (r : result A) (f : A → result B) (b : B) :
  r ≫= f = Ok b ↔ ∃ a, r = Ok a ∧ f a = Ok b.
Proof.
  destruct r as [a|e]; simpl; split.
  - intros Hf. by exists a.
  - by intros (a' & [= <-] & Hf).
  - discriminate.
  - by intros (a' & [=] & _).
Qed.

Lemma bind_Raise {A B} (r : result A) (f : A → result B) (e : exn) :
  r ≫= f = Raise e ↔ r = Raise e ∨ ∃ a, r = Ok a ∧ f a = Raise e.
Proof.
  destruct r as [a|e']; simpl; split.
  - intros Hf. right. by exists a.
  - intros [[=]|(a' & [= <-] & Hf)]. done.
  - intros [= <-]. by left.
  - intros [[= <-]|(a' & [=] & _)]. done.
Qed.

Lemma is_Ok_bind {A B} (r : result A) (f : A → result B) :
  is_Ok r → (∀ a, r = Ok a → is_Ok (f a)) → is_Ok (r ≫= f).
Proof. intros [a ->] Hf. simpl. by apply Hf. Qed.

Lemma value_eq {A} (r : result A) (H : returns r) : r = Ok (value r H).
Proof. destruct r; [reflexivity|destruct H]. Qed.

Lemma returns_is_Ok {A} (r : result A) : returns r → is_Ok r.
Proof. destruct r; [by eexists|done]. Qed.

Ltac inv_bind H :=
  let a := fresh "v" in
  let Ha := fresh "E" in
  apply bind_Ok in H as (a & Ha & H).

Lemma subscript_Ok `{Countable K} {V} (d : gmap K V) (k : K) (v : V) :
  subscript d k = Ok v ↔ d !! k = Some v.
Proof. unfold subscript. destruct (d !! k); split; congruence. Qed.

Section mapM_result.
Context {A B : Type} (f : A → result B).

Lemma mapM_nil : mapM f [] = Ok [].
Proof. reflexivity. Qed.

Lemma mapM_cons a l :
  mapM f (a :: l) = (b ← f a; k ← mapM f l; Ok (b :: k)).
Proof. reflexivity. Qed.

Lemma mapM_Ok_Forall2 l k :
  mapM f l = Ok k ↔ Forall2 (λ a b, f a = Ok b) l k.
Proof.
  revert k. induction l as [|a l IH]; intros k.
  - rewrite mapM_nil. split.
    + intros [= <-]. constructor.
    + intros Hk. by inversion Hk.
  - rewrite mapM_cons. split.
    + intros Hm. inv_bind Hm. inv_bind Hm. injection Hm as <-.
      constructor; [done|]. by apply IH.
    + intros Hk. inversion Hk as [|? b ? k' Hb Hk']; subst.
      rewrite Hb. simpl. apply IH in Hk'. by rewrite Hk'.
Qed.

Lemma mapM_Ok_elem l k a :
  mapM f l = Ok k → a ∈ l → ∃ b, f a = Ok b ∧ b ∈ k.
Proof.
  rewrite mapM_Ok_Forall2. intros HF Ha.
  destruct (proj1 (list_elem_of_lookup l a) Ha) as [n Hn].
  destruct (Forall2_lookup_l _ _ _ _ _ HF Hn) as (b & Hb & Hab).
  exists b. split; [done|]. by eapply list_elem_of_lookup_2.
Qed.

Lemma mapM_Ok_elem_r l k b :
  mapM f l = Ok k → b ∈ k → ∃ a, a ∈ l ∧ f a = Ok b.
Proof.
  rewrite mapM_Ok_Forall2. intros HF Hb.
  destruct (proj1 (list_elem_of_lookup k b) Hb) as [n Hn].
  destruct (Forall2_lookup_r _ _ _ _ _ HF Hn) as (a & Ha & Hab).
  exists a. split; [|done]. by eapply list_elem_of_lookup_2.
Qed.

Lemma mapM_Ok_fmap (g : A → B) l :
  (∀ a, a ∈ l → f a = Ok (g a)) → mapM f l = Ok (g <$> l).
Proof.
  intros Hg. apply mapM_Ok_Forall2.
  induction l as [|a l IH]; simpl; constructor.
  - apply Hg. left.
  - apply IH. intros a' Ha'. apply Hg. by right.
Qed.

Lemma mapM_is_Ok l : (∀ a, a ∈ l → is_Ok (f a)) → is_Ok (mapM f l).
Proof.
  induction l as [|a l IH]; intros Hl.
  - by exists [].
  - rewrite mapM_cons.
    destruct (Hl a) as [b Hb]; [left|]. rewrite Hb. simpl.
    destruct IH as [k Hk]; [intros a' Ha'; apply Hl; by right|].
    rewrite Hk. simpl. by eexists.
Qed.

Lemma mapM_Ok_length l k : mapM f l = Ok k → length k = length l.
Proof. rewrite mapM_Ok_Forall2. intros HF. symmetry. by eapply Forall2_length. Qed.
End mapM_result.

Section dict_comp.
Context `{Countable K} {V : Type} (f : K → result V).

Lemma dict_comp_from_lookup keys d0 d k :
  dict_comp_from f keys d0 = Ok d →
  d !! k = (if decide (k ∈ keys) then d !! k else d0 !! k) ∧
  (k ∈ keys → ∃ v, f k = Ok v ∧ d !! k = Some v).
Proof.
  revert d0. induction keys as [|k' keys IH]; intros d0 Hd; simpl in Hd.
  - injection Hd as <-. split; [|by intros ?%elem_of_nil].
    by destruct (decide (k ∈ [])).
  - inv_bind Hd. destruct (IH _ Hd) as [IH1 IH2]. split.
    + destruct (decide (k ∈ k' :: keys)) as [|Hn]; [done|].
      rewrite IH1. rewrite not_elem_of_cons in Hn. destruct Hn as [Hne Hn].
      case_decide; [done|]. by rewrite lookup_insert_ne.
    + intros [->|Hk]%elem_of_cons.
      * destruct (decide (k' ∈ keys)) as [Hin|Hn]; [by apply IH2|].
        exists v. split; [done|]. rewrite IH1. apply lookup_insert_eq.
      * by apply IH2.
Qed.

Lemma dict_comp_lookup keys d k :
  dict_comp f keys = Ok d → k ∈ keys → ∃ v, f k = Ok v ∧ d !! k = Some v.
Proof. intros Hd. by apply (dict_comp_from_lookup keys ∅ d k). Qed.

Lemma dict_comp_lookup_Some keys d k v :
  dict_comp f keys = Ok d → d !! k = Some v → k ∈ keys ∧ f k = Ok v.
Proof.
  intros Hd Hk. destruct (dict_comp_from_lookup keys ∅ d k Hd) as [H1 H2].
  destruct (decide (k ∈ keys)) as [Hin|Hn].
  - split; [done|]. destruct (H2 Hin) as (v' & Hv' & Hl). congruence.
  - by rewrite H1, lookup_empty in Hk.
Qed.

Lemma dict_comp_from_is_Ok keys d0 :
  (∀ k, k ∈ keys → is_Ok (f k)) → is_Ok (dict_comp_from f keys d0).
Proof.
  revert d0. induction keys as [|k keys IH]; intros d0 Hk; simpl.
  - by eexists.
  - destruct (Hk k) as [v Hv]; [left|]. rewrite Hv. simpl.
    apply IH. intros k' Hk'. apply Hk. by right.
Qed.

Lemma dict_comp_is_Ok keys :
  (∀ k, k ∈ keys → is_Ok (f k)) → is_Ok (dict_comp f keys).
Proof. apply dict_comp_from_is_Ok. Qed.
End dict_comp.

Section filterM.
Context {A : Type} (p : A → result bool).

Lemma filterM_Ok_elem l k a :
  filterM p l = Ok k → (a ∈ k ↔ a ∈ l ∧ p a = Ok true).
Proof.
  revert k. induction l as [|a' l IH]; intros k Hk; simpl in Hk.
  - injection Hk as <-. split; [by intros ?%elem_of_nil|].
    by intros [?%elem_of_nil _].
  - inv_bind Hk. inv_bind Hk. injection Hk as <-.
    specialize (IH _ E0). destruct v.
    + rewrite !elem_of_cons, IH. split.
      * intros [->|[? ?]]; eauto.
      * intros [[->|?] ?]; eauto.
    + rewrite elem_of_cons, IH. split.
      * intros [? ?]; eauto.
      * intros [[->|?] ?]; [congruence|eauto].
Qed.

Lemma filterM_Ok_all l k a :
  filterM p l = Ok k → a ∈ l → is_Ok (p a).
Proof.
  revert k. induction l as [|a' l IH]; intros k Hk; simpl in Hk.
  - by intros ?%elem_of_nil.
  - inv_bind Hk. inv_bind Hk. intros [->|Ha]%elem_of_cons.
    + by eexists.
    + by eapply IH.
Qed.

Lemma filterM_is_Ok l : (∀ a, a ∈ l → is_Ok (p a)) → is_Ok (filterM p l).
Proof.
  induction l as [|a l IH]; intros Hl; simpl.
  - by eexists.
  - destruct (Hl a) as [b Hb]; [left|]. rewrite Hb. simpl.
    destruct IH as [k Hk]; [intros a' Ha'; apply Hl; by right|].
    rewrite Hk. simpl. by eexists.
Qed.

Lemma filterM_pure (q : A → bool) l :
  (∀ a, a ∈ l → p a = Ok (q a)) → filterM p l = Ok (filter (λ a, q a = true) l).
Proof.
  induction l as [|a l IH]; intros Hl; simpl; [done|].
  rewrite Hl by left. simpl. rewrite IH by (intros a' Ha'; apply Hl; by right).
  simpl. rewrite filter_cons. destruct (q a) eqn:Hq.
  - by rewrite decide_True.
  - by rewrite decide_False.
Qed.
End filterM.

Lemma foldM_is_Ok {A B} (f : B → A → result B) l b :
  (∀ b' a, a ∈ l → is_Ok (f b' a)) → is_Ok (foldM f l b).
Proof.
  revert b. induction l as [|a l IH]; intros b Hl; simpl.
  - by eexists.
  - destruct (Hl b a) as [b' Hb']; [left|]. rewrite Hb'. simpl.
    apply IH. intros b'' a' Ha'. apply Hl. by right.
Qed.

Lemma foldM_invariant {A B} (P : B → Prop) (f : B → A → result B) l b b' :
  (∀ b1 b2 a, a ∈ l → P b1 → f b1 a = Ok b2 → P b2) →
  P b → foldM f l b = Ok b' → P b'.
Proof.
  revert b. induction l as [|a l IH]; intros b Hf Hb Hfold; simpl in Hfold.
  - by injection Hfold as <-.
  - inv_bind Hfold. eapply IH; [|eapply Hf; [left|exact Hb|exact E]|exact Hfold].
    intros b1 b2 a' Ha'. apply Hf. by right.
Qed.

(** ** Sums and means *)

Lemma fold_left_Qplus_acc l a : (fold_left Qplus l a == a + py_sum l)%Q.
Proof.
  unfold py_sum. revert a. induction l as [|q l IH]; intros a; simpl.
  - ring.
  - rewrite IH, (IH (0 + q)%Q). ring.
Qed.

Lemma py_sum_cons q l : (py_sum (q :: l) == q + py_sum l)%Q.
Proof. unfold py_sum at 1. simpl. rewrite fold_left_Qplus_acc. ring. Qed.

Lemma py_sum_app l k : (py_sum (l ++ k) == py_sum l + py_sum k)%Q.
Proof.
  induction l as [|q l IH]; simpl.
  - unfold py_sum at 2. simpl. ring.
  - rewrite !py_sum_cons, IH. ring.
Qed.

Lemma py_sum_nonneg l : Forall (λ q, (0 <= q)%Q) l → (0 <= py_sum l)%Q.
Proof.
  induction 1 as [|q l Hq Hl IH].
  - unfold py_sum. simpl. apply Qle_refl.
  - rewrite py_sum_cons. replace 0%Q with (0 + 0)%Q by reflexivity.
    by apply Qplus_le_compat.
Qed.

Lemma fold_left_nf_add_Fin qs a :
  fold_left nf_add (Fin <$> qs) (Fin a) = Fin (fold_left Qplus qs a).
Proof. revert a. induction qs as [|q qs IH]; intros a; simpl; [done|]. apply IH. Qed.

Lemma nf_sum_Fin qs : nf_sum (Fin <$> qs) = Fin (py_sum qs).
Proof. apply fold_left_nf_add_Fin. Qed.

Lemma np_mean_Fin qs : qs ≠ [] → np_mean (Fin <$> qs) = Fin (Qmean qs).
Proof.
  intros Hne. unfold np_mean. destruct qs as [|q qs]; [done|].
  change (Fin <$> q :: qs) with (Fin q :: (Fin <$> qs)).
  change (Fin q :: (Fin <$> qs)) with (Fin <$> q :: qs).
  rewrite nf_sum_Fin. unfold Qmean. by rewrite length_fmap.
Qed.

(** Truncation and floor agree on the non-negative numbers. *)
Lemma Qtrunc_floor q : (0 <= q)%Q → Qtrunc q = Qfloor q.
Proof.
  destruct q as [n d]. unfold Qle, Qtrunc, Qfloor. simpl. intros Hn.
  apply Z.quot_div_nonneg; lia.
Qed.

Lemma Qtrunc_nonneg q : (0 <= q)%Q → 0 ≤ Qtrunc q.
Proof.
  destruct q as [n d]. unfold Qle, Qtrunc. simpl. intros Hn.
  apply Z.quot_pos; lia.
Qed.

(** ** Doubles: signs *)

Lemma shr_1_nonneg mrs : 0 ≤ shr_m mrs → 0 ≤ shr_m (shr_1 mrs).
Proof. destruct mrs as [[|[p|p|]|p] r s]; simpl; lia. Qed.

Lemma iter_pos_shr_1_nonneg p mrs :
  0 ≤ shr_m mrs → 0 ≤ shr_m (SpecFloat.iter_pos shr_1 p mrs).
Proof.
  revert mrs. induction p as [p IH|p IH|]; intros mrs Hm; simpl.
  - apply IH, IH. by apply shr_1_nonneg.
  - by apply IH, IH.
  - by apply shr_1_nonneg.
Qed.

Lemma shr_nonneg mrs e n : 0 ≤ shr_m mrs → 0 ≤ shr_m (shr mrs e n).1.
Proof.
  intros Hm. unfold shr. destruct n; simpl; [done| |done].
  by apply iter_pos_shr_1_nonneg.
Qed.

Lemma shr_record_of_loc_m m l : shr_m (shr_record_of_loc m l) = m.
Proof. by destruct l as [|[]]. Qed.

Lemma shr_fexp_nonneg prec emax m e l :
  0 ≤ m → 0 ≤ shr_m (shr_fexp prec emax m e l).1.
Proof.
  intros Hm. unfold shr_fexp. apply shr_nonneg. by rewrite shr_record_of_loc_m.
Qed.

Lemma round_nearest_even_nonneg m l : 0 ≤ m → 0 ≤ round_nearest_even m l.
Proof.
  intros Hm. destruct l as [|[]]; simpl; try done; [destruct (Z.even m)|]; lia.
Qed.

Lemma binary_round_aux_nonneg prec emax mx ex lx :
  0 ≤ mx → fl_nonneg (binary_round_aux prec emax false mx ex lx).
Proof.
  intros Hm. unfold binary_round_aux.
  pose proof (shr_fexp_nonneg prec emax mx ex lx Hm) as H1.
  destruct (shr_fexp prec emax mx ex lx) as [mrs' e']. simpl in H1.
  pose proof (shr_fexp_nonneg prec emax
                (round_nearest_even (shr_m mrs') (loc_of_shr_record mrs')) e' loc_Exact
                (round_nearest_even_nonneg _ _ H1)) as H2.
  destruct (shr_fexp prec emax _ e' loc_Exact) as [mrs'' e'']. simpl in H2.
  destruct (shr_m mrs''); [done| |lia].
  by destruct (e'' <=? emax - prec).
Qed.

Lemma binary_round_nonneg prec emax m e :
  fl_nonneg (binary_round prec emax false m e).
Proof.
  unfold binary_round. destruct (shl_align _ _ _) as [mz ez].
  by apply binary_round_aux_nonneg.
Qed.

Lemma fl_mul_nonneg x y : fl_nonneg x → fl_nonneg y → fl_nonneg (fl_mul x y).
Proof.
  destruct x as [[]|[]| |[] mx ex], y as [[]|[]| |[] my ey]; simpl; try done.
  intros _ _. by apply binary_round_aux_nonneg.
Qed.

Lemma fl_add_nonneg x y : fl_nonneg x → fl_nonneg y → fl_nonneg (fl_add x y).
Proof.
  destruct x as [[]|[]| |[] mx ex], y as [[]|[]| |[] my ey]; simpl; try done.
  intros _ _. unfold fl_add, SFadd. simpl.
  destruct (shl_align mx ex _) as [m1 e1], (shl_align my ey _) as [m2 e2]. simpl.
  apply binary_round_nonneg.
Qed.

Lemma fl_of_Z_nonneg z :
  0 ≤ z → fl_nonneg (fl_of_Z z) ∧ fl_of_Z z ≠ S754_zero true.
Proof.
  intros Hz. unfold fl_of_Z, binary_normalize. destruct z as [|p|p]; [done| |lia].
  pose proof (binary_round_nonneg 53 1024 p 0) as Hn. split; [done|].
  unfold binary_round, binary_round_aux in *.
  destruct (shl_align _ _ _) as [mz ez].
  destruct (shr_fexp 53 1024 (Z.pos mz) ez loc_Exact) as [mrs' e'].
  destruct (shr_fexp 53 1024 _ e' loc_Exact) as [mrs'' e''].
  destruct (shr_m mrs''); [done| |done]. by destruct (e'' <=? 1024 - 53).
Qed.

Lemma fl_div_finite_nonneg mx ex my ey :
  fl_nonneg (fl_div (S754_finite false mx ex) (S754_finite false my ey)).
Proof.
  unfold fl_div, SFdiv, SFdiv_core_binary.
  set (m' := match _ - _ - _ with Z.pos _ => _ | 0 => _ | Z.neg _ => _ end).
  assert (Hm' : 0 ≤ m').
  { unfold m'. destruct (_ - _ - _) eqn:Hs; [lia| |lia].
    apply Z.shiftl_nonneg. lia. }
  pose proof (Z.div_eucl_eq m' (Z.pos my) ltac:(lia)) as Heq.
  pose proof (Z.mod_pos_bound m' (Z.pos my) ltac:(lia)) as Hmod.
  assert (Hq : 0 ≤ m' / Z.pos my) by (apply Z.div_pos; lia).
  unfold Z.div, Z.modulo in *.
  destruct (Z.div_eucl m' (Z.pos my)) as [q r]. simpl.
  by apply binary_round_aux_nonneg.
Qed.

Lemma fl_div_nonneg x y :
  fl_nonneg x → fl_nonneg y → y ≠ S754_zero true → fl_nonneg (fl_div x y).
Proof.
  destruct x as [[]|[]| |[] mx ex], y as [[]|[]| |[] my ey]; simpl; try done.
  intros _ _ _. apply fl_div_finite_nonneg.
Qed.

Lemma fl_of_Q_nonneg q : (0 <= q)%Q → fl_nonneg (fl_of_Q q).
Proof.
  destruct q as [n d]. unfold Qle, fl_of_Q. simpl. intros Hn.
  destruct n as [|p|p]; [done| |lia]. apply fl_div_finite_nonneg.
Qed.

Lemma fl_value_nonneg f : fl_nonneg f → (0 <= fl_value f)%Q.
Proof.
  destruct f as [s|s| |[] m e]; simpl; try done.
  intros _. destruct e as [|k|k]; unfold Qle; simpl; lia.
Qed.

(** ** Doubles: not-a-number *)

Lemma fl_add_nan_l x : fl_add S754_nan x = S754_nan.
Proof. by destruct x. Qed.

Lemma fl_add_nan_r x : fl_add x S754_nan = S754_nan.
Proof. by destruct x. Qed.

Lemma fl_mul_nan_r x : fl_mul x S754_nan = S754_nan.
Proof. by destruct x. Qed.

Lemma fl_div_nan_l x : fl_div S754_nan x = S754_nan.
Proof. by destruct x. Qed.

(** ** Sums of doubles *)

(** What holds of the summands holds of their sum, for a property that
    addition keeps. *)
Section sums_closed.
Variable P : double → Prop.
Hypothesis P_add : ∀ x y, P x → P y → P (fl_add x y).
Hypothesis P_first : ∀ x, P x → P (fl_add (S754_zero true) x).
Hypothesis P_nan : P S754_nan.

Lemma fold_left_closed l a : P a → Forall P l → P (fold_left fl_add l a).
Proof.
  intros Ha Hl. revert a Ha. induction Hl as [|x l Hx _ IH]; intros a Ha; simpl; auto.
Qed.

Lemma zip_with_closed r l :
  Forall P r → Forall P l → Forall P (zip_with fl_add r l).
Proof.
  intros Hr. revert l. induction Hr as [|x r Hx _ IH]; intros l Hl; simpl; [done|].
  destruct Hl as [|y l Hy Hl]; [done|]. constructor; auto.
Qed.

Lemma pw_rows_closed k r l :
  Forall P r → Forall P l →
  Forall P (pw_rows k r l).1 ∧ Forall P (pw_rows k r l).2.
Proof.
  revert r l. induction k as [|k IH]; intros r l Hr Hl; simpl; [done|].
  apply IH; [|by apply Forall_drop]. apply zip_with_closed; [done|by apply Forall_take].
Qed.

Lemma pw_combine_closed r : Forall P r → P (pw_combine r).
Proof.
  intros Hr. unfold pw_combine.
  repeat (destruct Hr as [|? r ? Hr]; [exact P_nan|]).
  destruct Hr; [|exact P_nan]. auto 10.
Qed.

Lemma pw_block_closed l : Forall P l → P (pw_block l).
Proof.
  intros Hl. unfold pw_block.
  destruct (pw_rows_closed (length l / 8 - 1) (take 8 l) (drop 8 l)) as [H1 H2];
    [by apply Forall_take|by apply Forall_drop|].
  destruct (pw_rows _ _ _) as [r rest]. simpl in *.
  apply fold_left_closed; [|done]. by apply pw_combine_closed.
Qed.

Lemma pairwise_sum_closed d l : Forall P l → l ≠ [] → P (pairwise_sum d l).
Proof.
  revert l. induction d as [|d IH]; intros l Hl Hne; cbn [pairwise_sum].
  - destruct (decide _) as [Hn|Hn].
    + destruct Hl as [|x l Hx Hl]; [done|]. simpl. apply fold_left_closed; [by apply P_first|done].
    + destruct (decide _); [by apply pw_block_closed|exact P_nan].
  - destruct (decide _) as [Hn|Hn].
    + destruct Hl as [|x l Hx Hl]; [done|]. simpl. apply fold_left_closed; [by apply P_first|done].
    + destruct (decide _) as [Hb|Hb]; [by apply pw_block_closed|].
      pose proof (Nat.div_mod_eq (length l) 2) as H2.
      pose proof (Nat.mod_upper_bound (length l) 2 ltac:(lia)) as H2'.
      pose proof (Nat.mod_upper_bound (length l / 2) 8 ltac:(lia)) as H8.
      apply P_add; apply IH.
      * by apply Forall_take.
      * intros Hnil. apply (f_equal length) in Hnil.
        rewrite length_take in Hnil. change (length []) with 0%nat in Hnil. lia.
      * by apply Forall_drop.
      * intros Hnil. apply (f_equal length) in Hnil.
        rewrite length_drop in Hnil. change (length []) with 0%nat in Hnil. lia.
Qed.
End sums_closed.

Lemma fl_sum_nonneg l : Forall fl_nonneg l → fl_nonneg (fl_sum l).
Proof.
  intros Hl. unfold fl_sum.
  apply (fold_left_closed fl_nonneg); [apply fl_add_nonneg|done|done].
Qed.

Lemma np_sum_nonneg l : Forall fl_nonneg l → fl_nonneg (np_sum l).
Proof.
  intros Hl. unfold np_sum. apply fl_add_nonneg; [done|].
  destruct l as [|x l]; [done|].
  apply pairwise_sum_closed; [apply fl_add_nonneg| |done|done|done].
  intros y Hy. by apply fl_add_nonneg.
Qed.

Lemma fl_mean_nonneg l : Forall fl_nonneg l → fl_nonneg (fl_mean l).
Proof.
  intros Hl. unfold fl_mean.
  destruct (fl_of_Z_nonneg (Z.of_nat (length l))) as [H1 H2]; [lia|].
  apply fl_div_nonneg; [by apply np_sum_nonneg|done|done].
Qed.

Lemma fl_sum_nan l :
  l ≠ [] → Forall (λ x, x = S754_nan) l → fl_sum l = S754_nan.
Proof.
  intros Hne Hl. destruct Hl as [|x l -> Hl]; [done|]. unfold fl_sum. simpl.
  apply (fold_left_closed (λ x, x = S754_nan)); [|done|done].
  intros x y -> ->. done.
Qed.

Lemma fl_mean_nan l : Forall (λ x, x = S754_nan) l → fl_mean l = S754_nan.
Proof.
  intros Hl. destruct l as [|x l]; [done|]. unfold fl_mean, np_sum.
  rewrite (pairwise_sum_closed (λ x, x = S754_nan)); try done.
  - intros ? ? -> ->. done.
  - intros ? ->. done.
Qed.

(** The sums of the code are the sums of the specification. *)
Lemma fold_left_total_from l a : fold_left fl_add l a = fl_total_from a l.
Proof.
  unfold fl_total_from. induction l as [|x l IH] using rev_ind; [done|].
  by rewrite fold_left_app, rev_unit, IH.
Qed.

Lemma fl_sum_total l : fl_sum l = fl_total l.
Proof. apply fold_left_total_from. Qed.

Lemma take_drop_nth {A} (d : A) k a (l : list A) :
  (a + k ≤ length l)%nat →
  take k (drop a l) = (λ j, nth (j + a) l d) <$> seq 0 k.
Proof.
  revert a. induction k as [|k IH]; intros a Hl; [done|].
  destruct (lookup_lt_is_Some_2 l a ltac:(lia)) as [x Hx].
  rewrite (drop_S _ _ _ Hx). simpl. f_equal.
  - symmetry. by apply nth_lookup_Some.
  - rewrite IH by lia. rewrite <- fmap_S_seq, <- list_fmap_compose.
    apply list_fmap_ext. intros _ j _. simpl. f_equal. lia.
Qed.

Lemma zip_with_fmap_seq {A B C D} (f : B → C → D) (g : A → B) (h : A → C) l :
  zip_with f (g <$> l) (h <$> l) = (λ x, f (g x) (h x)) <$> l.
Proof. induction l as [|x l IH]; [done|]. rewrite !fmap_cons. simpl. by f_equal. Qed.

Lemma pw_rows_lanes l k m :
  (8 * (m + 1 + k) ≤ length l)%nat →
  pw_rows k (fl_lanes l m) (drop (8 * (m + 1)) l)
  = (fl_lanes l (m + k), drop (8 * (m + 1 + k)) l).
Proof.
  revert m. induction k as [|k IH]; intros m Hl.
  - simpl. by rewrite !Nat.add_0_r.
  - cbn [pw_rows].
    rewrite (take_drop_nth S754_nan). 2:{ lia. } rewrite drop_drop.
    unfold fl_lanes at 1. rewrite zip_with_fmap_seq.
    replace (8 * (m + 1) + 8)%nat with (8 * (S m + 1))%nat by lia.
    replace (m + S k)%nat with (S m + k)%nat by lia.
    replace (8 * (m + 1 + S k))%nat with (8 * (S m + 1 + k))%nat by lia.
    rewrite <- IH by lia. f_equal. unfold fl_lanes.
    apply list_fmap_ext. intros _ j _. cbn [fl_lane]. do 2 f_equal. lia.
Qed.

Lemma pw_block_block l : (8 ≤ length l)%nat → pw_block l = fl_block l.
Proof.
  intros Hl. unfold pw_block, fl_block.
  pose proof (Nat.div_mod_eq (length l) 8) as H8.
  pose proof (Nat.mod_upper_bound (length l) 8 ltac:(lia)) as H8'.
  assert (Hstart : take 8 l = fl_lanes l 0).
  { change (take 8 l) with (take 8 (drop 0 l)).
    rewrite (take_drop_nth S754_nan) by (simpl; lia).
    apply list_fmap_ext. intros _ j _. cbn [fl_lane]. f_equal. lia. }
  rewrite Hstart. change (drop 8 l) with (drop (8 * (0 + 1)) l).
  rewrite pw_rows_lanes by lia.
  replace (0 + 1 + (length l / 8 - 1))%nat with (length l / 8)%nat by lia.
  rewrite fold_left_total_from. reflexivity.
Qed.

Lemma pairwise_sum_pairwise d l : pairwise_sum d l = fl_pairwise d l.
Proof.
  revert l. induction d as [|d IH]; intros l; cbn [pairwise_sum fl_pairwise].
  - destruct (decide _) as [Hn|Hn], (Nat.ltb_spec (length l) 8); try lia.
    + apply fold_left_total_from.
    + destruct (decide _) as [Hb|Hb], (Nat.leb_spec (length l) 128); try lia; [|done].
      by apply pw_block_block.
  - destruct (decide _) as [Hn|Hn], (Nat.ltb_spec (length l) 8); try lia.
    + apply fold_left_total_from.
    + destruct (decide _) as [Hb|Hb], (Nat.leb_spec (length l) 128); try lia.
      * by apply pw_block_block.
      * by rewrite !IH.
Qed.

Lemma fl_mean_average l : fl_mean l = fl_average l.
Proof. unfold fl_mean, fl_average, np_sum. by rewrite pairwise_sum_pairwise. Qed.

(** The length of the list bounds the depth of the recursion: a larger
    bound gives the same sum. *)
Lemma pairwise_sum_depth d1 d2 l :
  (length l ≤ d1)%nat → (length l ≤ d2)%nat →
  pairwise_sum d1 l = pairwise_sum d2 l.
Proof.
  revert d2 l. induction d1 as [|d1 IH]; intros d2 l H1 H2.
  - destruct l; [|simpl in H1; lia]. by destruct d2.
  - destruct d2 as [|d2]; [destruct l; [done|simpl in H2; lia]|].
    cbn [pairwise_sum].
    destruct (decide _) as [Hn|Hn]; [done|].
    destruct (decide _) as [Hb|Hb]; [done|].
    pose proof (Nat.div_mod_eq (length l) 2) as Hh.
    pose proof (Nat.mod_upper_bound (length l) 2 ltac:(lia)) as Hh'.
    pose proof (Nat.mod_upper_bound (length l / 2) 8 ltac:(lia)) as H8.
    f_equal; apply IH; rewrite ?length_take, ?length_drop; lia.
Qed.

(** ** The integer part of a double *)

Lemma Qtrunc_inject_Z x : Qtrunc (inject_Z x) = x.
Proof. unfold Qtrunc. simpl. apply Z.quot_1_r. Qed.

Lemma cond_Zopp_mul s x y : cond_Zopp s (x * y) = cond_Zopp s x * y.
Proof. destruct s; simpl; lia. Qed.

Lemma fl_int_Ok f z :
  fl_int f = Ok z → fl_finite f ∧ z = Qtrunc (fl_value f).
Proof.
  destruct f as [s|s| |s m e]; try done.
  - by intros [= <-].
  - intros [= <-]. split; [done|]. destruct e as [|k|k]; cbn [fl_value].
    + rewrite Qtrunc_inject_Z, Z.shiftl_0_r, Z.pow_0_r. by rewrite Z.mul_1_r.
    + rewrite Qtrunc_inject_Z, Z.shiftl_mul_pow2 by lia. apply cond_Zopp_mul.
    + unfold Qtrunc. cbn [Qnum Qden].
      change (Z.shiftl (Z.pos m) (Z.neg k)) with (Z.shiftr (Z.pos m) (Z.pos k)).
      rewrite Z.shiftr_div_pow2 by lia. rewrite Pos2Z.inj_pow.
      assert (0 < Z.pos 2 ^ Z.pos k) by (apply Z.pow_pos_nonneg; lia).
      destruct s; cbn [cond_Zopp].
      * rewrite Z.quot_opp_l by lia. rewrite Z.quot_div_nonneg by lia. done.
      * rewrite Z.quot_div_nonneg by lia. done.
Qed.

Lemma fl_int_nonneg f z :
  fl_int f = Ok z → fl_nonneg f →
  fl_finite f ∧ z = Qfloor (fl_value f) ∧ 0 ≤ z.
Proof.
  intros Hz Hf. apply fl_int_Ok in Hz as [Hfin ->].
  pose proof (fl_value_nonneg f Hf) as Hv.
  split; [done|]. split; [by apply Qtrunc_floor|by apply Qtrunc_nonneg].
Qed.

Lemma fl_int_mul_zero x z :
  fl_int (fl_mul x (S754_zero false)) = Ok z → z = 0.
Proof. destruct x as [[]|[]| |[] m e]; simpl; by intros [= <-]. Qed.

Lemma fl_int_mul_zero_cases x :
  fl_int (fl_mul x (S754_zero false)) = Ok 0 ∨
  fl_int (fl_mul x (S754_zero false)) = Raise ValueError.
Proof. destruct x as [[]|[]| |[] m e]; simpl; auto. Qed.

Lemma py_float_Ok z f : py_float z = Ok f → f = fl_of_Z z.
Proof. unfold py_float. destruct (fl_of_Z z); by intros [= <-]. Qed.

(** ** The sum of the values of a dictionary *)

Lemma sum_values_keys `{Countable K} (d : gmap K Z) (l : list K) :
  NoDup l → (∀ k, k ∈ l ↔ is_Some (d !! k)) →
  sum_values d = foldr Z.add 0 ((λ k, default 0 (d !! k)) <$> l).
Proof.
  unfold sum_values. revert l.
  apply (map_fold_weak_ind (λ r (d : gmap K Z), ∀ l, NoDup l →
    (∀ k, k ∈ l ↔ is_Some (d !! k)) →
    r = foldr Z.add 0 ((λ k, default 0 (d !! k)) <$> l))).
  - intros l _ Hl. destruct l as [|k l]; [done|].
    destruct (proj1 (Hl k)) as [v Hv]; [left|]. by rewrite lookup_empty in Hv.
  - intros k v d' r Hk IH l Hnd Hl.
    assert (Hin : k ∈ l) by (apply Hl; rewrite lookup_insert_eq; by eexists).
    apply list_elem_of_split in Hin as (l1 & l2 & ->).
    apply NoDup_app in Hnd as (Hnd1 & Hnot & Hnd2).
    apply NoDup_cons in Hnd2 as [Hk2 Hnd2].
    assert (Hk1 : k ∉ l1) by (intros Hin; apply (Hnot k Hin); left).
    rewrite (IH (l1 ++ l2)).
    + rewrite !fmap_app, fmap_cons, !foldr_app. simpl.
      rewrite lookup_insert_eq. simpl.
      assert (Hext : ∀ l' : list K, k ∉ l' →
        (λ k0, default 0 (<[k:=v]> d' !! k0)) <$> l' = (λ k0, default 0 (d' !! k0)) <$> l').
      { intros l' Hl'. apply list_fmap_ext. intros _ k0 Hk0%list_elem_of_lookup_2.
        simpl. rewrite lookup_insert_ne; [done|]. by intros ->. }
      rewrite (Hext l1 Hk1), (Hext l2 Hk2).
      generalize ((λ k0, default 0 (d' !! k0)) <$> l2). intros vs2.
      generalize ((λ k0, default 0 (d' !! k0)) <$> l1). intros vs1.
      induction vs1 as [|x vs1 IHv]; simpl; lia.
    + apply NoDup_app. split; [done|]. split; [|done].
      intros x Hx1 Hx2. apply (Hnot x Hx1). by right.
    + intros k0. rewrite elem_of_app. split.
      * intros Hk0. assert (k0 ≠ k) by (intros ->; tauto).
        destruct (proj1 (Hl k0)) as [v0 Hv0].
        { rewrite elem_of_app, elem_of_cons. tauto. }
        rewrite lookup_insert_ne in Hv0 by done. by eexists.
      * intros [v0 Hv0]. assert (k0 ≠ k) by (intros ->; congruence).
        assert (Hin : k0 ∈ l1 ++ k :: l2).
        { apply Hl. rewrite lookup_insert_ne by done. by eexists. }
        rewrite elem_of_app, elem_of_cons in Hin. tauto.
Qed.

(** ** What [compute_data] leaves in the instance *)

Lemma compute_data_derived c j i : compute_data c j = Ok i → derived c j i.
Proof.
  unfold compute_data. intros Hc.
  inv_bind Hc. destruct v as [[[rm gm] ocm] mdl].
  inv_bind Hc. inv_bind Hc. destruct v0 as [ur ug].
  inv_bind Hc. inv_bind Hc. destruct v1 as [mns mn].
  injection Hc as <-. by constructor.
Qed.

Lemma get_shifts_Ok n ps sh :
  get_shifts n ps = Ok sh → n = 8 ∧ ps = seqZ 0 8 ∧ sh = [seqZ 0 4; seqZ 4 4].
Proof.
  unfold get_shifts. destruct (decide (n = 8)) as [->|]; simpl; [|done].
  destruct (decide (_ = ps)) as [<-|]; [|done]. by intros [= <-].
Qed.

Lemma get_shifts_8 : get_shifts 8 (range 8) = Ok [seqZ 0 4; seqZ 4 4].
Proof. reflexivity. Qed.

Lemma get_shifts_other n ps : n ≠ 8 → get_shifts n ps = Raise NotImplementedError.
Proof. intros Hn. unfold get_shifts. by rewrite decide_False. Qed.

Lemma make_reg_areas_from l (d : gmap string (list string)) k v :
  fold_left (λ d r, <[r_id r := r_areas r]> d) l d !! k = Some v →
  d !! k = Some v ∨ ∃ r, r ∈ l ∧ r_id r = k ∧ r_areas r = v.
Proof.
  revert d. induction l as [|r l IH]; intros d Hk; simpl in Hk; [by left|].
  destruct (IH _ Hk) as [Hd|(r' & Hr' & Hid & Hv)].
  - destruct (decide (r_id r = k)) as [<-|Hne].
    + rewrite lookup_insert_eq in Hd. injection Hd as <-.
      right. exists r. split; [left|done].
    + rewrite lookup_insert_ne in Hd by done. by left.
  - right. exists r'. split; [by right|done].
Qed.

Lemma make_reg_areas_keep l (d : gmap string (list string)) k :
  is_Some (d !! k) →
  is_Some (fold_left (λ d r, <[r_id r := r_areas r]> d) l d !! k).
Proof.
  revert d. induction l as [|r l IH]; intros d Hk; simpl; [done|].
  apply IH. destruct (decide (r_id r = k)) as [<-|Hne].
  - rewrite lookup_insert_eq. by eexists.
  - by rewrite lookup_insert_ne.
Qed.

Lemma make_reg_areas_mem l (d : gmap string (list string)) r :
  r ∈ l → is_Some (fold_left (λ d r, <[r_id r := r_areas r]> d) l d !! r_id r).
Proof.
  revert d. induction l as [|r' l IH]; intros d; [by intros ?%elem_of_nil|].
  intros [->|Hr]%elem_of_cons; simpl.
  - apply make_reg_areas_keep. rewrite lookup_insert_eq. by eexists.
  - by apply IH.
Qed.

Lemma get_ubs_Ok_inv srq scs ps ars rgs ras rm gm ur ug :
  get_ubs srq scs ps ars rgs ras rm gm = Ok (ur, ug) →
  ∃ mhat1 mhat2,
    dict_comp (mhat1_entry srq scs) (a ← ars; theta ← ps; [(a, theta)]) = Ok mhat1 ∧
    dict_comp (mhat2_entry ps mhat1) ars = Ok mhat2 ∧
    dict_comp (ub_reg_entry ras rm mhat2) rgs = Ok ur ∧
    fl_int (fl_mul (fl_of_Q gm) (fl_of_Z (sum_values ur))) = Ok ug.
Proof.
  unfold get_ubs. intros Hg. inv_bind Hg. inv_bind Hg. inv_bind Hg.
  inv_bind Hg. inv_bind Hg. injection Hg as <- <-.
  apply py_float_Ok in E2 as ->. eauto 10.
Qed.

Lemma elem_of_pairs {A B} (l : list A) (k : list B) a b :
  (a, b) ∈ (a' ← l; b' ← k; [(a', b')]) ↔ a ∈ l ∧ b ∈ k.
Proof.
  rewrite list_elem_of_bind. split.
  - intros (a' & Hb & Ha'). rewrite list_elem_of_bind in Hb.
    destruct Hb as (b' & Hb & Hb'). apply list_elem_of_singleton in Hb.
    by injection Hb as -> ->.
  - intros [Ha Hb]. exists a. split; [|done]. rewrite list_elem_of_bind.
    exists b. split; [|done]. by apply list_elem_of_singleton.
Qed.

Lemma elem_of_triples {A B C} (l : list A) (k : list B) (n : list C) a b c :
  (a, b, c) ∈ (a' ← l; b' ← k; c' ← n; [(a', b', c')]) ↔ a ∈ l ∧ b ∈ k ∧ c ∈ n.
Proof.
  rewrite list_elem_of_bind. split.
  - intros (a' & Hb & Ha'). rewrite list_elem_of_bind in Hb.
    destruct Hb as (b' & Hc & Hb'). rewrite list_elem_of_bind in Hc.
    destruct Hc as (c' & Hc & Hc'). apply list_elem_of_singleton in Hc.
    by injection Hc as -> -> ->.
  - intros (Ha & Hb & Hc). exists a. split; [|done]. rewrite list_elem_of_bind.
    exists b. split; [|done]. rewrite list_elem_of_bind.
    exists c. split; [|done]. by apply list_elem_of_singleton.
Qed.

Lemma compute_data_wf c j i : compute_data c j = Ok i → wf_instance i.
Proof.
  intros Hc. destruct (compute_data_derived _ _ _ Hc).
  destruct (get_shifts_Ok _ _ _ d_shifts0) as (Hn & Hps & Hsh).
  assert (Hra : ∀ region, region ∈ regions i →
    ∃ ras, reg_areas i !! region = Some ras ∧ ∀ a, a ∈ ras → a ∈ areas i).
  { intros region Hr. rewrite d_regions0 in Hr.
    apply list_elem_of_fmap in Hr as (r & -> & Hr).
    destruct (make_reg_areas_mem _ ∅ _ Hr) as [ras Hras].
    exists ras. split; [by rewrite d_reg_areas0|].
    apply make_reg_areas_from in Hras as [Hemp|(r' & Hr' & _ & <-)].
    - by rewrite lookup_empty in Hemp.
    - intros a Ha. rewrite d_areas0. apply list_elem_of_bind. eauto. }
  constructor; try done.
  - intros a Ha.
    destruct (dict_comp_lookup _ _ _ _ d_area_regs0 Ha) as (region & Hf & Hl).
    inv_bind Hf. destruct v as [|r0 rs]; simpl in Hf; [done|].
    injection Hf as ->.
    assert (Hin : region ∈ region :: rs) by left.
    apply (filterM_Ok_elem _ _ _ _ E) in Hin as [Hreg Hp].
    inv_bind Hp. injection Hp as Hp. apply bool_decide_eq_true in Hp.
    apply subscript_Ok in E0. eauto 10.
  - intros region Hr.
    destruct (get_ubs_Ok_inv _ _ _ _ _ _ _ _ _ _ d_ubs0) as (m1 & m2 & _ & _ & Hur & _).
    destruct (dict_comp_lookup _ _ _ _ Hur Hr) as (v & _ & Hv). by eexists.
  - intros s a theta Hs Ha Ht.
    destruct (get_ubs_Ok_inv _ _ _ _ _ _ _ _ _ _ d_ubs0) as (m1 & m2 & Hm1 & _).
    assert (Hk : (a, theta) ∈ (a' ← areas i; t' ← periods i; [(a', t')]))
      by by apply elem_of_pairs.
    destruct (dict_comp_lookup _ _ _ _ Hm1 Hk) as (v & Hv & _).
    unfold mhat1_entry in Hv. inv_bind Hv.
    destruct (mapM_Ok_elem _ _ _ _ E Hs) as (q & Hq & _).
    apply subscript_Ok in Hq. by eexists.
Qed.

(** ** The model builder *)

Lemma td_get_Ok {K} `{EqDecision K} (mk : K → var) td k e :
  td_get mk td k = Ok e ↔ k ∈ td ∧ e = V (mk k).
Proof.
  unfold td_get. destruct (decide (k ∈ td)); split.
  - by intros [= <-].
  - by intros [_ ->].
  - done.
  - by intros [? _].
Qed.

Lemma td_get_elem {K} `{EqDecision K} (mk : K → var) td k :
  k ∈ td → td_get mk td k = Ok (V (mk k)).
Proof. intros Hk. by apply td_get_Ok. Qed.

Lemma addConstrs_Ok name gen md md' :
  addConstrs name gen md = Ok md' ↔
  ∃ cs, gen = Ok cs ∧
        md' = {| m_vars := m_vars md;
                 m_constrs := m_constrs md ++ (Build_Constr name <$> cs) |}.
Proof.
  unfold addConstrs. rewrite bind_Ok. split.
  - intros (cs & Hg & [= <-]). eauto.
  - intros (cs & Hg & ->). eauto.
Qed.

Lemma demand_complete_lookup i s a theta :
  demand_complete i → s ∈ scenarios i → a ∈ areas i → theta ∈ periods i →
  is_Some (sdemand i !! (s, a, theta)).
Proof.
  unfold demand_complete. rewrite Forall_forall. intros Hd Hs Ha Ht.
  apply (Hd (a, theta, s)). by apply elem_of_triples.
Qed.

Lemma build_base_model_Ok i self :
  build_base_model i = Ok self →
  ∃ obj cs1 cs2 cs3,
    py_div 1 (inject_Z (n_scenarios i)) = Ok obj ∧
    reg_bound i (x_keys i) = Ok cs1 ∧
    global_bound i (x_keys i) = Ok cs2 ∧
    set_omega i (x_keys i) (omega_keys i) = Ok cs3 ∧
    self = {| m := {| m_vars := (mkVar INTEGER 0 1 ∘ vx <$> x_keys i) ++
                                (mkVar CONTINUOUS 0 obj ∘ vomega <$> omega_keys i);
                      m_constrs := ((Build_Constr "reg_bound" <$> cs1) ++
                                    (Build_Constr "global_bound" <$> cs2)) ++
                                   (Build_Constr "set_omega" <$> cs3) |};
              x := x_keys i; omega := omega_keys i;
              y := None; zplus := None; zminus := None; w := None |}.
Proof.
  unfold build_base_model. intros Hb.
  inv_bind Hb. exists v.
  inv_bind Hb. apply addConstrs_Ok in E0 as (cs1 & H1 & ->).
  inv_bind Hb. apply addConstrs_Ok in E0 as (cs2 & H2 & ->).
  inv_bind Hb. apply addConstrs_Ok in E0 as (cs3 & H3 & ->).
  injection Hb as <-. exists cs1, cs2, cs3. by repeat split.
Qed.

Lemma reg_bound_is_Ok i :
  wf_instance i → is_Ok (reg_bound i (x_keys i)).
Proof.
  intros Hwf. apply mapM_is_Ok. intros [region theta] [Hr Ht]%elem_of_pairs.
  destruct (wf_reg_areas i Hwf region Hr) as (ras & Hras & Hsub).
  destruct (wf_ub_reg i Hwf region Hr) as [ub Hub].
  unfold subscript. rewrite Hras, Hub. simpl.
  rewrite (mapM_Ok_fmap _ (λ a, V (vx (a, theta)))). { simpl. by eexists. }
  intros a Ha. apply td_get_elem, elem_of_pairs. auto.
Qed.

Lemma global_bound_is_Ok i : is_Ok (global_bound i (x_keys i)).
Proof. apply mapM_is_Ok. intros theta _. by eexists. Qed.

Lemma set_omega_is_Ok i :
  wf_instance i → demand_complete i → is_Ok (set_omega i (x_keys i) (omega_keys i)).
Proof.
  intros Hwf Hd. apply mapM_is_Ok.
  intros [[a theta] s] (Ha & Ht & Hs)%elem_of_triples.
  destruct (wf_srequired i Hwf s a theta Hs Ha Ht) as [r Hr].
  destruct (demand_complete_lookup i s a theta Hd Hs Ha Ht) as [d Hdm].
  unfold subscript. rewrite Hr, Hdm. simpl.
  rewrite (td_get_elem vomega) by by apply elem_of_triples. simpl.
  rewrite (td_get_elem vx) by by apply elem_of_pairs. simpl. by eexists.
Qed.

Lemma py_div_is_Ok a b : ¬ (b == 0)%Q → is_Ok (py_div a b).
Proof.
  intros Hb. unfold py_div. destruct (Qeq_bool b 0) eqn:Hq.
  - by apply Qeq_bool_eq in Hq.
  - by eexists.
Qed.

Lemma inject_Z_nonzero z : z ≠ 0 → ¬ (inject_Z z == 0)%Q.
Proof. unfold Qeq. simpl. lia. Qed.

Lemma build_base_model_is_Ok i :
  wf_instance i → demand_complete i → n_scenarios i ≠ 0 →
  is_Ok (build_base_model i).
Proof.
  intros Hwf Hd Hn. unfold build_base_model.
  destruct (py_div_is_Ok 1 (inject_Z (n_scenarios i))) as [obj ->];
    [by apply inject_Z_nonzero|]. simpl.
  destruct (reg_bound_is_Ok i Hwf) as [cs1 H1].
  destruct (global_bound_is_Ok i) as [cs2 H2].
  destruct (set_omega_is_Ok i Hwf Hd) as [cs3 H3].
  unfold x_keys, omega_keys in *. unfold addConstrs.
  rewrite H1. simpl. rewrite H2. simpl. rewrite H3. simpl. by eexists.
Qed.

Lemma set_omega_elem i cs a theta s :
  set_omega i (x_keys i) (omega_keys i) = Ok cs →
  a ∈ areas i → theta ∈ periods i → s ∈ scenarios i →
  ∃ r d, srequired i !! (s, a, theta) = Some r ∧
         sdemand i !! (s, a, theta) = Some d ∧
         ge_ (CMul r (V (var_omega a theta s)))
             (Mul (Mul (Sub (Num r) (V (var_x a theta))) d) (outsourcing_cost i)) ∈ cs.
Proof.
  intros Hcs Ha Ht Hs.
  assert (Hk : (a, theta, s) ∈ omega_keys i) by by apply elem_of_triples.
  destruct (mapM_Ok_elem _ _ _ _ Hcs Hk) as (c & Hc & Hin). simpl in Hc.
  inv_bind Hc. inv_bind Hc. inv_bind Hc. inv_bind Hc. inv_bind Hc.
  injection Hc as <-.
  apply subscript_Ok in E, E1, E3. apply td_get_Ok in E0 as [_ ->].
  apply td_get_Ok in E2 as [_ ->].
  assert (v1 = v) as -> by congruence.
  exists v, v3. by repeat split.
Qed.

Lemma py_div_Ok a b q : py_div a b = Ok q → q = (a / b)%Q ∧ ¬ (b == 0)%Q.
Proof.
  unfold py_div. destruct (Qeq_bool b 0) eqn:Hb; [done|].
  intros [= <-]. split; [done|]. by apply Qeq_bool_neq.
Qed.

Lemma solution_var md sol v : solution md sol → v ∈ m_vars md → within sol v.
Proof. intros [Hv _] Hin. by eapply (proj1 (Forall_forall _ _) Hv). Qed.

Lemma solution_constr md sol c :
  solution md sol → c ∈ m_constrs md → holds sol (tc c).
Proof. intros [_ Hc] Hin. by eapply (proj1 (Forall_forall _ _) Hc c). Qed.

(** C1.  For every derived instance whose demand table is complete and that
    has a scenario count other than zero, the base model is built, and it
    declares an integer [x[a,theta]] with lower bound 0 and objective
    coefficient 1 for every area and period, a continuous
    [omega[a,theta,s]] with lower bound 0 and objective coefficient
    [1/n_scenarios] for every area, period and scenario, and the constraint
    [required * omega >= (required - x) * demand * outsourcing_cost] for every
    area, period and scenario, where [outsourcing_cost] is
    [1 * outsourcing_cost_multiplier]; every solution satisfies the
    inequality. *)
Theorem base_model_declares (c : invocation) (j : instance_json) (i : Instance) :
  compute_data c j = Ok i → demand_complete i → n_scenarios i ≠ 0 →
  ∃ self, build_base_model i = Ok self ∧
    (∀ a theta, a ∈ areas i → theta ∈ periods i →
       {| key := var_x a theta; VType := INTEGER; LB := 0; UB := None;
          Obj := 1 |} ∈ m_vars (m self)) ∧
    (∀ a theta s, a ∈ areas i → theta ∈ periods i → s ∈ scenarios i →
       {| key := var_omega a theta s; VType := CONTINUOUS; LB := 0; UB := None;
          Obj := (1 / inject_Z (n_scenarios i))%Q |} ∈ m_vars (m self)) ∧
    (∀ a theta s, a ∈ areas i → theta ∈ periods i → s ∈ scenarios i →
       ∃ r d, srequired i !! (s, a, theta) = Some r ∧
              sdemand i !! (s, a, theta) = Some d ∧
              {| ConstrName := "set_omega";
                 tc := ge_ (CMul r (V (var_omega a theta s)))
                           (Mul (Mul (Sub (Num r) (V (var_x a theta))) d)
                                (outsourcing_cost i)) |} ∈ m_constrs (m self) ∧
              ∀ sol, solution (m self) sol →
                ((r - sol (var_x a theta)) * d * outsourcing_cost i
                   <= r * sol (var_omega a theta s))%Q) ∧
    outsourcing_cost i = (1 * outsourcing_cost_multiplier i)%Q.
Proof.
  intros Hc Hd Hn. pose proof (compute_data_wf _ _ _ Hc) as Hwf.
  destruct (build_base_model_is_Ok i Hwf Hd Hn) as [self Hself].
  exists self. split; [done|].
  destruct (build_base_model_Ok _ _ Hself) as (obj & cs1 & cs2 & cs3 & Hobj & _ & _ & H3 & ->).
  apply py_div_Ok in Hobj as [-> _]. simpl.
  assert (Hom : ∀ a theta s, a ∈ areas i → theta ∈ periods i → s ∈ scenarios i →
    ∃ r d, srequired i !! (s, a, theta) = Some r ∧
           sdemand i !! (s, a, theta) = Some d ∧
           {| ConstrName := "set_omega";
              tc := ge_ (CMul r (V (var_omega a theta s)))
                        (Mul (Mul (Sub (Num r) (V (var_x a theta))) d)
                             (outsourcing_cost i)) |}
           ∈ ((Build_Constr "reg_bound" <$> cs1) ++
              (Build_Constr "global_bound" <$> cs2)) ++
             (Build_Constr "set_omega" <$> cs3)).
  { intros a theta s Ha Ht Hs.
    destruct (set_omega_elem i cs3 a theta s H3 Ha Ht Hs) as (r & d & Hr & Hdm & Hin).
    exists r, d. repeat split; [done|done|].
    apply elem_of_app. right. by apply (list_elem_of_fmap_2 (Build_Constr "set_omega")). }
  repeat split.
  - intros a theta Ha Ht. apply elem_of_app. left.
    apply (list_elem_of_fmap_2' _ _ (a, theta)); [by apply elem_of_pairs|done].
  - intros a theta s Ha Ht Hs. apply elem_of_app. right.
    apply (list_elem_of_fmap_2' _ _ (a, theta, s)); [by apply elem_of_triples|done].
  - intros a theta s Ha Ht Hs.
    destruct (Hom a theta s Ha Ht Hs) as (r & d & Hr & Hdm & Hin).
    exists r, d. repeat split; [done|done|done|].
    intros sol Hsol. apply (solution_constr _ _ _ Hsol Hin).
  - apply (wf_cost i Hwf).
Qed.


(** ** The derived bounds *)

Lemma Forall2_Ok_fmap {A B} (f : A → result B) (g : A → B) l k :
  Forall2 (λ a b, f a = Ok b) l k → (∀ a b, f a = Ok b → b = g a) → k = g <$> l.
Proof.
  intros HF Hg. induction HF as [|a b l k Hab _ IH]; simpl; [done|].
  by rewrite (Hg _ _ Hab), IH.
Qed.

Section get_ubs_facts.
Variables (srq : gmap (Z * string * Z) Q) (scs ps : list Z)
          (ars : list string) (ras : gmap string (list string)) (rm : Q).
Variables (m1 : gmap (string * Z) double) (m2 : gmap string double).
Hypothesis Hm1 :
  dict_comp (mhat1_entry srq scs) (a ← ars; theta ← ps; [(a, theta)]) = Ok m1.
Hypothesis Hm2 : dict_comp (mhat2_entry ps m1) ars = Ok m2.

Lemma mhat1_lookup a theta v :
  m1 !! (a, theta) = Some v → v = mhat1_double srq scs a theta.
Proof.
  intros Hv. apply (dict_comp_lookup_Some _ _ _ _ _ Hm1) in Hv as [_ Hv].
  unfold mhat1_entry in Hv. inv_bind Hv. injection Hv as <-. simpl in E.
  apply mapM_Ok_Forall2 in E.
  assert (Hvals : v0 = (λ s, required_of srq s a theta) <$> scs).
  { apply (Forall2_Ok_fmap _ _ _ _ E). intros s q Hq.
    apply subscript_Ok in Hq. unfold required_of. by rewrite Hq. }
  rewrite Hvals, <- list_fmap_compose, fl_mean_average. reflexivity.
Qed.

Lemma mhat2_lookup a v :
  m2 !! a = Some v → v = mhat2_double srq scs ps a.
Proof.
  intros Hv. apply (dict_comp_lookup_Some _ _ _ _ _ Hm2) in Hv as [_ Hv].
  unfold mhat2_entry in Hv. inv_bind Hv. injection Hv as <-.
  apply mapM_Ok_Forall2 in E. unfold mhat2_double.
  rewrite <- fl_mean_average. f_equal.
  apply (Forall2_Ok_fmap _ _ _ _ E). intros theta q Hq.
  by apply subscript_Ok, mhat1_lookup in Hq.
Qed.

Lemma ub_reg_entry_Ok region z :
  ub_reg_entry ras rm m2 region = Ok z →
  ∃ l, ras !! region = Some l ∧
       fl_int (fl_mul (fl_of_Q rm) (fl_total (mhat2_double srq scs ps <$> l))) = Ok z.
Proof.
  unfold ub_reg_entry. intros Hz. inv_bind Hz. inv_bind Hz.
  apply subscript_Ok in E. exists v. split; [done|].
  apply mapM_Ok_Forall2 in E0. rewrite <- fl_sum_total, <- Hz. do 3 f_equal.
  symmetry. apply (Forall2_Ok_fmap _ _ _ _ E0). intros a q Hq.
  by apply subscript_Ok, mhat2_lookup in Hq.
Qed.
End get_ubs_facts.

Lemma required_of_nonneg srq s a theta :
  map_Forall (λ _ r, (0 <= r)%Q) srq → (0 <= required_of srq s a theta)%Q.
Proof.
  intros Hf. unfold required_of. destruct (srq !! (s, a, theta)) as [r|] eqn:Hr.
  - simpl. by apply (Hf _ _ Hr).
  - apply Qle_refl.
Qed.

Lemma mhat2_double_nonneg srq scs ps a :
  map_Forall (λ _ r, (0 <= r)%Q) srq → fl_nonneg (mhat2_double srq scs ps a).
Proof.
  intros Hf. unfold mhat2_double. rewrite <- fl_mean_average.
  apply fl_mean_nonneg, Forall_fmap, Forall_forall. intros theta _.
  unfold mhat1_double. simpl. rewrite <- fl_mean_average.
  apply fl_mean_nonneg, Forall_fmap, Forall_forall. intros s _.
  by apply fl_of_Q_nonneg, required_of_nonneg.
Qed.

Lemma reg_product_nonneg i ras :
  valid_instance i → fl_nonneg (reg_product i ras).
Proof.
  intros (Hrm & _ & Hreq). unfold reg_product.
  apply fl_mul_nonneg; [by apply fl_of_Q_nonneg|].
  rewrite <- fl_sum_total. apply fl_sum_nonneg, Forall_fmap, Forall_forall.
  intros a _. by apply mhat2_double_nonneg.
Qed.

(** What the derivation leaves as bounds, without any assumption on the
    signs: the keys of [ub_reg] are the regions, every regional bound is
    the integer part of its product, and the global bound is the integer
    part of the global product. *)
Lemma bounds_integer_parts c j i :
  compute_data c j = Ok i →
  (∀ region z, ub_reg i !! region = Some z →
     region ∈ regions i ∧
     ∃ ras, reg_areas i !! region = Some ras ∧
            fl_int (reg_product i ras) = Ok z) ∧
  (∀ region, region ∈ regions i → is_Some (ub_reg i !! region)) ∧
  fl_int (glb_product i) = Ok (ub_global i).
Proof.
  intros Hc. pose proof (d_ubs _ _ _ (compute_data_derived _ _ _ Hc)) as Hubs.
  destruct (get_ubs_Ok_inv _ _ _ _ _ _ _ _ _ _ Hubs)
    as (m1 & m2 & Hm1 & Hm2 & Hur & Hug).
  assert (Hkeys : ∀ region, region ∈ regions i → is_Some (ub_reg i !! region)).
  { intros region Hr.
    destruct (dict_comp_lookup _ _ _ _ Hur Hr) as (z & _ & Hz). by eexists. }
  split; [|split; [done|]].
  - intros region z Hz.
    apply (dict_comp_lookup_Some _ _ _ _ _ Hur) in Hz as [Hin Hz].
    split; [done|].
    by apply (ub_reg_entry_Ok _ _ _ _ _ _ _ _ Hm1 Hm2) in Hz.
  - unfold glb_product, regions_sum.
    rewrite <- (sum_values_keys (ub_reg i)); [done|apply NoDup_remove_dups|].
    intros region. rewrite elem_of_remove_dups. split; [apply Hkeys|].
    intros [z Hz]. by apply (dict_comp_lookup_Some _ _ _ _ _ Hur) in Hz as [Hin _].
Qed.

Lemma regions_sum_nonneg i :
  (∀ region z, ub_reg i !! region = Some z → 0 ≤ z) → 0 ≤ regions_sum i.
Proof.
  intros Hpos. unfold regions_sum.
  induction (remove_dups (regions i)) as [|region l IH]; [done|].
  rewrite fmap_cons. cbn [foldr].
  assert (0 ≤ default 0 (ub_reg i !! region)); [|lia].
  destruct (ub_reg i !! region) as [z|] eqn:Hz; [exact (Hpos _ _ Hz)|done].
Qed.

(** [int(.)] rounds toward zero: below zero it is not the floor. *)
Remark int_truncates : Qtrunc (-3 # 2) = -1 ∧ Qfloor (-3 # 2) = -2.
Proof. split; reflexivity. Qed.

(** Numpy's sum of ten times 0.1 is 1.0; the built-in sum of the same
    values is the double below it. *)
Remark sums_differ :
  np_sum (replicate 10 (fl_of_Q (1 # 10))) = fl_of_Z 1 ∧
  fl_sum (replicate 10 (fl_of_Q (1 # 10))) = S754_finite false 9007199254740991 (-53).
Proof. split; vm_compute; reflexivity. Qed.

(** C2, amended.  The bounds are computed in double precision.  For every
    valid instance the derivation leaves, for each region, the product of
    the regional multiplier and the sum, over the region's areas from left
    to right, of [mhat2] is a finite double, and [ub_reg[region]] is the
    floor of that double; [mhat2] is numpy's mean over the periods of
    numpy's mean over the scenarios of [required], every sum, quotient and
    product rounded to the nearest double.  The keys of [ub_reg] are the
    regions.  The product of the global multiplier and the sum of
    [ub_reg] over the distinct regions, a sum of integers converted to a
    double, is a finite double, and [ub_global] is its floor, an integer
    that is at least 0. *)
Theorem derived_bounds (c : invocation) (j : instance_json) (i : Instance) :
  compute_data c j = Ok i → valid_instance i →
  (∀ region, region ∈ regions i →
     ∃ ras, reg_areas i !! region = Some ras ∧
            fl_finite (reg_product i ras) ∧
            ub_reg i !! region = Some (Qfloor (fl_value (reg_product i ras)))) ∧
  (∀ region, is_Some (ub_reg i !! region) → region ∈ regions i) ∧
  fl_finite (glb_product i) ∧
  ub_global i = Qfloor (fl_value (glb_product i)) ∧
  0 ≤ ub_global i.
Proof.
  intros Hc Hvalid.
  destruct (bounds_integer_parts _ _ _ Hc) as (Hval & Hkeys & Hug).
  assert (Hreg : ∀ region z, ub_reg i !! region = Some z →
    ∃ ras, reg_areas i !! region = Some ras ∧ fl_finite (reg_product i ras) ∧
           z = Qfloor (fl_value (reg_product i ras)) ∧ 0 ≤ z).
  { intros region z Hz. destruct (Hval _ _ Hz) as (_ & ras & Hras & Hint).
    exists ras. split; [done|].
    by apply fl_int_nonneg; [|apply reg_product_nonneg]. }
  assert (Hg : fl_nonneg (glb_product i)).
  { destruct Hvalid as (_ & Hgm & _). unfold glb_product.
    apply fl_mul_nonneg; [by apply fl_of_Q_nonneg|].
    apply fl_of_Z_nonneg, regions_sum_nonneg. intros region z Hz.
    by destruct (Hreg _ _ Hz) as (ras & _ & _ & _ & Hpos). }
  split; [|split].
  - intros region Hr. destruct (Hkeys _ Hr) as [z Hz].
    destruct (Hreg _ _ Hz) as (ras & Hras & Hfin & -> & _). eauto.
  - intros region [z Hz]. by destruct (Hval _ _ Hz).
  - by apply fl_int_nonneg.
Qed.

(** ** The shift partition *)

(** C5, amended.  The shift partition [[0..3], [4..7]] is derived exactly
    when the period count is 8, and for every other count the derivation of
    the shifts raises [NotImplementedError]; no instance is ever derived
    with another period count (so no model is built on one): the derivation
    ends with an exception, which is [NotImplementedError] whenever the
    steps that run before the shifts (reading the parameters, the
    area-to-region table, the bounds) have returned, and the exception of
    the first of those steps that fails otherwise. *)
Theorem shift_partition_only_for_eight :
  (∀ n, get_shifts n (range n) = Ok [[0; 1; 2; 3]; [4; 5; 6; 7]] ↔ n = 8) ∧
  (∀ n, n ≠ 8 → get_shifts n (range n) = Raise NotImplementedError) ∧
  (∀ c j i, compute_data c j = Ok i →
     num_time_intervals j = 8 ∧ n_periods i = 8 ∧
     shifts i = [[0; 1; 2; 3]; [4; 5; 6; 7]]) ∧
  (∀ c j, num_time_intervals j ≠ 8 → ∃ e, compute_data c j = Raise e) ∧
  (∀ c j p ar ubs,
     num_time_intervals j ≠ 8 →
     read_params c = Ok p →
     make_area_regs (r_id <$> geography_city_regions j)
                    (r ← geography_city_regions j; r_areas r)
                    (make_reg_areas (geography_city_regions j)) = Ok ar →
     get_ubs (fill_required (j_scenarios j)) (range (num_scenarios j))
             (range (num_time_intervals j))
             (r ← geography_city_regions j; r_areas r)
             (r_id <$> geography_city_regions j)
             (make_reg_areas (geography_city_regions j)) p.1.1.1 p.1.1.2 = Ok ubs →
     compute_data c j = Raise NotImplementedError) ∧
  (∀ c j e,
     num_time_intervals j ≠ 8 → compute_data c j = Raise e →
     e = NotImplementedError ∨
     read_params c = Raise e ∨
     make_area_regs (r_id <$> geography_city_regions j)
                    (r ← geography_city_regions j; r_areas r)
                    (make_reg_areas (geography_city_regions j)) = Raise e ∨
     ∃ p, read_params c = Ok p ∧
       get_ubs (fill_required (j_scenarios j)) (range (num_scenarios j))
               (range (num_time_intervals j))
               (r ← geography_city_regions j; r_areas r)
               (r_id <$> geography_city_regions j)
               (make_reg_areas (geography_city_regions j)) p.1.1.1 p.1.1.2 = Raise e).
Proof.
  assert (H3 : ∀ c j i, compute_data c j = Ok i →
     num_time_intervals j = 8 ∧ n_periods i = 8 ∧
     shifts i = [[0; 1; 2; 3]; [4; 5; 6; 7]]).
  { intros c j i Hc. destruct (compute_data_derived _ _ _ Hc).
    destruct (get_shifts_Ok _ _ _ d_shifts0) as (Hn & _ & ->).
    repeat split; [congruence|done]. }
  split; [|split; [|split; [done|split; [|split]]]].
  - intros n. split.
    + intros Hn. by destruct (get_shifts_Ok _ _ _ Hn).
    + intros ->. reflexivity.
  - intros n Hn. by apply get_shifts_other.
  - intros c j Hn. destruct (compute_data c j) as [i|e] eqn:Hc; [|by eexists].
    destruct (H3 _ _ _ Hc) as [Hn' _]. done.
  - intros c j [[[rm gm] ocm] mdl] ar [ur ug] Hn Hp Har Hubs. simpl in Hubs.
    unfold compute_data. rewrite Hp. simpl. rewrite Har. simpl.
    rewrite Hubs. simpl. by rewrite get_shifts_other.
  - intros c j e Hn Hc. unfold compute_data in Hc.
    destruct (read_params c) as [[[[rm gm] ocm] mdl]|e1] eqn:Hp; simpl in Hc;
      [|right; left; congruence].
    destruct (make_area_regs _ _ _) as [ar|e2] eqn:Har; simpl in Hc;
      [|right; right; left; congruence].
    destruct (get_ubs _ _ _ _ _ _ rm gm) as [[ur ug]|e3] eqn:Hubs; simpl in Hc.
    + left. rewrite get_shifts_other in Hc by done. simpl in Hc. congruence.
    + right. right. right. exists (rm, gm, ocm, mdl). split; [done|].
      simpl. rewrite Hubs. congruence.
Qed.

(** ** Evaluating the expressions of a model *)

Lemma eval_fold_left_Add sol es e0 :
  (eval sol (fold_left Add es e0) == eval sol e0 + py_sum (eval sol <$> es))%Q.
Proof.
  revert e0. induction es as [|e es IH]; intros e0.
  - unfold py_sum. simpl. ring.
  - cbn [fold_left]. rewrite IH, fmap_cons, py_sum_cons. cbn [eval]. ring.
Qed.

Lemma eval_lin_sum sol es : (eval sol (lin_sum es) == py_sum (eval sol <$> es))%Q.
Proof. unfold lin_sum. rewrite eval_fold_left_Add. cbn [eval]. ring. Qed.

Lemma eval_x_sum sol (ras : list string) theta :
  (eval sol (lin_sum ((λ a, V (var_x a theta)) <$> ras)) == region_total sol ras theta)%Q.
Proof.
  rewrite eval_lin_sum. unfold region_total.
  rewrite <- list_fmap_compose. reflexivity.
Qed.

(** ** The movement variables *)

Lemma y_idx_is_Ok i : wf_instance i → is_Ok (y_idx i).
Proof.
  intros Hwf. apply filterM_is_Ok.
  intros [[a1 a2] theta] (Ha1 & Ha2 & _)%elem_of_triples.
  destruct (decide (a1 ≠ a2)); [|by eexists].
  destruct (wf_area_regs i Hwf a1 Ha1) as (r1 & ? & H1 & _).
  destruct (wf_area_regs i Hwf a2 Ha2) as (r2 & ? & H2 & _).
  unfold subscript. rewrite H1, H2. simpl. by eexists.
Qed.

Lemma add_y_vars_Ok i self self' :
  add_y_vars i self = Ok self' →
  ∃ yi, y_idx i = Ok yi ∧
        self' = {| m := addVars vy yi INTEGER 0 EPS (m self);
                   x := x self; omega := omega self; y := Some yi;
                   zplus := zplus self; zminus := zminus self; w := w self |}.
Proof. unfold add_y_vars. intros H. inv_bind H. injection H as <-. eauto. Qed.

(** ** The fixed model *)

Lemma wf_shift_elem i shift theta :
  wf_instance i → shift ∈ shifts i → theta ∈ shift → theta ∈ periods i.
Proof.
  intros Hwf. rewrite (wf_shifts i Hwf), (wf_periods i Hwf).
  intros Hs Ht. rewrite elem_of_seqZ.
  apply elem_of_cons in Hs as [->|Hs]; [|apply list_elem_of_singleton in Hs as ->];
    apply elem_of_seqZ in Ht; lia.
Qed.

Lemma wf_shift_tail i shift theta :
  wf_instance i → shift ∈ shifts i → theta ∈ tail shift →
  theta ∈ shift ∧ theta - 1 ∈ periods i ∧
  ∃ t0, head shift = Some t0 ∧ first shift = Ok t0 ∧ t0 ∈ shift.
Proof.
  intros Hwf. rewrite (wf_shifts i Hwf), (wf_periods i Hwf).
  intros Hs Ht. rewrite elem_of_seqZ.
  apply elem_of_cons in Hs as [->|Hs]; [|apply list_elem_of_singleton in Hs as ->].
  - change (tail (seqZ 0 4)) with (seqZ 1 3) in Ht.
    rewrite !elem_of_seqZ. apply elem_of_seqZ in Ht.
    split; [lia|]. split; [lia|]. exists 0. repeat split. apply elem_of_seqZ. lia.
  - change (tail (seqZ 4 4)) with (seqZ 5 3) in Ht.
    rewrite !elem_of_seqZ. apply elem_of_seqZ in Ht.
    split; [lia|]. split; [lia|]. exists 4. repeat split. apply elem_of_seqZ. lia.
Qed.

Lemma mapM_td_get_x i (ras : list string) theta :
  (∀ a, a ∈ ras → a ∈ areas i) → theta ∈ periods i →
  mapM (λ a, td_get vx (x_keys i) (a, theta)) ras
  = Ok ((λ a, V (var_x a theta)) <$> ras).
Proof.
  intros Hsub Ht. apply mapM_Ok_fmap. intros a Ha.
  apply (td_get_elem vx (x_keys i) (a, theta)), elem_of_pairs. auto.
Qed.

Lemma fix_region_fixed_is_Ok i self :
  wf_instance i → x self = x_keys i → is_Ok (fix_region_fixed i self).
Proof.
  intros Hwf Hx. apply mapM_is_Ok.
  intros [[region shift] theta] (region' & Hin & Hr)%list_elem_of_bind.
  apply list_elem_of_bind in Hin as (shift' & Hin & Hs).
  apply list_elem_of_bind in Hin as (theta' & Hin & Ht).
  apply list_elem_of_singleton in Hin. injection Hin as -> -> ->.
  destruct (wf_reg_areas i Hwf _ Hr) as (ras & Hras & Hsub).
  destruct (wf_shift_tail i _ _ Hwf Hs Ht) as (Hts & _ & t0 & _ & Ht0 & Ht0s).
  unfold subscript. rewrite Hras, Hx. simpl.
  rewrite mapM_td_get_x by eauto using wf_shift_elem. simpl.
  rewrite (mapM_Ok_fmap _ (λ a, V (var_x a t0))). { simpl. by eexists. }
  intros a Ha. rewrite Ht0. simpl.
  apply (td_get_elem vx (x_keys i) (a, t0)), elem_of_pairs.
  eauto using wf_shift_elem.
Qed.

Lemma flow_balance_fixed_is_Ok i self :
  wf_instance i → x self = x_keys i → is_Some (y self) →
  is_Ok (flow_balance_fixed i self).
Proof.
  intros Hwf Hx [yd Hy]. unfold flow_balance_fixed.
  apply is_Ok_bind; [|intros; by eexists].
  apply mapM_is_Ok. intros region Hr.
  destruct (wf_reg_areas i Hwf _ Hr) as (ras & Hras & Hsub).
  unfold subscript. rewrite Hras. simpl. apply mapM_is_Ok.
  intros [a1 theta] (a1' & Hin & Ha)%list_elem_of_bind.
  apply list_elem_of_bind in Hin as (shift & Hin & Hs).
  apply list_elem_of_bind in Hin as (theta' & Hin & Ht).
  apply list_elem_of_singleton in Hin. injection Hin as -> ->.
  destruct (wf_shift_tail i _ _ Hwf Hs Ht) as (Hts & Hpred & _).
  rewrite Hx, Hy.
  rewrite !(td_get_elem vx) by (apply elem_of_pairs; eauto using wf_shift_elem).
  simpl. by eexists.
Qed.

Lemma build_fixed_model_Ok i self :
  build_fixed_model i = Ok self →
  ∃ base yi cs1 cs2,
    build_base_model i = Ok base ∧ y_idx i = Ok yi ∧
    x self = x_keys i ∧ y self = Some yi ∧
    fix_region_fixed i self = Ok cs1 ∧
    flow_balance_fixed i self = Ok cs2 ∧
    m_constrs (m self) =
      (m_constrs (m base) ++ (Build_Constr "fix_region_n_couriers_in_shift" <$> cs1))
      ++ (Build_Constr "flow_balance" <$> cs2).
Proof.
  unfold build_fixed_model. intros Hb. inv_bind Hb. rename v into base.
  inv_bind Hb. apply add_y_vars_Ok in E0 as (yi & Hyi & ->).
  inv_bind Hb. apply addConstrs_Ok in E0 as (cs1 & H1 & ->).
  inv_bind Hb. apply addConstrs_Ok in E0 as (cs2 & H2 & ->).
  injection Hb as <-. exists base, yi, cs1, cs2.
  destruct (build_base_model_Ok _ _ E) as (? & ? & ? & ? & _ & _ & _ & _ & ->).
  by repeat split.
Qed.

Lemma build_fixed_model_is_Ok i :
  wf_instance i → demand_complete i → n_scenarios i ≠ 0 →
  is_Ok (build_fixed_model i).
Proof.
  intros Hwf Hd Hn. unfold build_fixed_model.
  destruct (build_base_model_is_Ok i Hwf Hd Hn) as [base Hbase]. rewrite Hbase. simpl.
  destruct (build_base_model_Ok _ _ Hbase) as (? & ? & ? & ? & _ & _ & _ & _ & Hb).
  destruct (y_idx_is_Ok i Hwf) as [yi Hyi]. unfold add_y_vars. rewrite Hyi. simpl.
  subst base. cbn [x omega y zplus zminus w m].
  set (self := {| x := x_keys i |}).
  destruct (fix_region_fixed_is_Ok i self Hwf) as [cs1 H1]; [done|].
  destruct (flow_balance_fixed_is_Ok i self Hwf) as [cs2 H2]; [done|by eexists|].
  unfold addConstrs. rewrite H1. simpl. rewrite H2. simpl. by eexists.
Qed.



(** ** The flexible and the partflex models *)

Lemma eval_td_sum {K} `{EqDecision K} sol (mk : K → var) td p :
  (eval sol (td_sum mk td p)
   == py_sum (sol ∘ mk <$> filter (λ k, p k = true) (remove_dups td)))%Q.
Proof.
  unfold td_sum. rewrite eval_lin_sum, <- list_fmap_compose. reflexivity.
Qed.

Lemma set_UB_constrs k u md : m_constrs (set_UB k u md) = m_constrs md.
Proof. reflexivity. Qed.

Lemma close_zminus_Ok i zm n md md' :
  close_zminus i zm n md = Ok md' → m_constrs md' = m_constrs md.
Proof.
  unfold close_zminus.
  apply (foldM_invariant (λ b, m_constrs b = m_constrs md)); [|done].
  intros b1 b2 [theta a] _ Hb1 Hf. inv_bind Hf. by injection Hf as <-.
Qed.

Lemma close_zplus_Ok i zp n md md' :
  close_zplus i zp n md = Ok md' → m_constrs md' = m_constrs md.
Proof.
  unfold close_zplus.
  apply (foldM_invariant (λ b, m_constrs b = m_constrs md)); [|done].
  intros b1 b2 [theta a] _ Hb1 Hf. inv_bind Hf. by injection Hf as <-.
Qed.

Lemma wf_period_range i theta :
  wf_instance i → theta ∈ periods i ↔ 0 ≤ theta < 8.
Proof. intros Hwf. rewrite (wf_periods i Hwf), elem_of_seqZ. lia. Qed.

Lemma close_zminus_is_Ok i md :
  wf_instance i → is_Ok (close_zminus i (x_keys i) 4 md).
Proof.
  intros Hwf. apply foldM_is_Ok. intros b [theta a] [Ht Ha]%elem_of_pairs.
  unfold range2 in Ht. rewrite (wf_n_periods i Hwf) in Ht. apply elem_of_seqZ in Ht.
  rewrite (td_get_elem vzminus); [by eexists|].
  apply elem_of_pairs. split; [done|]. apply wf_period_range; [done|lia].
Qed.

Lemma close_zplus_is_Ok i md :
  wf_instance i → is_Ok (close_zplus i (x_keys i) 4 md).
Proof.
  intros Hwf. apply foldM_is_Ok. intros b [theta a] [Ht Ha]%elem_of_pairs.
  unfold range in Ht. apply elem_of_seqZ in Ht.
  rewrite (td_get_elem vzplus); [by eexists|].
  apply elem_of_pairs. split; [done|]. apply wf_period_range; [done|lia].
Qed.

Lemma fix_region_flex_is_Ok i :
  wf_instance i → is_Ok (fix_region_flex i (x_keys i) (x_keys i) 4).
Proof.
  intros Hwf. apply mapM_is_Ok. intros [region theta] [Hr Ht]%elem_of_pairs.
  apply list_elem_of_filter in Ht as [Hlt Ht].
  rewrite (wf_n_periods i Hwf) in Hlt. apply wf_period_range in Ht; [|done].
  destruct (wf_reg_areas i Hwf _ Hr) as (ras & Hras & Hsub).
  unfold subscript. rewrite Hras. simpl.
  rewrite (mapM_Ok_fmap (λ a, td_get vzminus (x_keys i) (a, theta))
                        (λ a, V (var_zminus a theta))). 2:{
    intros a Ha. apply (td_get_elem vzminus (x_keys i) (a, theta)), elem_of_pairs.
    split; [auto|]. apply wf_period_range; [done|lia]. }
  simpl.
  rewrite (mapM_Ok_fmap (λ a, td_get vzplus (x_keys i) (a, theta + 4 - 1))
                        (λ a, V (var_zplus a (theta + 4 - 1)))). 2:{
    intros a Ha. apply (td_get_elem vzplus (x_keys i) (a, theta + 4 - 1)), elem_of_pairs.
    split; [auto|]. apply wf_period_range; [done|lia]. }
  simpl. by eexists.
Qed.

Lemma flow_balance_flex_rows i self yd (ras : list string) :
  wf_instance i → x self = x_keys i → y self = Some yd →
  (∀ a, a ∈ ras → a ∈ areas i) →
  mapM (λ '(a1, theta),
        xt ← td_get vx (x self) (a1, theta);
        xp ← td_get vx (x self) (a1, theta - 1);
        yd ← getattr (y self);
        zmv ← td_get vzminus (x_keys i) (a1, theta);
        zpv ← td_get vzplus (x_keys i) (a1, theta - 1);
        Ok (eq_ xt (Sub (Add (Sub (Add xp (y_into yd a1 theta))
                                  (y_out_of yd a1 theta)) zmv) zpv)))
      (a1 ← ras; theta ← filter (λ theta, 0 < theta) (periods i); [(a1, theta)])
  = Ok (flow_balance_flex_row yd <$>
        (a1 ← ras; theta ← filter (λ theta, 0 < theta) (periods i); [(a1, theta)])).
Proof.
  intros Hwf Hx Hy Hsub. apply mapM_Ok_fmap.
  intros [a theta] [Ha Ht]%elem_of_pairs.
  apply list_elem_of_filter in Ht as [Hpos Ht]. apply wf_period_range in Ht; [|done].
  rewrite Hx, Hy.
  rewrite (td_get_elem vx (x_keys i) (a, theta)) by
    (apply elem_of_pairs; split; [auto|]; apply wf_period_range; [done|lia]).
  simpl.
  rewrite (td_get_elem vx (x_keys i) (a, theta - 1)) by
    (apply elem_of_pairs; split; [auto|]; apply wf_period_range; [done|lia]).
  simpl.
  rewrite (td_get_elem vzminus (x_keys i) (a, theta)) by
    (apply elem_of_pairs; split; [auto|]; apply wf_period_range; [done|lia]).
  simpl.
  rewrite (td_get_elem vzplus (x_keys i) (a, theta - 1)) by
    (apply elem_of_pairs; split; [auto|]; apply wf_period_range; [done|lia]).
  done.
Qed.

Lemma flow_balance_flex_is_Ok i self yd :
  wf_instance i → x self = x_keys i → y self = Some yd →
  is_Ok (flow_balance_flex i self (x_keys i) (x_keys i)).
Proof.
  intros Hwf Hx Hy. unfold flow_balance_flex.
  apply is_Ok_bind; [|intros; by eexists].
  apply mapM_is_Ok. intros region Hr.
  destruct (wf_reg_areas i Hwf _ Hr) as (ras & Hras & Hsub).
  unfold subscript. rewrite Hras. simpl.
  rewrite (flow_balance_flex_rows i self yd ras) by done. by eexists.
Qed.

Lemma elem_of_concat {A} (ls : list (list A)) (l : list A) a :
  l ∈ ls → a ∈ l → a ∈ concat ls.
Proof.
  induction ls as [|l' ls IH]; [by intros ?%elem_of_nil|].
  intros [->|Hl]%elem_of_cons Ha; simpl; apply elem_of_app; auto.
Qed.

Lemma flow_balance_flex_elem i self yd cs a theta :
  wf_instance i → x self = x_keys i → y self = Some yd →
  flow_balance_flex i self (x_keys i) (x_keys i) = Ok cs →
  a ∈ areas i → theta ∈ periods i → 0 < theta →
  flow_balance_flex_row yd (a, theta) ∈ cs.
Proof.
  intros Hwf Hx Hy Hcs Ha Ht Hpos. unfold flow_balance_flex in Hcs.
  inv_bind Hcs. injection Hcs as <-.
  destruct (wf_area_regs i Hwf a Ha) as (region & ras & _ & Hr & Hras & Hin).
  destruct (mapM_Ok_elem _ _ _ _ E Hr) as (row & Hrow & Hrin).
  unfold subscript in Hrow. rewrite Hras in Hrow. simpl in Hrow.
  destruct (wf_reg_areas i Hwf _ Hr) as (ras' & Hras' & Hsub).
  rewrite Hras in Hras'. injection Hras' as <-.
  rewrite (flow_balance_flex_rows i self yd ras) in Hrow by done.
  injection Hrow as <-. apply (elem_of_concat _ _ _ Hrin).
  apply (list_elem_of_fmap_2 (flow_balance_flex_row yd)), elem_of_pairs.
  split; [done|]. by apply list_elem_of_filter.
Qed.

Lemma flow_balance_first_period_Ok i self :
  wf_instance i → x self = x_keys i →
  flow_balance_first_period i self (x_keys i)
  = Ok ((λ a, eq_ (V (var_x a 0)) (V (var_zminus a 0))) <$> areas i).
Proof.
  intros Hwf Hx. apply mapM_Ok_fmap. intros a Ha. rewrite Hx.
  rewrite (td_get_elem vx (x_keys i) (a, 0)) by
    (apply elem_of_pairs; split; [auto|]; apply wf_period_range; [done|lia]).
  simpl.
  rewrite (td_get_elem vzminus (x_keys i) (a, 0)) by
    (apply elem_of_pairs; split; [auto|]; apply wf_period_range; [done|lia]).
  done.
Qed.

Lemma build_flexible_model_members i self :
  wf_instance i → build_flexible_model i = Ok self →
  ∃ yi, y_idx i = Ok yi ∧ x self = x_keys i ∧ y self = Some yi ∧
        zminus self = Some (x_keys i) ∧ zplus self = Some (x_keys i) ∧
        flow_balance_members i yi (m self).
Proof.
  intros Hwf. unfold build_flexible_model. intros Hb.
  inv_bind Hb. rename v into base.
  destruct (build_base_model_Ok _ _ E) as (? & ? & ? & ? & _ & _ & _ & _ & ->).
  inv_bind Hb. apply add_y_vars_Ok in E0 as (yi & Hyi & ->).
  cbn [x omega y zplus zminus w m] in Hb.
  rewrite decide_True in Hb by apply (wf_n_periods i Hwf).
  inv_bind Hb. inv_bind Hb.
  inv_bind Hb. apply addConstrs_Ok in E2 as (cs5 & H5 & ->).
  inv_bind Hb. apply addConstrs_Ok in E2 as (cs6 & H6 & ->).
  inv_bind Hb. apply addConstrs_Ok in E2 as (cs7 & H7 & ->).
  injection Hb as <-. exists yi. cbn [x omega y zplus zminus w m with_m m_constrs].
  match type of H7 with flow_balance_first_period i ?s _ = _ => set (s0 := s) in * end.
  pose proof (flow_balance_first_period_Ok i s0 Hwf eq_refl) as H7'.
  pose proof (flow_balance_flex_elem i s0 yi cs6) as H6'.
  unfold x_keys in H7', H6'. rewrite H7' in H7. injection H7 as <-.
  specialize (λ a theta, H6' a theta Hwf eq_refl eq_refl H6).
  repeat split; try done.
  - intros a Ha. apply elem_of_app. right. rewrite <- list_fmap_compose.
    by apply (list_elem_of_fmap_2' _ _ a).
  - intros a theta Ha Ht Hpos. apply elem_of_app. left. apply elem_of_app. right.
    apply (list_elem_of_fmap_2' _ _ (flow_balance_flex_row yi (a, theta))); [|done].
    by apply H6'.
Qed.

Lemma build_flexible_model_is_Ok i :
  wf_instance i → demand_complete i → n_scenarios i ≠ 0 →
  is_Ok (build_flexible_model i).
Proof.
  intros Hwf Hd Hn. unfold build_flexible_model.
  destruct (build_base_model_is_Ok i Hwf Hd Hn) as [base Hbase]. rewrite Hbase. simpl.
  destruct (build_base_model_Ok _ _ Hbase) as (? & ? & ? & ? & _ & _ & _ & _ & ->).
  destruct (y_idx_is_Ok i Hwf) as [yi Hyi]. unfold add_y_vars. rewrite Hyi. simpl.
  rewrite decide_True by apply (wf_n_periods i Hwf).
  fold (x_keys i).
  match goal with |- context [close_zminus i (x_keys i) 4 ?md] =>
    destruct (close_zminus_is_Ok i md Hwf) as [m3 ->] end. simpl.
  destruct (close_zplus_is_Ok i m3 Hwf) as [m4 ->]. simpl.
  destruct (fix_region_flex_is_Ok i Hwf) as [cs5 ->]. simpl.
  match goal with |- context [flow_balance_flex i ?s _ _] =>
    destruct (flow_balance_flex_is_Ok i s yi Hwf eq_refl eq_refl) as [cs6 H6];
    rewrite (flow_balance_first_period_Ok i s Hwf eq_refl) end.
  unfold addConstrs at 2. rewrite H6. simpl. by eexists.
Qed.

Lemma build_partflex_model_Ok i self' :
  wf_instance i → build_partflex_model i = Ok self' →
  ∃ self, build_flexible_model i = Ok self ∧ y self' = y self ∧
          ∀ c, c ∈ m_constrs (m self) → c ∈ m_constrs (m self').
Proof.
  intros Hwf. unfold build_partflex_model. intros Hb.
  inv_bind Hb. rename v into self. exists self. split; [done|].
  rewrite decide_True in Hb by apply (wf_n_periods i Hwf).
  inv_bind Hb. apply addConstrs_Ok in E0 as (cs & Hcs & ->).
  inv_bind Hb. injection Hb as <-. split; [done|].
  intros c0 Hc0. cbn. apply elem_of_app. left. apply elem_of_app. by left.
Qed.

Lemma link_z_w_is_Ok i self :
  wf_instance i → zminus self = Some (x_keys i) →
  is_Ok (link_z_w i self (range (n_periods i - 4 + 1))).
Proof.
  intros Hwf Hz. apply mapM_is_Ok. intros [region theta] [Hr Ht]%elem_of_pairs.
  pose proof Ht as Ht'. unfold range in Ht'. rewrite (wf_n_periods i Hwf) in Ht'.
  apply elem_of_seqZ in Ht'.
  destruct (wf_reg_areas i Hwf _ Hr) as (ras & Hras & Hsub).
  destruct (wf_ub_reg i Hwf _ Hr) as [ub Hub].
  unfold subscript. rewrite Hras, Hz, Hub. simpl.
  rewrite (mapM_Ok_fmap (λ a, td_get vzminus (x_keys i) (a, theta))
                        (λ a, V (var_zminus a theta))). 2:{
    intros a Ha. apply (td_get_elem vzminus (x_keys i) (a, theta)), elem_of_pairs.
    split; [auto|]. apply wf_period_range; [done|lia]. }
  simpl. rewrite (td_get_elem vw) by done. by eexists.
Qed.

Lemma build_partflex_model_is_Ok i cap :
  wf_instance i → demand_complete i → n_scenarios i ≠ 0 →
  max_n_shifts i = Some (Some cap) →
  is_Ok (build_partflex_model i).
Proof.
  intros Hwf Hd Hn Hcap. unfold build_partflex_model.
  destruct (build_flexible_model_is_Ok i Hwf Hd Hn) as [self Hself].
  rewrite Hself. simpl.
  destruct (build_flexible_model_members i self Hwf Hself) as (yi & _ & _ & _ & Hz & _).
  rewrite decide_True by apply (wf_n_periods i Hwf).
  destruct (link_z_w_is_Ok i self Hwf Hz) as [cs Hcs].
  unfold addConstrs. rewrite Hcs. simpl.
  unfold shift_cap. rewrite Hcap. simpl. by eexists.
Qed.

Lemma flow_balance_members_identity i yd md sol :
  flow_balance_members i yd md → solution md sol → flow_balance_identity i yd sol.
Proof.
  intros [H0 Hpos] Hsol a Ha. split.
  - apply (solution_constr _ _ _ Hsol (H0 a Ha)).
  - intros theta Ht Hlt.
    pose proof (solution_constr _ _ _ Hsol (Hpos a theta Ha Ht Hlt)) as Hh.
    unfold holds in Hh. cbn [tc eq_ csense lhs rhs eval] in Hh.
    unfold y_into, y_out_of in Hh. rewrite !eval_td_sum in Hh.
    exact Hh.
Qed.

(** Which movement variables exist: ordered pairs of distinct areas with
    the same region, at every period. *)
Lemma y_idx_elem i yi a1 a2 theta :
  wf_instance i → y_idx i = Ok yi →
  (a1, a2, theta) ∈ yi ↔
  a1 ∈ areas i ∧ a2 ∈ areas i ∧ theta ∈ periods i ∧ a1 ≠ a2 ∧
  area_regs i !! a1 = area_regs i !! a2.
Proof.
  intros Hwf Hyi. unfold y_idx in Hyi.
  rewrite (filterM_Ok_elem _ _ _ (a1, a2, theta) Hyi), elem_of_triples.
  split.
  - intros ((Ha1 & Ha2 & Ht) & Hp). repeat split; try done.
    + destruct (decide (a1 ≠ a2)); [done|discriminate].
    + destruct (decide (a1 ≠ a2)); [|discriminate].
      inv_bind Hp. inv_bind Hp. injection Hp as Hp.
      apply bool_decide_eq_true in Hp as ->.
      apply subscript_Ok in E, E0. congruence.
  - intros (Ha1 & Ha2 & Ht & Hne & Heq). split; [done|].
    rewrite decide_True by done.
    destruct (wf_area_regs i Hwf a1 Ha1) as (r1 & ? & H1 & _).
    unfold subscript. rewrite <- Heq, H1. simpl. by rewrite bool_decide_true.
Qed.

(** The builder's own test of the period count returns instead of raising:
    on a record with another period count (no derived instance is one) the
    method ends normally, with the variables declared and none of its
    constraints added. *)
Remark flexible_model_guard_returns i base yi :
  n_periods i ≠ 8 → build_base_model i = Ok base → y_idx i = Ok yi →
  ∃ self, build_flexible_model i = Ok self ∧
          m_constrs (m self) = m_constrs (m base).
Proof.
  intros Hn Hb Hy. unfold build_flexible_model, add_y_vars.
  rewrite Hb. simpl. rewrite Hy. simpl. rewrite decide_False by done.
  by eexists.
Qed.

(** C3.  The flexible model is built; it contains, for every area [a], the
    constraint [x[a,0] == zminus[a,0]] and, for every period [theta > 0],
    [x[a,theta] == x[a,theta-1] + y.sum('*',a,theta) - y.sum(a,'*',theta)
    + zminus[a,theta] - zplus[a,theta-1]]; the partflex model, whenever it
    is built (and it is when the shift cap is set), contains them too; so
    the flow-balance identity holds with equality at every area and period
    in every solution of either model. *)
Theorem flex_flow_balance (c : invocation) (j : instance_json) (i : Instance) :
  compute_data c j = Ok i → demand_complete i → n_scenarios i ≠ 0 →
  ∃ self yd,
    build_flexible_model i = Ok self ∧ y self = Some yd ∧
    flow_balance_members i yd (m self) ∧
    (∀ sol, solution (m self) sol → flow_balance_identity i yd sol) ∧
    (∀ cap, max_n_shifts i = Some (Some cap) → is_Ok (build_partflex_model i)) ∧
    (∀ self', build_partflex_model i = Ok self' →
       y self' = Some yd ∧ flow_balance_members i yd (m self') ∧
       ∀ sol, solution (m self') sol → flow_balance_identity i yd sol).
Proof.
  intros Hc Hd Hn. pose proof (compute_data_wf _ _ _ Hc) as Hwf.
  destruct (build_flexible_model_is_Ok i Hwf Hd Hn) as [self Hself].
  destruct (build_flexible_model_members i self Hwf Hself)
    as (yd & _ & _ & Hy & _ & _ & Hmem).
  exists self, yd.
  split; [done|]. split; [done|]. split; [done|].
  split; [intros sol Hsol; by eapply flow_balance_members_identity|].
  split; [intros cap Hcap; by eapply build_partflex_model_is_Ok|].
  intros self' Hself'.
  destruct (build_partflex_model_Ok i self' Hwf Hself') as (s0 & Hs0 & Hy' & Hsub).
  rewrite Hself in Hs0. injection Hs0 as <-.
  assert (Hmem' : flow_balance_members i yd (m self')).
  { destruct Hmem as [H0 Hpos].
    split; [intros a Ha|intros a theta Ha Ht Hlt]; apply Hsub; auto. }
  split; [congruence|]. split; [done|].
  intros sol Hsol. by eapply flow_balance_members_identity.
Qed.

(** ** The shift cap of the partflex model *)

Lemma read_params_model_cli a p : read_params (CommandLine a) = Ok p → p.2 = args_model a.
Proof. by intros [= <-]. Qed.

Lemma read_params_model_kw kw p mdl :
  kw_model kw = Some mdl → read_params (Programmatic kw) = Ok p → p.2 = mdl.
Proof.
  intros Hm Hp. simpl in Hp. inv_bind Hp. inv_bind Hp. inv_bind Hp. inv_bind Hp.
  injection Hp as <-. rewrite Hm in E2. by injection E2 as <-.
Qed.

Lemma build_partflex_model_cap i e :
  wf_instance i → demand_complete i → n_scenarios i ≠ 0 →
  shift_cap i = Raise e →
  ∃ self cs, build_flexible_model i = Ok self ∧
             link_z_w i self (range (n_periods i - 4 + 1)) = Ok cs ∧
             build_partflex_model i = Raise e.
Proof.
  intros Hwf Hd Hn Hcap.
  destruct (build_flexible_model_is_Ok i Hwf Hd Hn) as [self Hself].
  destruct (build_flexible_model_members i self Hwf Hself) as (yi & _ & _ & _ & Hz & _).
  destruct (link_z_w_is_Ok i self Hwf Hz) as [cs Hcs].
  exists self, cs. split; [done|]. split; [done|].
  unfold build_partflex_model. rewrite Hself. simpl.
  rewrite decide_True by apply (wf_n_periods i Hwf).
  unfold addConstrs. rewrite Hcs. simpl. by rewrite Hcap.
Qed.

Lemma build_partflex_model_needs_cap i self :
  wf_instance i → build_partflex_model i = Ok self → is_Ok (shift_cap i).
Proof.
  intros Hwf. unfold build_partflex_model. intros Hb. inv_bind Hb.
  rewrite decide_True in Hb by apply (wf_n_periods i Hwf).
  inv_bind Hb. inv_bind Hb. by eexists.
Qed.

(** C10.  A programmatic call with model [partflex] and the keyword
    [max_n_shifts] supplied stores the value in the attribute [max_n_shift]
    and leaves [max_n_shifts] unassigned; the partflex model is then never
    built, and on complete data the flexible part and the link constraints
    are generated and the construction ends with [AttributeError]. *)
Theorem programmatic_cap_is_lost (kw : Kwargs) (j : instance_json)
    (i : Instance) (v : option Z) :
  kw_model kw = Some "partflex" → kw_max_n_shifts kw = Some v →
  compute_data (Programmatic kw) j = Ok i →
  max_n_shift i = Some v ∧ max_n_shifts i = None ∧
  (∀ self, build_partflex_model i ≠ Ok self) ∧
  (demand_complete i → n_scenarios i ≠ 0 →
   is_Ok (build_flexible_model i) ∧
   build_partflex_model i = Raise AttributeError).
Proof.
  intros Hm Hv Hc. pose proof (compute_data_wf _ _ _ Hc) as Hwf.
  destruct (compute_data_derived _ _ _ Hc).
  pose proof (read_params_model_kw _ _ _ Hm d_params0) as Hmodel. simpl in Hmodel.
  unfold partflex_attrs in d_partflex0.
  rewrite Hmodel, decide_True, Hv in d_partflex0 by done.
  simpl in d_partflex0. injection d_partflex0 as Hs Hs'.
  assert (Hcap : shift_cap i = Raise AttributeError).
  { unfold shift_cap. by rewrite <- Hs. }
  split; [done|]. split; [done|]. split.
  - intros self Hself.
    destruct (build_partflex_model_needs_cap i self Hwf Hself) as [n Hn].
    congruence.
  - intros Hd Hn.
    destruct (build_partflex_model_cap i _ Hwf Hd Hn Hcap) as (self & cs & Hf & _ & Hb).
    split; [by eexists|done].
Qed.



(** C6, amended.  From the command line, selecting partflex without the cap
    does not end the derivation of the instance: the attribute is set to
    [None]; on complete data the flexible model and the link constraints
    are generated and the construction ends, at its last statement, with
    the library's type error.  In a programmatic call without the keyword
    the derivation of the instance itself fails, before any model is
    built. *)
Theorem partflex_without_cap (j : instance_json) :
  (∀ a i, args_model a = "partflex" → args_max_n_shifts a = None →
     compute_data (CommandLine a) j = Ok i →
     max_n_shifts i = Some None ∧
     (∀ self, build_partflex_model i ≠ Ok self) ∧
     (demand_complete i → n_scenarios i ≠ 0 →
      ∃ self cs, build_flexible_model i = Ok self ∧
                 link_z_w i self (range (n_periods i - 4 + 1)) = Ok cs ∧
                 build_partflex_model i = Raise TypeError)) ∧
  (∀ a u, args_model a = "partflex" →
     is_Ok (compute_data (CommandLine a) j) ↔
     is_Ok (compute_data
              (CommandLine {| args_model := args_model a;
                              args_outsourcing_cost_multiplier :=
                                args_outsourcing_cost_multiplier a;
                              args_regional_multiplier := args_regional_multiplier a;
                              args_global_multiplier := args_global_multiplier a;
                              args_max_n_shifts := u |}) j)) ∧
  (∀ kw, kw_model kw = Some "partflex" → kw_max_n_shifts kw = None →
     ∃ e, compute_data (Programmatic kw) j = Raise e).
Proof.
  split; [|split].
  - intros a i Hm Hu Hc. pose proof (compute_data_wf _ _ _ Hc) as Hwf.
    destruct (compute_data_derived _ _ _ Hc).
    pose proof (read_params_model_cli _ _ d_params0) as Hmodel. simpl in Hmodel.
    unfold partflex_attrs in d_partflex0.
    rewrite Hmodel, Hm, decide_True, Hu in d_partflex0 by done.
    injection d_partflex0 as Hs Hs'.
    assert (Hcap : shift_cap i = Raise TypeError).
    { unfold shift_cap. by rewrite <- Hs. }
    split; [done|]. split.
    + intros self Hself.
      destruct (build_partflex_model_needs_cap i self Hwf Hself) as [n Hn].
      congruence.
    + intros Hd Hn. by apply build_partflex_model_cap.
  - intros a u Hm. unfold compute_data, read_params. simpl.
    destruct (make_area_regs _ _ _) as [ar|]; simpl; [|done].
    destruct (get_ubs _ _ _ _ _ _ _ _) as [[ur ug]|]; simpl; [|done].
    destruct (get_shifts _ _) as [sh|]; simpl; [|done].
    unfold partflex_attrs. rewrite Hm, decide_True by done. simpl.
    split; intros _; by eexists.
  - intros kw Hm Hu.
    destruct (compute_data (Programmatic kw) j) as [i|e] eqn:Hc; [|by eexists].
    destruct (compute_data_derived _ _ _ Hc).
    pose proof (read_params_model_kw _ _ _ Hm d_params0) as Hmodel. simpl in Hmodel.
    unfold partflex_attrs in d_partflex0.
    rewrite Hmodel, decide_True, Hu in d_partflex0 by done. done.
Qed.

(** ** Results extraction *)

Lemma mapM_Raise_elem {A B} (f : A → result B) l e :
  mapM f l = Raise e → ∃ a, a ∈ l ∧ f a = Raise e.
Proof.
  induction l as [|a l IH]; [done|]. rewrite mapM_cons.
  destruct (f a) as [b|e'] eqn:Hfa; simpl.
  - destruct (mapM f l) as [k|e'] eqn:Hm; simpl; [done|].
    intros [= ->]. destruct IH as (a' & Ha' & Hf); [done|].
    exists a'. split; [by right|done].
  - intros [= ->]. exists a. split; [left|done].
Qed.

Lemma filterM_Raise_elem {A} (p : A → result bool) l e :
  filterM p l = Raise e → ∃ a, a ∈ l ∧ p a = Raise e.
Proof.
  induction l as [|a l IH]; [done|]. simpl.
  destruct (p a) as [b|e'] eqn:Hpa; simpl.
  - destruct (filterM p l) as [k|e'] eqn:Hm; simpl; [done|].
    intros [= ->]. destruct IH as (a' & Ha' & Hf); [done|].
    exists a'. split; [by right|done].
  - intros [= ->]. exists a. split; [left|done].
Qed.

Lemma dict_comp_from_Raise `{Countable K} {V} (f : K → result V) keys d e :
  (∀ k, k ∈ keys → is_Ok (f k) ∨ f k = Raise e) →
  (∃ k, k ∈ keys ∧ f k = Raise e) →
  dict_comp_from f keys d = Raise e.
Proof.
  revert d. induction keys as [|k keys IH]; intros d Hall (k' & Hk' & Hf).
  - by apply elem_of_nil in Hk'.
  - simpl. destruct (Hall k) as [[v Hv]|Hr]; [left| |by rewrite Hr].
    rewrite Hv. simpl. apply IH.
    + intros k'' Hk''. apply Hall. by right.
    + apply elem_of_cons in Hk' as [->|Hk']; [congruence|eauto].
Qed.

Lemma td_X_elem {K} `{EqDecision K} sv (mk : K → var) td k :
  k ∈ td → td_X sv mk td k = Ok (X sv (mk k)).
Proof. intros Hk. unfold td_X. by rewrite decide_True. Qed.

Lemma positive_true r : positive r = true ↔ (0 < r)%Q.
Proof.
  unfold positive. destruct (Qlt_le_dec 0 r) as [Hlt|Hle]; split; try done.
  intros Hlt. by apply Qle_not_lt in Hle.
Qed.

Lemma elem_of_positive_scenarios i a theta s :
  s ∈ positive_scenarios i a theta ↔ (0 < required i s a theta)%Q ∧ s ∈ scenarios i.
Proof. unfold positive_scenarios. by rewrite list_elem_of_filter, positive_true. Qed.

Lemma Qlt_nonzero r : (0 < r)%Q → ¬ (r == 0)%Q.
Proof. intros Hlt Heq. rewrite Heq in Hlt. by apply Qlt_irrefl in Hlt. Qed.

Lemma py_div_pos a b : ¬ (b == 0)%Q → py_div a b = Ok (a / b)%Q.
Proof.
  intros Hb. unfold py_div. destruct (Qeq_bool b 0) eqn:Hq; [|done].
  by apply Qeq_bool_eq in Hq.
Qed.

Section parcel_facts.
Variables (i : Instance) (self : Solver) (sv : Solved) (a : string) (theta : Z).
Hypothesis Hreq : ∀ s, s ∈ scenarios i → is_Some (srequired i !! (s, a, theta)).

Lemma scenarios_with_demand_eq :
  filterM (λ s, r ← subscript (srequired i) (s, a, theta);
                Ok (if Qlt_le_dec 0 r then true else false)) (scenarios i)
  = Ok (positive_scenarios i a theta).
Proof.
  apply (filterM_pure _ (λ s, positive (required i s a theta))).
  intros s Hs. destruct (Hreq s Hs) as [r Hr].
  unfold subscript, required, required_of. by rewrite Hr.
Qed.

Lemma parcel_estimates_zero divide :
  positive_scenarios i a theta = [] →
  parcel_estimates_with divide i self sv a theta = Ok (0, 0, 0)%Q.
Proof.
  intros Hnone. unfold parcel_estimates_with.
  by rewrite scenarios_with_demand_eq, Hnone.
Qed.

Hypothesis Hdem : ∀ s, s ∈ scenarios i → is_Some (sdemand i !! (s, a, theta)).
Hypothesis Hx : (a, theta) ∈ x self.

Lemma parcel_estimates_value :
  positive_scenarios i a theta ≠ [] →
  let xv := X sv (var_x a theta) in
  let n := inject_Z (Z.of_nat (length (positive_scenarios i a theta))) in
  parcel_estimates i self sv a theta =
  Ok ((py_max (py_sum ((λ s, (required i s a theta - xv) * demand_at i s a theta
                             / required i s a theta) <$> positive_scenarios i a theta)) 0 / n,
       py_max (py_sum ((λ s, 100 * (required i s a theta - xv)
                             / required i s a theta) <$> positive_scenarios i a theta)) 0 / n,
       py_sum ((λ s, demand_at i s a theta * xv / required i s a theta)
               <$> positive_scenarios i a theta) / n))%Q.
Proof.
  intros Hne xv n. unfold parcel_estimates, parcel_estimates_with.
  rewrite scenarios_with_demand_eq. simpl.
  rewrite decide_False by (by destruct (positive_scenarios i a theta)).
  assert (Hs : ∀ s, s ∈ positive_scenarios i a theta →
    ∃ r d, srequired i !! (s, a, theta) = Some r ∧ sdemand i !! (s, a, theta) = Some d ∧
           required i s a theta = r ∧ demand_at i s a theta = d ∧ ¬ (r == 0)%Q).
  { intros s [Hpos Hin]%elem_of_positive_scenarios.
    destruct (Hreq s Hin) as [r Hr]. destruct (Hdem s Hin) as [d Hd].
    exists r, d. unfold required, required_of, demand_at in *.
    rewrite Hr in *. rewrite Hd. repeat split; try done. by apply Qlt_nonzero. }
  rewrite (mapM_Ok_fmap _ (λ s, demand_at i s a theta * xv / required i s a theta)%Q). 2:{
    intros s Hin. destruct (Hs s Hin) as (r & d & Hr & Hd & Hr' & Hd' & Hnz).
    rewrite ?Hr', ?Hd'. unfold subscript. rewrite Hr, Hd. simpl.
    rewrite (td_X_elem sv vx) by done. simpl. by apply py_div_pos. }
  rewrite (mapM_Ok_fmap _ (λ s, 100 * (required i s a theta - xv)
                                / required i s a theta)%Q). 2:{
    intros s Hin. destruct (Hs s Hin) as (r & d & Hr & Hd & Hr' & Hd' & Hnz).
    rewrite ?Hr', ?Hd'. unfold subscript. rewrite Hr. simpl.
    rewrite (td_X_elem sv vx) by done. simpl. by apply py_div_pos. }
  rewrite (mapM_Ok_fmap _ (λ s, (required i s a theta - xv) * demand_at i s a theta
                                / required i s a theta)%Q). 2:{
    intros s Hin. destruct (Hs s Hin) as (r & d & Hr & Hd & Hr' & Hd' & Hnz).
    rewrite ?Hr', ?Hd'. unfold subscript. rewrite Hr, Hd. simpl.
    rewrite (td_X_elem sv vx) by done. simpl. by apply py_div_pos. }
  simpl.
  assert (Hn : ¬ (n == 0)%Q).
  { apply inject_Z_nonzero. destruct (positive_scenarios i a theta); [done|simpl; lia]. }
  fold n. rewrite !(py_div_pos _ n) by done. reflexivity.
Qed.
End parcel_facts.

Lemma subscript_Raise `{Countable K} {V} (d : gmap K V) k e :
  subscript d k = Raise e → e = KeyError.
Proof. unfold subscript. destruct (d !! k); [done|]. by intros [= <-]. Qed.

Lemma td_X_Raise {K} `{EqDecision K} sv (mk : K → var) td k e :
  td_X sv mk td k = Raise e → e = KeyError.
Proof. unfold td_X. destruct (decide (k ∈ td)); [done|]. by intros [= <-]. Qed.

Ltac raise_bind H :=
  let a := fresh "v" in
  let Ha := fresh "E" in
  apply bind_Raise in H as [H|(a & Ha & H)].

(** The only exception the loop body can raise is a missing key. *)
Lemma parcel_estimates_Raise i self sv a theta e :
  parcel_estimates i self sv a theta = Raise e → e = KeyError.
Proof.
  unfold parcel_estimates, parcel_estimates_with. intros H.
  raise_bind H.
  { apply filterM_Raise_elem in H as (s & _ & H).
    raise_bind H; [by apply subscript_Raise in H|done]. }
  rename v into swd.
  destruct (decide (length swd = 0%nat)) as [|Hlen]; [done|].
  assert (Hpos : ∀ s, s ∈ swd →
    ∃ r, srequired i !! (s, a, theta) = Some r ∧ ¬ (r == 0)%Q).
  { intros s Hs. apply (filterM_Ok_elem _ _ _ s E) in Hs as [_ Hp].
    inv_bind Hp. apply subscript_Ok in E0. exists v. split; [done|].
    injection Hp as Hp. destruct (Qlt_le_dec 0 v); [|done]. by apply Qlt_nonzero. }
  assert (Hn : ¬ (inject_Z (Z.of_nat (length swd)) == 0)%Q).
  { apply inject_Z_nonzero. lia. }
  apply bind_Raise in H as [H|(t1 & _ & H)].
  { apply mapM_Raise_elem in H as (s & Hs & H).
    destruct (Hpos s Hs) as (r & Hr & Hnz).
    apply bind_Raise in H as [H|(r1 & _ & H)]; [by apply subscript_Raise in H|].
    apply bind_Raise in H as [H|(xv & _ & H)]; [by apply td_X_Raise in H|].
    apply bind_Raise in H as [H|(d & _ & H)]; [by apply subscript_Raise in H|].
    apply bind_Raise in H as [H|(r2 & Er & H)]; [by apply subscript_Raise in H|].
    apply subscript_Ok in Er. assert (r2 = r) as -> by congruence.
    by rewrite py_div_pos in H. }
  apply bind_Raise in H as [H|(t2 & _ & H)].
  { apply mapM_Raise_elem in H as (s & Hs & H).
    destruct (Hpos s Hs) as (r & Hr & Hnz).
    apply bind_Raise in H as [H|(r1 & _ & H)]; [by apply subscript_Raise in H|].
    apply bind_Raise in H as [H|(xv & _ & H)]; [by apply td_X_Raise in H|].
    apply bind_Raise in H as [H|(r2 & Er & H)]; [by apply subscript_Raise in H|].
    apply subscript_Ok in Er. assert (r2 = r) as -> by congruence.
    by rewrite py_div_pos in H. }
  apply bind_Raise in H as [H|(t3 & _ & H)].
  { apply mapM_Raise_elem in H as (s & Hs & H).
    destruct (Hpos s Hs) as (r & Hr & Hnz).
    apply bind_Raise in H as [H|(d & _ & H)]; [by apply subscript_Raise in H|].
    apply bind_Raise in H as [H|(xv & _ & H)]; [by apply td_X_Raise in H|].
    apply bind_Raise in H as [H|(r2 & Er & H)]; [by apply subscript_Raise in H|].
    apply subscript_Ok in Er. assert (r2 = r) as -> by congruence.
    by rewrite py_div_pos in H. }
  rewrite !py_div_pos in H by done. done.
Qed.

Lemma parcel_estimates_is_Ok i self sv a theta :
  (∀ s, s ∈ scenarios i → is_Some (srequired i !! (s, a, theta))) →
  (∀ s, s ∈ scenarios i → is_Some (sdemand i !! (s, a, theta))) →
  (a, theta) ∈ x self →
  is_Ok (parcel_estimates i self sv a theta).
Proof.
  intros Hreq Hdem Hx. destruct (positive_scenarios i a theta) as [|s l] eqn:Hp.
  - unfold parcel_estimates. rewrite parcel_estimates_zero by done. by eexists.
  - rewrite parcel_estimates_value by (try done; by rewrite Hp). by eexists.
Qed.

Lemma parcel_tables_from i self sv l acc o p h a :
  foldM (parcel_step i self sv) l acc = Ok (o, p, h) →
  (a ∈ l → ∃ rows, mapM (parcel_estimates i self sv a) (periods i) = Ok rows ∧
                   o !! a = Some ((λ r, r.1.1) <$> rows) ∧
                   p !! a = Some ((λ r, r.1.2) <$> rows) ∧
                   h !! a = Some ((λ r, r.2) <$> rows)) ∧
  (a ∉ l → o !! a = acc.1.1 !! a ∧ p !! a = acc.1.2 !! a ∧ h !! a = acc.2 !! a).
Proof.
  revert acc. induction l as [|a' l IH]; intros [[o0 p0] h0] Hf; simpl in Hf.
  - injection Hf as <- <- <-. split; [by intros ?%elem_of_nil|done].
  - inv_bind Hf. inv_bind E. injection E as <-. rename v0 into rows.
    destruct (IH _ Hf) as [IH1 IH2]. split.
    + intros [->|Hin]%elem_of_cons; [|by apply IH1].
      destruct (decide (a' ∈ l)) as [Hin|Hnin]; [by apply IH1|].
      destruct (IH2 Hnin) as (Ho & Hp & Hh). simpl in Ho, Hp, Hh.
      exists rows. rewrite Ho, Hp, Hh, !lookup_insert_eq. done.
    + intros [Hne Hnin]%not_elem_of_cons.
      destruct (IH2 Hnin) as (Ho & Hp & Hh). simpl in Ho, Hp, Hh.
      rewrite Ho, Hp, Hh, !lookup_insert_ne by done. done.
Qed.

Lemma parcel_tables_step i self sv :
  parcel_tables i self sv = foldM (parcel_step i self sv) (areas i) (∅, ∅, ∅).
Proof. reflexivity. Qed.

Lemma basic_results_Ok i self sv res :
  basic_results i self sv = Ok res →
  ∃ o p h, parcel_tables i self sv = Ok (o, p, h) ∧
           outsourced_parcels res = o ∧ inhouse_parcels res = h.
Proof.
  unfold basic_results. intros H. inv_bind H. inv_bind H.
  destruct v0 as [[o p] h]. inv_bind H. inv_bind H. inv_bind H.
  injection H as <-. by exists o, p, h.
Qed.

Lemma basic_results_parcels i self sv res a n theta row :
  basic_results i self sv = Ok res → a ∈ areas i →
  periods i !! n = Some theta → parcel_estimates i self sv a theta = Ok row →
  ∃ lo lh, outsourced_parcels res !! a = Some lo ∧ lo !! n = Some row.1.1 ∧
           inhouse_parcels res !! a = Some lh ∧ lh !! n = Some row.2.
Proof.
  intros Hres Ha Hn Hrow.
  destruct (basic_results_Ok _ _ _ _ Hres) as (o & p & h & Ht & -> & ->).
  rewrite parcel_tables_step in Ht.
  destruct (parcel_tables_from _ _ _ _ _ _ _ _ a Ht) as [H1 _].
  destruct (H1 Ha) as (rows & Hrows & Ho & _ & Hh).
  apply mapM_Ok_Forall2 in Hrows.
  destruct (Forall2_lookup_l _ _ _ _ _ Hrows Hn) as (row' & Hrow' & Heq).
  assert (row' = row) as -> by congruence.
  eexists _, _. split; [exact Ho|]. split; [by rewrite list_lookup_fmap, Hrow'|].
  split; [exact Hh|]. by rewrite list_lookup_fmap, Hrow'.
Qed.

Lemma clamp_div a n : (0 < n)%Q → (py_max a 0 / n == clamp (a / n))%Q.
Proof.
  intros Hn. unfold clamp, py_max. destruct (Qlt_le_dec a 0) as [Ha|Ha].
  - rewrite Q.max_r.
    + unfold Qdiv. by rewrite Qmult_0_l.
    + apply Qlt_le_weak, Qlt_shift_div_r; [done|]. by rewrite Qmult_0_l.
  - rewrite Q.max_l; [reflexivity|].
    apply Qle_shift_div_l; [done|]. by rewrite Qmult_0_l.
Qed.

Lemma wf_parcel_inputs c j i self a theta :
  compute_data c j = Ok i → demand_complete i → x self = x_keys i →
  a ∈ areas i → theta ∈ periods i →
  (∀ s, s ∈ scenarios i → is_Some (srequired i !! (s, a, theta))) ∧
  (∀ s, s ∈ scenarios i → is_Some (sdemand i !! (s, a, theta))) ∧
  (a, theta) ∈ x self.
Proof.
  intros Hc Hd Hx Ha Ht. pose proof (compute_data_wf _ _ _ Hc) as Hwf.
  split; [|split].
  - intros s Hs. by apply (wf_srequired i Hwf).
  - intros s Hs. by apply demand_complete_lookup.
  - rewrite Hx. by apply elem_of_pairs.
Qed.

(** The clamp is taken once, on the total over the scenarios: a scenario
    with more couriers than it requires offsets the shortfall of another. *)
Remark clamp_of_average_not_of_terms :
  (clamp (Qmean [-1; 1]) == 0)%Q ∧ (Qmean (clamp <$> [-1; 1]) == 1 # 2)%Q.
Proof. split; vm_compute; reflexivity. Qed.

(** C7, amended.  At an area and period with at least one scenario of
    positive required couriers, the three values the extraction computes
    are, over those scenarios: the larger of 0 and the average of
    [(required - x) * demand / required]; the larger of 0 and the average of
    [100 * (required - x) / required]; and the average of
    [demand * x / required].  The clamp is taken once, on the total, not on
    the term of each scenario.  The first and the third are the entries of
    [outsourced_parcels] and [inhouse_parcels] in the results; the second
    is computed and then not stored. *)
Theorem parcel_estimates_average (c : invocation) (j : instance_json)
    (i : Instance) (self : Solver) (sv : Solved) (a : string) (theta : Z) :
  compute_data c j = Ok i → demand_complete i → x self = x_keys i →
  a ∈ areas i → theta ∈ periods i → positive_scenarios i a theta ≠ [] →
  ∃ o p h,
    parcel_estimates i self sv a theta = Ok (o, p, h) ∧
    (o == avg_outsourced i (X sv (var_x a theta)) a theta)%Q ∧
    (p == avg_outsourced_pct i (X sv (var_x a theta)) a theta)%Q ∧
    (h == avg_inhouse i (X sv (var_x a theta)) a theta)%Q ∧
    ∀ res n, basic_results i self sv = Ok res → periods i !! n = Some theta →
      ∃ lo lh, outsourced_parcels res !! a = Some lo ∧ lo !! n = Some o ∧
               inhouse_parcels res !! a = Some lh ∧ lh !! n = Some h.
Proof.
  intros Hc Hd Hx Ha Ht Hne.
  destruct (wf_parcel_inputs c j i self a theta Hc Hd Hx Ha Ht) as (Hreq & Hdem & Hin).
  pose proof (parcel_estimates_value i self sv a theta Hreq Hdem Hin Hne) as Hv.
  cbv zeta in Hv. eexists _, _, _. split; [exact Hv|].
  assert (Hn : (0 < inject_Z (Z.of_nat (length (positive_scenarios i a theta))))%Q).
  { replace 0%Q with (inject_Z 0) by reflexivity. rewrite <- Zlt_Qlt.
    destruct (positive_scenarios i a theta); [done|simpl; lia]. }
  split; [|split; [|split]].
  - unfold avg_outsourced, Qmean. rewrite length_fmap. by apply clamp_div.
  - unfold avg_outsourced_pct, Qmean. rewrite length_fmap. by apply clamp_div.
  - unfold avg_inhouse, Qmean. rewrite length_fmap. reflexivity.
  - intros res n Hres Hn'.
    apply (basic_results_parcels i self sv res a n theta _ Hres Ha Hn' Hv).
Qed.

(** C8.  At an area and period where no scenario has positive required
    couriers the three values are exactly 0, whatever the division operator
    does (none is performed), and so are the entries of the results; and
    the loop body never raises [ZeroDivisionError], at any area and
    period. *)
Theorem zero_required_reports_zero (c : invocation) (j : instance_json)
    (i : Instance) (self : Solver) (sv : Solved) (a : string) (theta : Z) :
  compute_data c j = Ok i → a ∈ areas i → theta ∈ periods i →
  (∀ s, s ∈ scenarios i → (required i s a theta <= 0)%Q) →
  (∀ divide, parcel_estimates_with divide i self sv a theta = Ok (0, 0, 0)%Q) ∧
  parcel_estimates i self sv a theta = Ok (0, 0, 0)%Q ∧
  (∀ res n, basic_results i self sv = Ok res → periods i !! n = Some theta →
     ∃ lo lh, outsourced_parcels res !! a = Some lo ∧ lo !! n = Some 0%Q ∧
              inhouse_parcels res !! a = Some lh ∧ lh !! n = Some 0%Q) ∧
  (∀ a' theta', parcel_estimates i self sv a' theta' ≠ Raise ZeroDivisionError).
Proof.
  intros Hc Ha Ht Hzero. pose proof (compute_data_wf _ _ _ Hc) as Hwf.
  assert (Hreq : ∀ s, s ∈ scenarios i → is_Some (srequired i !! (s, a, theta))).
  { intros s Hs. by apply (wf_srequired i Hwf). }
  assert (Hnone : positive_scenarios i a theta = []).
  { destruct (positive_scenarios i a theta) as [|s l] eqn:Hp; [done|].
    assert (Hs : s ∈ positive_scenarios i a theta) by (rewrite Hp; left).
    apply elem_of_positive_scenarios in Hs as [Hpos Hs].
    apply Qlt_not_le in Hpos. by destruct Hpos; apply Hzero. }
  assert (Hall : ∀ divide,
    parcel_estimates_with divide i self sv a theta = Ok (0, 0, 0)%Q).
  { intros divide. by apply parcel_estimates_zero. }
  split; [done|]. split; [apply Hall|]. split.
  - intros res n Hres Hn.
    apply (basic_results_parcels i self sv res a n theta (0, 0, 0)%Q Hres Ha Hn (Hall _)).
  - intros a' theta' Hr. by apply parcel_estimates_Raise in Hr.
Qed.

Lemma dict_comp_from_Raise_elem `{Countable K} {V} (f : K → result V) keys d e :
  dict_comp_from f keys d = Raise e → ∃ k, k ∈ keys ∧ f k = Raise e.
Proof.
  revert d. induction keys as [|k keys IH]; intros d; simpl; [done|].
  destruct (f k) as [v|e'] eqn:Hfk; simpl.
  - intros Hr. destruct (IH _ Hr) as (k' & Hk' & Hf). exists k'. split; [by right|done].
  - intros [= ->]. exists k. split; [left|done].
Qed.

Lemma py_div_zero a z : z = 0 → py_div a (inject_Z z) = Raise ZeroDivisionError.
Proof. by intros ->. Qed.

Lemma py_div_cases a b : is_Ok (py_div a b) ∨ py_div a b = Raise ZeroDivisionError.
Proof. unfold py_div. destruct (Qeq_bool b 0); [by right|left; by eexists]. Qed.

Lemma regional_pct_cases i self sv region :
  wf_instance i → x self = x_keys i → region ∈ regions i →
  ∃ ub, ub_reg i !! region = Some ub ∧
        (ub = 0 → regional_pct i self sv region = Raise ZeroDivisionError) ∧
        (is_Ok (regional_pct i self sv region) ∨
         regional_pct i self sv region = Raise ZeroDivisionError).
Proof.
  intros Hwf Hx Hr. unfold regional_pct.
  destruct (wf_reg_areas i Hwf _ Hr) as (ras & Hras & Hsub).
  destruct (wf_ub_reg i Hwf _ Hr) as [ub Hub]. exists ub. split; [done|].
  unfold subscript. rewrite Hras, Hub. simpl.
  rewrite (mapM_Ok_fmap _ (λ k, X sv (vx k))). 2:{
    intros [a theta] [Ha Ht]%elem_of_pairs.
    apply td_X_elem. rewrite Hx. apply elem_of_pairs. auto. }
  simpl. split; [|apply py_div_cases].
  intros ->. by apply py_div_zero.
Qed.

Lemma hired_couriers_is_Ok i self sv :
  x self = x_keys i →
  is_Ok (dict_comp (λ a,
      mapM (λ theta, xv ← td_X sv vx (x self) (a, theta); Ok (Qtrunc xv))
           (periods i)) (areas i)).
Proof.
  intros Hx. apply dict_comp_is_Ok. intros a Ha. apply mapM_is_Ok.
  intros theta Ht. rewrite td_X_elem by (rewrite Hx; by apply elem_of_pairs).
  by eexists.
Qed.

Lemma parcel_tables_is_Ok c j i self sv :
  compute_data c j = Ok i → demand_complete i → x self = x_keys i →
  is_Ok (parcel_tables i self sv).
Proof.
  intros Hc Hd Hx. apply foldM_is_Ok. intros [[o p] h] a Ha. unfold parcel_step.
  apply is_Ok_bind; [|intros; by eexists].
  apply mapM_is_Ok. intros theta Ht.
  destruct (wf_parcel_inputs c j i self a theta Hc Hd Hx Ha Ht) as (Hreq & Hdem & Hin).
  by apply parcel_estimates_is_Ok.
Qed.

Lemma basic_results_zero_bound c j i self sv :
  compute_data c j = Ok i → demand_complete i → x self = x_keys i →
  (∃ region, region ∈ regions i ∧ ub_reg i !! region = Some 0) ∨ ub_global i = 0 →
  basic_results i self sv = Raise ZeroDivisionError.
Proof.
  intros Hc Hd Hx Hzero. pose proof (compute_data_wf _ _ _ Hc) as Hwf.
  unfold basic_results.
  destruct (hired_couriers_is_Ok i self sv Hx) as [hired ->]. simpl.
  destruct (parcel_tables_is_Ok c j i self sv Hc Hd Hx) as [[[o p] h] ->]. simpl.
  destruct (dict_comp (regional_pct i self sv) (regions i)) as [rp|e] eqn:Hrp; simpl.
  - destruct Hzero as [(region & Hr & Hub)|Hg].
    + destruct (dict_comp_lookup _ _ _ _ Hrp Hr) as (v & Hv & _).
      destruct (regional_pct_cases i self sv region Hwf Hx Hr) as (ub & Hub' & Hz & _).
      rewrite Hz in Hv by congruence. done.
    + rewrite Hg. by rewrite py_div_zero.
  - apply dict_comp_from_Raise_elem in Hrp as (region & Hr & Hf).
    destruct (regional_pct_cases i self sv region Hwf Hx Hr) as (ub & _ & _ & [[v Hv]|Hz]);
      congruence.
Qed.

Lemma build_x_keys i :
  (∀ self, build_base_model i = Ok self → x self = x_keys i) ∧
  (∀ self, build_fixed_model i = Ok self → x self = x_keys i) ∧
  (∀ self, wf_instance i → build_flexible_model i = Ok self → x self = x_keys i).
Proof.
  split; [|split].
  - intros self Hb.
    by destruct (build_base_model_Ok _ _ Hb) as (? & ? & ? & ? & _ & _ & _ & _ & ->).
  - intros self Hb.
    by destruct (build_fixed_model_Ok _ _ Hb) as (? & ? & ? & ? & _ & _ & ? & _).
  - intros self Hwf Hb.
    by destruct (build_flexible_model_members i self Hwf Hb) as (? & _ & ? & _).
Qed.

(** C9.  The two hired percentages are divided by [ub_reg[region] *
    n_periods] and [ub_global * n_periods] with no test of the divisor: for
    every derived instance (with complete data) in which some region has
    bound 0, or the global bound is 0, the extraction ends with
    [ZeroDivisionError] whatever the solved values are, and so do the
    solves of the base, fixed and flexible models. *)
Theorem hired_pct_divides_by_zero (c : invocation) (j : instance_json) (i : Instance) :
  compute_data c j = Ok i → demand_complete i →
  (∃ region, region ∈ regions i ∧ ub_reg i !! region = Some 0) ∨ ub_global i = 0 →
  (∀ self sv, x self = x_keys i →
     basic_results i self sv = Raise ZeroDivisionError) ∧
  (∀ optimize, n_scenarios i ≠ 0 →
     solve_base optimize i = Raise ZeroDivisionError ∧
     solve_fixed optimize i = Raise ZeroDivisionError ∧
     solve_flex optimize i = Raise ZeroDivisionError).
Proof.
  intros Hc Hd Hzero. pose proof (compute_data_wf _ _ _ Hc) as Hwf.
  destruct (build_x_keys i) as (Hxb & Hxf & Hxl).
  split.
  - intros self sv Hx. by eapply basic_results_zero_bound.
  - intros optimize Hn. split; [|split].
    + unfold solve_base.
      destruct (build_base_model_is_Ok i Hwf Hd Hn) as [self Hself].
      rewrite Hself. simpl. eapply basic_results_zero_bound; eauto.
    + unfold solve_fixed, fixed_results.
      destruct (build_fixed_model_is_Ok i Hwf Hd Hn) as [self Hself].
      rewrite Hself. simpl.
      rewrite (basic_results_zero_bound c j i self _ Hc Hd (Hxf _ Hself) Hzero). done.
    + unfold solve_flex, flex_results.
      destruct (build_flexible_model_is_Ok i Hwf Hd Hn) as [self Hself].
      rewrite Hself. simpl.
      rewrite (basic_results_zero_bound c j i self _ Hc Hd (Hxl _ Hwf Hself) Hzero). done.
Qed.

(** ** The theorems at the small instance *)

Ltac by_evaluation := apply (bool_decide_unpack _); vm_compute; exact I.
Ltac by_running := apply value_eq.

Lemma base_model_declares_witness :
  ∃ self, build_base_model toy_base = Ok self ∧
    {| key := var_x "a" 3; VType := INTEGER; LB := 0; UB := None; Obj := 1 |}
      ∈ m_vars (m self) ∧
    {| ConstrName := "set_omega";
       tc := ge_ (CMul 2 (V (var_omega "b" 7 1)))
                 (Mul (Mul (Sub (Num 2) (V (var_x "b" 7))) 10) (1 * 2)) |}
      ∈ m_constrs (m self).
Proof.
  destruct (base_model_declares (CommandLine (toy_args "base" None)) (toy_json 2 10) toy_base)
    as (self & Hself & Hx & _ & Hc & _).
  - by_running.
  - by_evaluation.
  - vm_compute. discriminate.
  - exists self. split; [done|]. split.
    + apply Hx; by_evaluation.
    + destruct (Hc "b" 7 1) as (r & d & Hr & Hd & Hin & _); try by_evaluation.
      vm_compute in Hr. vm_compute in Hd. injection Hr as <-. injection Hd as <-.
      exact Hin.
Defined.

Lemma derived_bounds_witness :
  ub_reg toy_bounds !! "r1" = Some 58 ∧ ub_reg toy_bounds !! "r2" = Some 28 ∧
  (∀ region, is_Some (ub_reg toy_bounds !! region) → region ∈ ["r1"; "r2"]) ∧
  ub_global toy_bounds = 129 ∧ 0 ≤ ub_global toy_bounds.
Proof.
  destruct (derived_bounds (CommandLine (toy_bounds_args (29 # 100)))
              toy_bounds_json toy_bounds)
    as (Hr & Hkeys & _ & Hg & Hpos).
  - by_running.
  - repeat split; by_evaluation.
  - destruct (Hr "r1") as (ras1 & Hras1 & _ & Hub1); [by_evaluation|].
    destruct (Hr "r2") as (ras2 & Hras2 & _ & Hub2); [by_evaluation|].
    vm_compute in Hras1. injection Hras1 as <-.
    vm_compute in Hras2. injection Hras2 as <-.
    split; [|split; [|split; [|split]]].
    + rewrite Hub1. vm_compute. reflexivity.
    + rewrite Hub2. vm_compute. reflexivity.
    + exact Hkeys.
    + rewrite Hg. vm_compute. reflexivity.
    + exact Hpos.
Defined.

(** C2, as stated, fails: with the multiplier 0.29 and 100 couriers
    required in the one area of region "r2", in every scenario and period,
    the instance is valid, the product is the double below 29 and the
    bound is 28, where the floor of 0.29 * 100 is 29. *)
Lemma derived_bounds_are_rounded :
  compute_data (CommandLine (toy_bounds_args (29 # 100))) toy_bounds_json = Ok toy_bounds ∧
  valid_instance toy_bounds ∧
  reg_areas toy_bounds !! "r2" = Some ["c"] ∧
  ub_reg toy_bounds !! "r2" = Some 28 ∧
  Qfloor (reg_multiplier toy_bounds * py_sum (mhat2 toy_bounds <$> ["c"])) = 29.
Proof.
  split; [by_running|]. split; [repeat split; by_evaluation|].
  repeat split; vm_compute; reflexivity.
Qed.


Lemma flex_flow_balance_witness :
  ∃ self yd, build_flexible_model toy_flex = Ok self ∧ y self = Some yd ∧
    {| ConstrName := "flow_balance_first_period";
       tc := eq_ (V (var_x "a" 0)) (V (var_zminus "a" 0)) |} ∈ m_constrs (m self) ∧
    ∀ sol, solution (m self) sol →
      (sol (var_x "b" 4) ==
       sol (var_x "b" 3) + moved_in sol yd "b" 4 - moved_out sol yd "b" 4
       + sol (var_zminus "b" 4) - sol (var_zplus "b" 3))%Q.
Proof.
  destruct (flex_flow_balance
              (CommandLine (toy_args "flex" None)) (toy_json 2 10) toy_flex)
    as (self & yd & Hself & Hy & [H0 Hpos] & Hsol & _).
  - by_running.
  - by_evaluation.
  - vm_compute. discriminate.
  - exists self, yd. split; [exact Hself|]. split; [exact Hy|]. split.
    + apply H0. by_evaluation.
    + intros sol Hs. destruct (Hsol sol Hs "b") as [_ Hb]; [by_evaluation|].
      apply (Hb 4); [by_evaluation|reflexivity].
Defined.

(** The instance of the specification's example, with the period count set
    to 6, ends the derivation with [NotImplementedError]. *)
Lemma shift_partition_only_for_eight_witness :
  get_shifts 8 (range 8) = Ok [[0; 1; 2; 3]; [4; 5; 6; 7]] ∧
  get_shifts 6 (range 6) = Raise NotImplementedError ∧
  compute_data (CommandLine (toy_args "flex" None)) six_periods_json
  = Raise NotImplementedError.
Proof.
  destruct shift_partition_only_for_eight as (H1 & H2 & _ & _ & H5 & _).
  split; [by apply H1|]. split; [by apply H2|].
  apply (H5 (CommandLine (toy_args "flex" None)) six_periods_json
            (1, 1, 2, "flex"%string)%Q
            (value (make_area_regs ["r"] ["a"] (make_reg_areas
                        (geography_city_regions six_periods_json))) I)
            (value (get_ubs (fill_required (j_scenarios six_periods_json))
                        (range 1) (range 6) ["a"] ["r"]
                        (make_reg_areas (geography_city_regions six_periods_json))
                        1 1) I)).
  - vm_compute. discriminate.
  - reflexivity.
  - by_running.
  - by_running.
Defined.

(** C5, as stated, fails: with a period count other than 8 the derivation
    can end with another exception than [NotImplementedError], because the
    bounds are computed before the shifts are looked at.  Nine periods on
    data with eight values per area end with [KeyError], and a period count
    of 0 ends with [ValueError]. *)
Lemma other_period_counts_fail_earlier :
  compute_data (CommandLine (toy_args "flex" None)) nine_periods_json
    = Raise KeyError ∧
  compute_data (CommandLine (toy_args "flex" None)) no_periods_json
    = Raise ValueError.
Proof. split; vm_compute; reflexivity. Qed.

(** C6, as stated, fails: partflex from the command line without the cap.
    The instance is derived, the flexible model and the link constraints
    are generated, and only the last statement of the construction
    raises. *)
Lemma partflex_without_cap_fails_late :
  compute_data (CommandLine (toy_args "partflex" None)) (toy_json 2 10)
    = Ok toy_partflex_nocap ∧
  (∃ self, build_flexible_model toy_partflex_nocap = Ok self ∧
           is_Ok (link_z_w toy_partflex_nocap self (range 5))) ∧
  build_partflex_model toy_partflex_nocap = Raise TypeError.
Proof.
  split; [by_running|]. split; [|vm_compute; reflexivity].
  exists (value (build_flexible_model toy_partflex_nocap) I).
  split; [by_running|]. apply returns_is_Ok. vm_compute. exact I.
Qed.

Lemma partflex_without_cap_witness :
  max_n_shifts toy_partflex_nocap = Some None ∧
  build_partflex_model toy_partflex_nocap = Raise TypeError.
Proof.
  destruct (partflex_without_cap (toy_json 2 10)) as (H1 & _ & _).
  destruct (H1 (toy_args "partflex" None) toy_partflex_nocap) as (Hn & _ & Hb).
  - reflexivity.
  - reflexivity.
  - by_running.
  - split; [exact Hn|].
    destruct Hb as (self & cs & _ & _ & Hr).
    + by_evaluation.
    + vm_compute. discriminate.
    + exact Hr.
Defined.

(** C7, as stated, fails when the clamp is read on the term of each
    scenario: with one courier required in scenario 0, three in scenario 1
    and two hired, the terms are -10 and 10/3; the program reports 0
    outsourced parcels (and 0 percent), the average of the clamped terms is
    5/3 (and 50/3 percent). *)
Lemma parcel_estimates_clamp_the_total :
  ∃ o p h,
    parcel_estimates toy_uneven toy_uneven_solver toy_run "a" 3 = Ok (o, p, h) ∧
    (o == 0)%Q ∧ (p == 0)%Q ∧
    (avg_outsourced_per_scenario toy_uneven 2 "a" 3 == 5 # 3)%Q ∧
    (avg_outsourced_pct_per_scenario toy_uneven 2 "a" 3 == 50 # 3)%Q.
Proof.
  assert (Hok : is_Ok (parcel_estimates toy_uneven toy_uneven_solver toy_run "a" 3)).
  { apply returns_is_Ok. vm_compute. exact I. }
  destruct Hok as [[[o p] h] Hv]. exists o, p, h. split; [exact Hv|].
  vm_compute in Hv. injection Hv as <- <- <-.
  split; [|split; [|split]]; vm_compute; reflexivity.
Qed.

(** Here the clamp is at work: the total over the two scenarios is
    negative. *)
Lemma parcel_estimates_average_witness :
  ∃ o p h,
    parcel_estimates toy_uneven toy_uneven_solver toy_run "a" 3 = Ok (o, p, h) ∧
    (o == 0)%Q ∧ (p == 0)%Q ∧ (h == 40 # 3)%Q.
Proof.
  destruct (parcel_estimates_average
              (CommandLine (toy_args "base" None)) toy_uneven_json
              toy_uneven toy_uneven_solver toy_run "a" 3)
    as (o & p & h & Hv & Ho & Hp & Hh & _).
  - by_running.
  - by_evaluation.
  - by_evaluation.
  - by_evaluation.
  - by_evaluation.
  - vm_compute. discriminate.
  - exists o, p, h. split; [exact Hv|]. split; [|split].
    + rewrite Ho. vm_compute. reflexivity.
    + rewrite Hp. vm_compute. reflexivity.
    + rewrite Hh. vm_compute. reflexivity.
Defined.

Lemma zero_required_reports_zero_witness :
  parcel_estimates toy_idle toy_idle_solver toy_solved "b" 2 = Ok (0, 0, 0)%Q.
Proof.
  destruct (zero_required_reports_zero
              (CommandLine (toy_args "base" None)) (toy_json 0 10)
              toy_idle toy_idle_solver toy_solved "b" 2) as (_ & H & _).
  - by_running.
  - by_evaluation.
  - by_evaluation.
  - intros s Hs. vm_compute in Hs.
    apply elem_of_cons in Hs as [->|Hs];
      [|apply list_elem_of_singleton in Hs as ->]; vm_compute; discriminate.
  - exact H.
Defined.

Lemma hired_pct_divides_by_zero_witness :
  ub_reg toy_small !! "r" = Some 0 ∧
  ∀ optimize, solve_base optimize toy_small = Raise ZeroDivisionError.
Proof.
  split; [vm_compute; reflexivity|].
  destruct (hired_pct_divides_by_zero
              (CommandLine (toy_args "base" None)) (toy_json (1 # 10) 10) toy_small)
    as (_ & H).
  - by_running.
  - by_evaluation.
  - left. exists "r"%string. split; by_evaluation.
  - intros optimize. destruct (H optimize) as (Hb & _ & _).
    + vm_compute. discriminate.
    + exact Hb.
Defined.

Lemma programmatic_cap_is_lost_witness :
  max_n_shift toy_programmatic = Some (Some 2) ∧
  max_n_shifts toy_programmatic = None ∧
  build_partflex_model toy_programmatic = Raise AttributeError.
Proof.
  destruct (programmatic_cap_is_lost toy_kwargs (toy_json 2 10) toy_programmatic (Some 2))
    as (H1 & H2 & _ & H4).
  - reflexivity.
  - reflexivity.
  - by_running.
  - split; [exact H1|]. split; [exact H2|]. apply H4.
    + by_evaluation.
    + vm_compute. discriminate.
Defined.

(** * Further properties of the code *)

(** ** The structure of the four models *)

Lemma close_at_nil v : close_at [] v = v.
Proof.
  unfold close_at. destruct (decide (key v ∈ [])) as [Hin|]; [|done].
  by apply elem_of_nil in Hin.
Qed.

Lemma close_at_key keys v : key (close_at keys v) = key v.
Proof. unfold close_at. by destruct (decide (key v ∈ keys)). Qed.

Lemma close_at_cons k keys v :
  close_at keys (close_at [k] v) = close_at (k :: keys) v.
Proof.
  unfold close_at at 2.
  destruct (decide (key v ∈ [k])) as [Hk|Hk].
  - unfold close_at. simpl.
    destruct (decide (key v ∈ keys)), (decide (key v ∈ k :: keys)) as [|Hn];
      try done.
    all: destruct Hn; apply list_elem_of_singleton in Hk as ->; left.
  - unfold close_at.
    destruct (decide (key v ∈ keys)) as [Hin|Hin],
             (decide (key v ∈ k :: keys)) as [Hin'|Hin']; try done.
    + destruct Hin'. by right.
    + apply elem_of_cons in Hin' as [Heq|?]; [|done].
      destruct Hk. rewrite Heq. left.
Qed.

Lemma foldM_set_UB {A} (mk : A → var) (chk : A → result linexpr) l md md' :
  foldM (λ md k, _ ← chk k; Ok (set_UB (mk k) 0 md)) l md = Ok md' →
  m_constrs md' = m_constrs md ∧
  m_vars md' = close_at (mk <$> l) <$> m_vars md.
Proof.
  revert md. induction l as [|k l IH]; intros md Hf; simpl in Hf.
  - injection Hf as <-. split; [done|].
    rewrite <- (list_fmap_id (m_vars md)) at 1. apply list_fmap_ext.
    intros n v _. simpl. by rewrite close_at_nil.
  - inv_bind Hf. inv_bind E. injection E as <-.
    destruct (IH _ Hf) as [Hc Hv]. split; [done|].
    rewrite Hv. simpl. rewrite <- list_fmap_compose. apply list_fmap_ext.
    intros n v _. simpl. rewrite <- close_at_cons. f_equal.
    unfold close_at. destruct (decide (key v = mk k)) as [Hk|Hk].
    + rewrite decide_True; [done|]. rewrite Hk. left.
    + rewrite decide_False; [done|]. by intros ?%list_elem_of_singleton.
Qed.

Lemma foldM_ext {A B} (f g : B → A → result B) l b :
  (∀ b a, f b a = g b a) → foldM f l b = foldM g l b.
Proof.
  intros Hfg. revert b. induction l as [|a l IH]; intros b; simpl; [done|].
  rewrite Hfg. destruct (g b a); simpl; [apply IH|done].
Qed.

Lemma close_zminus_vars i zm n md md' :
  close_zminus i zm n md = Ok md' →
  m_vars md' =
    close_at ((λ k : Z * string, var_zminus k.2 k.1) <$>
              (theta ← range2 (n_periods i - n + 1) (n_periods i);
               a ← areas i; [(theta, a)])) <$> m_vars md.
Proof.
  unfold close_zminus. intros Hf.
  apply (foldM_set_UB (λ k : Z * string, var_zminus k.2 k.1)
           (λ k, td_get vzminus zm (k.2, k.1))).
  rewrite <- Hf. apply foldM_ext. by intros b [theta a].
Qed.

Lemma close_zplus_vars i zp n md md' :
  close_zplus i zp n md = Ok md' →
  m_vars md' =
    close_at ((λ k : Z * string, var_zplus k.2 k.1) <$>
              (theta ← range (n - 1); a ← areas i; [(theta, a)])) <$> m_vars md.
Proof.
  unfold close_zplus. intros Hf.
  apply (foldM_set_UB (λ k : Z * string, var_zplus k.2 k.1)
           (λ k, td_get vzplus zp (k.2, k.1))).
  rewrite <- Hf. apply foldM_ext. by intros b [theta a].
Qed.

(** The flexible model, in full. *)
Lemma build_flexible_model_Ok i self :
  wf_instance i → build_flexible_model i = Ok self →
  ∃ base yi cs5 cs6,
    build_base_model i = Ok base ∧ y_idx i = Ok yi ∧
    fix_region_flex i (x_keys i) (x_keys i) 4 = Ok cs5 ∧
    x self = x_keys i ∧ omega self = omega_keys i ∧ y self = Some yi ∧
    zplus self = Some (x_keys i) ∧ zminus self = Some (x_keys i) ∧ w self = None ∧
    m_vars (m self) =
      close_at ((λ k : Z * string, var_zplus k.2 k.1) <$>
                (theta ← range 3; a ← areas i; [(theta, a)])) <$>
      (close_at ((λ k : Z * string, var_zminus k.2 k.1) <$>
                 (theta ← range2 5 8; a ← areas i; [(theta, a)])) <$>
       (((m_vars (m base) ++ (mkVar INTEGER 0 EPS ∘ vy <$> yi))
         ++ (mkVar INTEGER 0 0 ∘ vzplus <$> x_keys i))
        ++ (mkVar INTEGER 0 0 ∘ vzminus <$> x_keys i))) ∧
    m_constrs (m self) =
      ((m_constrs (m base)
        ++ (Build_Constr "fix_region_n_couriers_in_shift" <$> cs5))
       ++ (Build_Constr "flow_balance" <$> cs6))
      ++ (Build_Constr "flow_balance_first_period" <$>
          ((λ a, eq_ (V (var_x a 0)) (V (var_zminus a 0))) <$> areas i)).
Proof.
  intros Hwf. unfold build_flexible_model. intros Hb.
  inv_bind Hb. rename v into base.
  pose proof E as Hbase.
  destruct (build_base_model_Ok _ _ E) as (? & ? & ? & ? & _ & _ & _ & _ & Hbeq).
  inv_bind Hb. apply add_y_vars_Ok in E0 as (yi & Hyi & ->).
  cbn [x omega y zplus zminus w m] in Hb.
  rewrite decide_True in Hb by apply (wf_n_periods i Hwf).
  inv_bind Hb. rename v into m3. inv_bind Hb. rename v into m4.
  pose proof (close_zminus_Ok _ _ _ _ _ E0) as Hc3.
  pose proof (close_zminus_vars _ _ _ _ _ E0) as Hv3.
  pose proof (close_zplus_Ok _ _ _ _ _ E1) as Hc4.
  pose proof (close_zplus_vars _ _ _ _ _ E1) as Hv4.
  rewrite (wf_n_periods i Hwf) in Hv3.
  change (8 - 4 + 1) with 5 in Hv3. change (4 - 1) with 3 in Hv4.
  inv_bind Hb. apply addConstrs_Ok in E2 as (cs5 & H5 & ->).
  inv_bind Hb. apply addConstrs_Ok in E2 as (cs6 & H6 & ->).
  inv_bind Hb. apply addConstrs_Ok in E2 as (cs7 & H7 & ->).
  injection Hb as <-. exists base, yi, cs5, cs6.
  cbn [x omega y zplus zminus w m with_m m_constrs m_vars].
  match type of H7 with flow_balance_first_period i ?s _ = _ => set (s0 := s) in * end.
  pose proof (flow_balance_first_period_Ok i s0 Hwf) as H7'.
  unfold x_keys in H7'. rewrite H7' in H7 by (subst base; reflexivity).
  injection H7 as <-.
  rewrite Hv4, Hv3, Hc4, Hc3. subst base.
  repeat split; done.
Qed.

(** The partflex model, in full. *)
Lemma build_partflex_model_full i self' :
  wf_instance i → build_partflex_model i = Ok self' →
  ∃ self cs cap,
    build_flexible_model i = Ok self ∧
    link_z_w i self (range 5) = Ok cs ∧
    max_n_shifts i = Some (Some cap) ∧
    x self' = x self ∧ y self' = y self ∧
    zplus self' = zplus self ∧ zminus self' = zminus self ∧
    w self' = Some (range 5) ∧
    m_vars (m self') = m_vars (m self) ++ (mkVar BINARY 0 0 ∘ vw <$> range 5) ∧
    m_constrs (m self') =
      (m_constrs (m self) ++ (Build_Constr "link_z_w" <$> cs))
      ++ [Build_Constr "limit_n_shifts"
            (le_ (td_sum vw (range 5) (λ _, true)) (Num (inject_Z cap)))].
Proof.
  intros Hwf. unfold build_partflex_model. intros Hb.
  inv_bind Hb. rename v into self.
  rewrite decide_True in Hb by apply (wf_n_periods i Hwf).
  rewrite (wf_n_periods i Hwf) in Hb. change (8 - 4 + 1) with 5 in Hb.
  inv_bind Hb. apply addConstrs_Ok in E0 as (cs & Hcs & ->).
  inv_bind Hb. injection Hb as <-.
  unfold shift_cap in E0.
  destruct (max_n_shifts i) as [[cap|]|] eqn:Hm; simpl in E0; try done.
  injection E0 as <-. exists self, cs, cap. by repeat split.
Qed.

Lemma close_at_other keys v : key v ∉ keys → close_at keys v = v.
Proof. intros Hk. unfold close_at. by rewrite decide_False. Qed.

Lemma close_at_elem keys (l : list Var) v :
  v ∈ l → key v ∉ keys → v ∈ close_at keys <$> l.
Proof.
  intros Hv Hk. rewrite <- (close_at_other keys v Hk).
  by apply list_elem_of_fmap_2.
Qed.

Lemma x_not_closed (k : string * Z) (l : list (Z * string)) :
  (vx k ∉ (λ k : Z * string, var_zminus k.2 k.1) <$> l) ∧
  (vx k ∉ (λ k : Z * string, var_zplus k.2 k.1) <$> l).
Proof. split; intros (? & ? & _)%list_elem_of_fmap; done. Qed.

(** Every model holds the constraints of the base model and the
    declarations of [x]. *)
Lemma built_base i self :
  wf_instance i → built i self →
  ∃ base, build_base_model i = Ok base ∧ x self = x_keys i ∧
    (∀ c, c ∈ m_constrs (m base) → c ∈ m_constrs (m self)) ∧
    (∀ k, k ∈ x_keys i → mkVar INTEGER 0 1 (vx k) ∈ m_vars (m self)).
Proof.
  intros Hwf.
  assert (Hxb : ∀ base k, build_base_model i = Ok base → k ∈ x_keys i →
    mkVar INTEGER 0 1 (vx k) ∈ m_vars (m base)).
  { intros base k Hb Hk.
    destruct (build_base_model_Ok _ _ Hb) as (? & ? & ? & ? & _ & _ & _ & _ & ->).
    simpl. apply elem_of_app. left. by apply (list_elem_of_fmap_2' _ _ k). }
  assert (Hflex : ∀ self, build_flexible_model i = Ok self →
    ∃ base, build_base_model i = Ok base ∧ x self = x_keys i ∧
      (∀ c, c ∈ m_constrs (m base) → c ∈ m_constrs (m self)) ∧
      (∀ k, k ∈ x_keys i → mkVar INTEGER 0 1 (vx k) ∈ m_vars (m self))).
  { intros s Hs.
    destruct (build_flexible_model_Ok i s Hwf Hs)
      as (base & yi & cs5 & cs6 & Hb & _ & _ & Hx & _ & _ & _ & _ & _ & Hv & Hc).
    exists base. split; [done|]. split; [done|]. split.
    - intros c Hin. rewrite Hc. rewrite !elem_of_app. auto.
    - intros k Hk. rewrite Hv.
      apply close_at_elem; [|apply (x_not_closed k)].
      apply close_at_elem; [|apply (x_not_closed k)].
      rewrite !elem_of_app. auto. }
  intros [Hb|[Hb|[Hb|Hb]]].
  - exists self. split; [done|]. split; [|split; [done|]].
    + by destruct (build_base_model_Ok _ _ Hb) as (? & ? & ? & ? & _ & _ & _ & _ & ->).
    + intros k Hk. by apply Hxb.
  - pose proof Hb as Hb'. unfold build_fixed_model in Hb'.
    inv_bind Hb'. rename v into base.
    inv_bind Hb'. apply add_y_vars_Ok in E0 as (yi & Hyi & ->).
    inv_bind Hb'. apply addConstrs_Ok in E0 as (cs1 & H1 & ->).
    inv_bind Hb'. apply addConstrs_Ok in E0 as (cs2 & H2 & ->).
    injection Hb' as <-. exists base. split; [done|]. simpl. split; [|split].
    + by destruct (build_base_model_Ok _ _ E) as (? & ? & ? & ? & _ & _ & _ & _ & ->).
    + intros c Hin. rewrite !elem_of_app. auto.
    + intros k Hk. apply elem_of_app. left. by apply Hxb.
  - by apply Hflex.
  - destruct (build_partflex_model_full i self Hwf Hb)
      as (s & cs & cap & Hs & _ & _ & Hx & _ & _ & _ & _ & Hv & Hc).
    destruct (Hflex s Hs) as (base & Hbase & Hxs & Hcs & Hvs).
    exists base. split; [done|]. split; [congruence|]. split.
    + intros c Hin. rewrite Hc, !elem_of_app. auto.
    + intros k Hk. rewrite Hv, elem_of_app. auto.
Qed.

Lemma reg_bound_elem i cs region theta :
  wf_instance i → reg_bound i (x_keys i) = Ok cs →
  region ∈ regions i → theta ∈ periods i →
  ∃ ras ub, reg_areas i !! region = Some ras ∧ ub_reg i !! region = Some ub ∧
    le_ (lin_sum ((λ a, V (var_x a theta)) <$> ras)) (Num (inject_Z ub)) ∈ cs.
Proof.
  intros Hwf Hcs Hr Ht.
  assert (Hk : (region, theta) ∈ (r ← regions i; t ← periods i; [(r, t)]))
    by by apply elem_of_pairs.
  destruct (mapM_Ok_elem _ _ _ _ Hcs Hk) as (c & Hc & Hin). simpl in Hc.
  destruct (wf_reg_areas i Hwf _ Hr) as (ras & Hras & Hsub).
  destruct (wf_ub_reg i Hwf _ Hr) as [ub Hub].
  exists ras, ub. split; [done|]. split; [done|].
  unfold subscript in Hc. rewrite Hras, Hub in Hc. simpl in Hc.
  rewrite mapM_td_get_x in Hc by done. simpl in Hc. by injection Hc as <-.
Qed.

Lemma global_bound_elem i cs theta :
  global_bound i (x_keys i) = Ok cs → theta ∈ periods i →
  le_ (td_sum vx (x_keys i) (λ k, bool_decide (k.2 = theta)))
      (Num (inject_Z (ub_global i))) ∈ cs.
Proof.
  intros Hcs Ht.
  destruct (mapM_Ok_elem _ _ _ _ Hcs Ht) as (c & Hc & Hin).
  by injection Hc as <-.
Qed.

(** ** The two hiring caps *)

(** X1.  Every one of the four models contains, for every region and
    period, the constraint [sum of x over the region's areas <=
    ub_reg[region]]; so in every solution of any of them the couriers hired
    in a region at a period do not exceed the regional bound. *)
Theorem regional_bound_in_every_model (c : invocation) (j : instance_json)
    (i : Instance) (self : Solver) :
  compute_data c j = Ok i → built i self →
  ∀ region theta, region ∈ regions i → theta ∈ periods i →
    ∃ ras ub, reg_areas i !! region = Some ras ∧ ub_reg i !! region = Some ub ∧
      {| ConstrName := "reg_bound";
         tc := le_ (lin_sum ((λ a, V (var_x a theta)) <$> ras))
                   (Num (inject_Z ub)) |} ∈ m_constrs (m self) ∧
      ∀ sol, solution (m self) sol →
        (region_total sol ras theta <= inject_Z ub)%Q.
Proof.
  intros Hc Hb region theta Hr Ht. pose proof (compute_data_wf _ _ _ Hc) as Hwf.
  destruct (built_base i self Hwf Hb) as (base & Hbase & _ & Hsub & _).
  destruct (build_base_model_Ok _ _ Hbase)
    as (obj & cs1 & cs2 & cs3 & _ & H1 & _ & _ & Heq).
  destruct (reg_bound_elem i cs1 region theta Hwf H1 Hr Ht)
    as (ras & ub & Hras & Hub & Hin).
  assert (Hmem : {| ConstrName := "reg_bound";
         tc := le_ (lin_sum ((λ a, V (var_x a theta)) <$> ras))
                   (Num (inject_Z ub)) |} ∈ m_constrs (m self)).
  { apply Hsub. rewrite Heq. simpl. rewrite !elem_of_app. left. left.
    by apply (list_elem_of_fmap_2 (Build_Constr "reg_bound")). }
  exists ras, ub. split; [done|]. split; [done|]. split; [done|].
  intros sol Hsol. pose proof (solution_constr _ _ _ Hsol Hmem) as Hh.
  unfold holds in Hh. cbn [tc le_ csense lhs rhs] in Hh.
  by rewrite eval_x_sum in Hh.
Qed.

Lemma remove_dups_NoDup {A} `{EqDecision A} (l : list A) :
  NoDup l → remove_dups l = l.
Proof.
  induction 1 as [|a l Hin _ IH]; simpl; [done|].
  destruct (decide_rel elem_of a l) as [|_]; [done|]. by rewrite IH.
Qed.

Lemma filter_period_none (a : string) (ps : list Z) theta :
  theta ∉ ps →
  filter (λ k : string * Z, bool_decide (k.2 = theta) = true)
         (t ← ps; [(a, t)]) = [].
Proof.
  induction ps as [|t ps IH]; [done|]. intros [Hne Hnin]%not_elem_of_cons.
  rewrite bind_cons. simpl. rewrite filter_cons, decide_False, IH; [done|done|].
  simpl. rewrite bool_decide_false; [done|congruence].
Qed.

Lemma filter_period_one (a : string) (ps : list Z) theta :
  NoDup ps → theta ∈ ps →
  filter (λ k : string * Z, bool_decide (k.2 = theta) = true)
         (t ← ps; [(a, t)]) = [(a, theta)].
Proof.
  induction 1 as [|t ps Hnin Hnd IH]; [by intros ?%elem_of_nil|].
  intros Hin. rewrite bind_cons. simpl. rewrite filter_cons.
  destruct (decide (t = theta)) as [->|Hne].
  - rewrite decide_True by (simpl; by rewrite bool_decide_true).
    by rewrite filter_period_none.
  - rewrite decide_False by (simpl; rewrite bool_decide_false; done).
    apply IH. apply elem_of_cons in Hin as [?|?]; [congruence|done].
Qed.

Lemma filter_period_keys (ars : list string) (ps : list Z) theta :
  NoDup ps → theta ∈ ps →
  filter (λ k : string * Z, bool_decide (k.2 = theta) = true)
         (a ← ars; t ← ps; [(a, t)]) = (λ a, (a, theta)) <$> ars.
Proof.
  intros Hnd Hin. induction ars as [|a ars IH]; [done|].
  rewrite bind_cons, filter_app, IH, filter_period_one by done. done.
Qed.

Lemma NoDup_x_keys i : NoDup (areas i) → NoDup (periods i) → NoDup (x_keys i).
Proof.
  intros Ha Hp. unfold x_keys. apply NoDup_bind; [| |done].
  - intros a1 a2 [a t] _ _ (t1 & H1 & _)%list_elem_of_bind (t2 & H2 & _)%list_elem_of_bind.
    apply list_elem_of_singleton in H1, H2. congruence.
  - intros a _. apply NoDup_bind; [| |done].
    + intros t1 t2 [a' t] _ _ H1%list_elem_of_singleton H2%list_elem_of_singleton.
      congruence.
    + intros t _. apply NoDup_singleton.
Qed.

(** With distinct area identifiers [x.sum('*', theta)] is the sum over the
    areas. *)
Lemma period_total_areas sol i theta :
  NoDup (areas i) → NoDup (periods i) → theta ∈ periods i →
  period_total sol i theta = region_total sol (areas i) theta.
Proof.
  intros Ha Hp Ht. unfold period_total, region_total.
  rewrite remove_dups_NoDup by by apply NoDup_x_keys.
  unfold x_keys. rewrite filter_period_keys by done.
  by rewrite <- list_fmap_compose.
Qed.

(** X2.  Every one of the four models contains, for every period, the
    constraint [x.sum('*', theta) <= ub_global]; so in every solution the
    couriers hired over all the areas at a period do not exceed the global
    bound (with distinct area identifiers, the sum over the areas). *)
Theorem global_bound_in_every_model (c : invocation) (j : instance_json)
    (i : Instance) (self : Solver) :
  compute_data c j = Ok i → built i self →
  ∀ theta, theta ∈ periods i →
    {| ConstrName := "global_bound";
       tc := le_ (td_sum vx (x_keys i) (λ k, bool_decide (k.2 = theta)))
                 (Num (inject_Z (ub_global i))) |} ∈ m_constrs (m self) ∧
    ∀ sol, solution (m self) sol →
      (period_total sol i theta <= inject_Z (ub_global i))%Q ∧
      (NoDup (areas i) →
       (region_total sol (areas i) theta <= inject_Z (ub_global i))%Q).
Proof.
  intros Hc Hb theta Ht. pose proof (compute_data_wf _ _ _ Hc) as Hwf.
  destruct (built_base i self Hwf Hb) as (base & Hbase & _ & Hsub & _).
  destruct (build_base_model_Ok _ _ Hbase)
    as (obj & cs1 & cs2 & cs3 & _ & _ & H2 & _ & Heq).
  pose proof (global_bound_elem i cs2 theta H2 Ht) as Hin.
  assert (Hmem : {| ConstrName := "global_bound";
       tc := le_ (td_sum vx (x_keys i) (λ k, bool_decide (k.2 = theta)))
                 (Num (inject_Z (ub_global i))) |} ∈ m_constrs (m self)).
  { apply Hsub. rewrite Heq. simpl. rewrite !elem_of_app. left. right.
    by apply (list_elem_of_fmap_2 (Build_Constr "global_bound")). }
  split; [done|]. intros sol Hsol.
  pose proof (solution_constr _ _ _ Hsol Hmem) as Hh.
  unfold holds in Hh. cbn [tc le_ csense lhs rhs] in Hh.
  rewrite eval_td_sum in Hh. cbn [eval] in Hh.
  split; [exact Hh|]. intros Hnd.
  rewrite <- (period_total_areas sol i theta); [exact Hh|done| |done].
  rewrite (wf_periods i Hwf). apply NoDup_seqZ.
Qed.

(** ** Movement between the areas of a region *)

Lemma flow_balance_fixed_elem i self yd cs a shift theta :
  wf_instance i → x self = x_keys i → y self = Some yd →
  flow_balance_fixed i self = Ok cs →
  a ∈ areas i → shift ∈ shifts i → theta ∈ tail shift →
  eq_ (V (var_x a theta))
      (Sub (Add (V (var_x a (theta - 1))) (y_into yd a theta))
           (y_out_of yd a theta)) ∈ cs.
Proof.
  intros Hwf Hx Hy Hcs Ha Hs Ht. unfold flow_balance_fixed in Hcs.
  inv_bind Hcs. injection Hcs as <-.
  destruct (wf_area_regs i Hwf a Ha) as (region & ras & _ & Hr & Hras & Hin).
  destruct (mapM_Ok_elem _ _ _ _ E Hr) as (row & Hrow & Hrin).
  unfold subscript in Hrow. rewrite Hras in Hrow. simpl in Hrow.
  assert (Hk : (a, theta) ∈
    (a1 ← ras; shift ← shifts i; theta ← tail shift; [(a1, theta)])).
  { apply list_elem_of_bind. exists a. split; [|done].
    apply list_elem_of_bind. exists shift. split; [|done].
    apply list_elem_of_bind. exists theta. split; [|done].
    by apply list_elem_of_singleton. }
  destruct (mapM_Ok_elem _ _ _ _ Hrow Hk) as (c & Hc & Hcin). simpl in Hc.
  destruct (wf_shift_tail i _ _ Hwf Hs Ht) as (Hts & Hpred & _).
  rewrite Hx, Hy in Hc.
  rewrite (td_get_elem vx (x_keys i) (a, theta)) in Hc
    by (apply elem_of_pairs; eauto using wf_shift_elem).
  rewrite (td_get_elem vx (x_keys i) (a, theta - 1)) in Hc
    by (by apply elem_of_pairs).
  simpl in Hc. injection Hc as <-. by apply (elem_of_concat _ _ _ Hrin).
Qed.

(** X3.  In the fixed model, for every area and every period of a shift
    after its first, the staffing is the staffing of the period before plus
    the couriers moved in minus the couriers moved out: the constraint
    [x[a,theta] == x[a,theta-1] + y.sum('*',a,theta) - y.sum(a,'*',theta)] is
    present and holds with equality in every solution. *)
Theorem fixed_model_flow_balance (c : invocation) (j : instance_json) (i : Instance) :
  compute_data c j = Ok i → demand_complete i → n_scenarios i ≠ 0 →
  ∃ self yd, build_fixed_model i = Ok self ∧ y self = Some yd ∧
    ∀ a shift theta, a ∈ areas i → shift ∈ shifts i → theta ∈ tail shift →
      {| ConstrName := "flow_balance";
         tc := eq_ (V (var_x a theta))
                   (Sub (Add (V (var_x a (theta - 1))) (y_into yd a theta))
                        (y_out_of yd a theta)) |} ∈ m_constrs (m self) ∧
      ∀ sol, solution (m self) sol →
        (sol (var_x a theta) ==
         sol (var_x a (theta - 1)) + moved_in sol yd a theta
         - moved_out sol yd a theta)%Q.
Proof.
  intros Hc Hd Hn. pose proof (compute_data_wf _ _ _ Hc) as Hwf.
  destruct (build_fixed_model_is_Ok i Hwf Hd Hn) as [self Hself].
  destruct (build_fixed_model_Ok _ _ Hself)
    as (base & yd & cs1 & cs2 & _ & _ & Hx & Hy & _ & H2 & Hcs).
  exists self, yd. split; [done|]. split; [done|].
  intros a shift theta Ha Hs Ht.
  pose proof (flow_balance_fixed_elem i self yd cs2 a shift theta
                Hwf Hx Hy H2 Ha Hs Ht) as Hin.
  assert (Hmem : {| ConstrName := "flow_balance";
         tc := eq_ (V (var_x a theta))
                   (Sub (Add (V (var_x a (theta - 1))) (y_into yd a theta))
                        (y_out_of yd a theta)) |} ∈ m_constrs (m self)).
  { rewrite Hcs. apply elem_of_app. right.
    by apply (list_elem_of_fmap_2 (Build_Constr "flow_balance")). }
  split; [done|]. intros sol Hsol.
  pose proof (solution_constr _ _ _ Hsol Hmem) as Hh.
  unfold holds in Hh. cbn [tc eq_ csense lhs rhs eval] in Hh.
  unfold y_into, y_out_of in Hh. rewrite !eval_td_sum in Hh. exact Hh.
Qed.

Lemma built_y i self :
  wf_instance i →
  build_fixed_model i = Ok self ∨ build_flexible_model i = Ok self →
  ∃ yd, y_idx i = Ok yd ∧ y self = Some yd ∧
    ∀ k, k ∈ yd → mkVar INTEGER 0 EPS (vy k) ∈ m_vars (m self).
Proof.
  intros Hwf [Hb|Hb].
  - unfold build_fixed_model in Hb. inv_bind Hb. rename v into base.
    inv_bind Hb. apply add_y_vars_Ok in E0 as (yi & Hyi & ->).
    inv_bind Hb. apply addConstrs_Ok in E0 as (cs1 & H1 & ->).
    inv_bind Hb. apply addConstrs_Ok in E0 as (cs2 & H2 & ->).
    injection Hb as <-. exists yi. split; [done|]. split; [done|].
    intros k Hk. simpl. apply elem_of_app. right.
    by apply (list_elem_of_fmap_2' _ _ k).
  - destruct (build_flexible_model_Ok i self Hwf Hb)
      as (base & yi & cs5 & cs6 & _ & Hyi & _ & _ & _ & Hy & _ & _ & _ & Hv & _).
    exists yi. split; [done|]. split; [done|].
    intros k Hk. rewrite Hv.
    apply close_at_elem; [|intros (? & ? & _)%list_elem_of_fmap; done].
    apply close_at_elem; [|intros (? & ? & _)%list_elem_of_fmap; done].
    rewrite !elem_of_app. left. left. right.
    by apply (list_elem_of_fmap_2' _ _ k).
Qed.

(** X4.  In the fixed and the flexible models a movement variable
    [y[a1,a2,theta]] exists exactly for the ordered pairs of distinct areas
    with the same region, at every period; each is declared as an integer
    variable with lower bound 0 and objective coefficient [EPS], so it is a
    non-negative integer in every solution. *)
Theorem movement_variables (c : invocation) (j : instance_json)
    (i : Instance) (self : Solver) :
  compute_data c j = Ok i →
  build_fixed_model i = Ok self ∨ build_flexible_model i = Ok self →
  ∃ yd, y self = Some yd ∧
    ∀ a1 a2 theta,
      ((a1, a2, theta) ∈ yd ↔
       a1 ∈ areas i ∧ a2 ∈ areas i ∧ theta ∈ periods i ∧ a1 ≠ a2 ∧
       area_regs i !! a1 = area_regs i !! a2) ∧
      ((a1, a2, theta) ∈ yd →
       {| key := var_y a1 a2 theta; VType := INTEGER; LB := 0; UB := None;
          Obj := EPS |} ∈ m_vars (m self) ∧
       ∀ sol, solution (m self) sol →
         (0 <= sol (var_y a1 a2 theta))%Q ∧ integral (sol (var_y a1 a2 theta))).
Proof.
  intros Hc Hb. pose proof (compute_data_wf _ _ _ Hc) as Hwf.
  destruct (built_y i self Hwf Hb) as (yd & Hyi & Hy & Hv).
  exists yd. split; [done|]. intros a1 a2 theta.
  split; [by apply y_idx_elem|]. intros Hin.
  pose proof (Hv _ Hin) as Hmem. split; [exact Hmem|].
  intros sol Hsol. destruct (solution_var _ _ _ Hsol Hmem) as (Hlb & _ & Hint).
  by split.
Qed.

(** ** Shift starts and shift ends in the flexible model *)

Lemma close_at_closed keys (l : list Var) v :
  v ∈ l → key v ∈ keys →
  {| key := key v; VType := VType v; LB := LB v; UB := Some 0%Q; Obj := Obj v |}
    ∈ close_at keys <$> l.
Proof.
  intros Hv Hk. apply list_elem_of_fmap. exists v. split; [|done].
  unfold close_at. by rewrite decide_True.
Qed.

Lemma closed_is_zero sol v :
  within sol v → LB v = 0%Q → UB v = Some 0%Q → (sol (key v) == 0)%Q.
Proof.
  intros (Hlb & Hub & _) Hl Hu. rewrite Hl in Hlb.
  apply Qle_antisym; [by apply Hub|done].
Qed.

(** X5.  In the flexible model no shift can start in the last three periods
    and none can end in the first three: [zminus[a,theta]] has upper bound
    0 for [theta] in 5..7 and [zplus[a,theta]] for [theta] in 0..2, at every
    area, so both are 0 in every solution. *)
Theorem flex_model_closed_periods (c : invocation) (j : instance_json)
    (i : Instance) (self : Solver) :
  compute_data c j = Ok i → build_flexible_model i = Ok self →
  ∀ a theta, a ∈ areas i →
    (5 ≤ theta < 8 →
       {| key := var_zminus a theta; VType := INTEGER; LB := 0; UB := Some 0%Q;
          Obj := 0 |} ∈ m_vars (m self) ∧
       ∀ sol, solution (m self) sol → (sol (var_zminus a theta) == 0)%Q) ∧
    (0 ≤ theta < 3 →
       {| key := var_zplus a theta; VType := INTEGER; LB := 0; UB := Some 0%Q;
          Obj := 0 |} ∈ m_vars (m self) ∧
       ∀ sol, solution (m self) sol → (sol (var_zplus a theta) == 0)%Q).
Proof.
  intros Hc Hb a theta Ha. pose proof (compute_data_wf _ _ _ Hc) as Hwf.
  destruct (build_flexible_model_Ok i self Hwf Hb)
    as (base & yi & cs5 & cs6 & _ & _ & _ & _ & _ & _ & _ & _ & _ & Hv & _).
  split; intros Ht.
  - assert (Hmem : {| key := var_zminus a theta; VType := INTEGER; LB := 0;
                      UB := Some 0%Q; Obj := 0 |} ∈ m_vars (m self)).
    { rewrite Hv.
      apply close_at_elem; [|intros (? & ? & _)%list_elem_of_fmap; done].
      apply (close_at_closed _ _ (mkVar INTEGER 0 0 (vzminus (a, theta)))).
      - apply elem_of_app. right.
        apply (list_elem_of_fmap_2' _ _ (a, theta)); [|done].
        apply elem_of_pairs. split; [done|]. apply wf_period_range; [done|lia].
      - apply (list_elem_of_fmap_2' _ _ (theta, a)); [|done].
        apply elem_of_pairs. split; [|done]. apply elem_of_seqZ. lia. }
    split; [done|]. intros sol Hsol.
    by apply (closed_is_zero sol _ (solution_var _ _ _ Hsol Hmem)).
  - assert (Hmem : {| key := var_zplus a theta; VType := INTEGER; LB := 0;
                      UB := Some 0%Q; Obj := 0 |} ∈ m_vars (m self)).
    { rewrite Hv.
      apply (close_at_closed _ _ (mkVar INTEGER 0 0 (vzplus (a, theta)))).
      - apply close_at_elem; [|intros (? & ? & _)%list_elem_of_fmap; done].
        apply elem_of_app. left. apply elem_of_app. right.
        apply (list_elem_of_fmap_2' _ _ (a, theta)); [|done].
        apply elem_of_pairs. split; [done|]. apply wf_period_range; [done|lia].
      - apply (list_elem_of_fmap_2' _ _ (theta, a)); [|done].
        apply elem_of_pairs. split; [|done]. apply elem_of_seqZ. lia. }
    split; [done|]. intros sol Hsol.
    by apply (closed_is_zero sol _ (solution_var _ _ _ Hsol Hmem)).
Qed.

Lemma fix_region_flex_elem i cs region theta :
  wf_instance i → fix_region_flex i (x_keys i) (x_keys i) 4 = Ok cs →
  region ∈ regions i → 0 ≤ theta < 5 →
  ∃ ras, reg_areas i !! region = Some ras ∧
    eq_ (lin_sum ((λ a, V (var_zminus a theta)) <$> ras))
        (lin_sum ((λ a, V (var_zplus a (theta + 3))) <$> ras)) ∈ cs.
Proof.
  intros Hwf Hcs Hr Ht.
  assert (Hk : (region, theta) ∈
    (region ← regions i;
     theta ← filter (λ theta, theta < n_periods i + 1 - 4) (periods i);
     [(region, theta)])).
  { apply elem_of_pairs. split; [done|]. apply list_elem_of_filter.
    rewrite (wf_n_periods i Hwf). split; [lia|].
    apply wf_period_range; [done|lia]. }
  destruct (mapM_Ok_elem _ _ _ _ Hcs Hk) as (c & Hc & Hin). simpl in Hc.
  destruct (wf_reg_areas i Hwf _ Hr) as (ras & Hras & Hsub).
  exists ras. split; [done|].
  unfold subscript in Hc. rewrite Hras in Hc. simpl in Hc.
  rewrite (mapM_Ok_fmap (λ a, td_get vzminus (x_keys i) (a, theta))
                        (λ a, V (var_zminus a theta))) in Hc. 2:{
    intros a Ha. apply (td_get_elem vzminus (x_keys i) (a, theta)), elem_of_pairs.
    split; [auto|]. apply wf_period_range; [done|lia]. }
  simpl in Hc.
  rewrite (mapM_Ok_fmap (λ a, td_get vzplus (x_keys i) (a, theta + 4 - 1))
                        (λ a, V (var_zplus a (theta + 3)))) in Hc. 2:{
    intros a Ha. replace (theta + 4 - 1) with (theta + 3) by lia.
    apply (td_get_elem vzplus (x_keys i) (a, theta + 3)), elem_of_pairs.
    split; [auto|]. apply wf_period_range; [done|lia]. }
  simpl in Hc. by injection Hc as <-.
Qed.

Lemma eval_zminus_sum sol (ras : list string) theta :
  (eval sol (lin_sum ((λ a, V (var_zminus a theta)) <$> ras))
   == region_starts sol ras theta)%Q.
Proof.
  rewrite eval_lin_sum. unfold region_starts.
  rewrite <- list_fmap_compose. reflexivity.
Qed.

Lemma eval_zplus_sum sol (ras : list string) theta :
  (eval sol (lin_sum ((λ a, V (var_zplus a theta)) <$> ras))
   == region_ends sol ras theta)%Q.
Proof.
  rewrite eval_lin_sum. unfold region_ends.
  rewrite <- list_fmap_compose. reflexivity.
Qed.

(** X6.  In the flexible model a shift lasts four periods: for every region
    and every period [theta] in 0..4 the constraint [sum of zminus at theta
    == sum of zplus at theta + 3] over the region's areas is present, so in
    every solution the couriers that start a shift in a region at [theta]
    are as many as those that end one at [theta + 3]. *)
Theorem flex_model_shift_length (c : invocation) (j : instance_json)
    (i : Instance) (self : Solver) :
  compute_data c j = Ok i → build_flexible_model i = Ok self →
  ∀ region theta, region ∈ regions i → 0 ≤ theta < 5 →
    ∃ ras, reg_areas i !! region = Some ras ∧
      {| ConstrName := "fix_region_n_couriers_in_shift";
         tc := eq_ (lin_sum ((λ a, V (var_zminus a theta)) <$> ras))
                   (lin_sum ((λ a, V (var_zplus a (theta + 3))) <$> ras)) |}
        ∈ m_constrs (m self) ∧
      ∀ sol, solution (m self) sol →
        (region_starts sol ras theta == region_ends sol ras (theta + 3))%Q.
Proof.
  intros Hc Hb region theta Hr Ht. pose proof (compute_data_wf _ _ _ Hc) as Hwf.
  destruct (build_flexible_model_Ok i self Hwf Hb)
    as (base & yi & cs5 & cs6 & _ & _ & H5 & _ & _ & _ & _ & _ & _ & _ & Hcs).
  destruct (fix_region_flex_elem i cs5 region theta Hwf H5 Hr Ht)
    as (ras & Hras & Hin).
  assert (Hmem : {| ConstrName := "fix_region_n_couriers_in_shift";
         tc := eq_ (lin_sum ((λ a, V (var_zminus a theta)) <$> ras))
                   (lin_sum ((λ a, V (var_zplus a (theta + 3))) <$> ras)) |}
        ∈ m_constrs (m self)).
  { rewrite Hcs, !elem_of_app. left. left. right.
    by apply (list_elem_of_fmap_2 (Build_Constr "fix_region_n_couriers_in_shift")). }
  exists ras. split; [done|]. split; [done|]. intros sol Hsol.
  pose proof (solution_constr _ _ _ Hsol Hmem) as Hh.
  unfold holds in Hh. cbn [tc eq_ csense lhs rhs] in Hh.
  by rewrite eval_zminus_sum, eval_zplus_sum in Hh.
Qed.

(** ** The shift cap of the partflex model, in a solution *)

Lemma py_sum_submseteq {A} (f : A → Q) (l k : list A) :
  l ⊆+ k → (∀ a, a ∈ k → (0 <= f a)%Q) →
  (py_sum (f <$> l) <= py_sum (f <$> k))%Q.
Proof.
  induction 1 as [|a l k Hlk IH|a b l|a l k Hlk IH|l k n Hlk IH1 Hkn IH2]; intros Hpos.
  - apply Qle_refl.
  - rewrite !fmap_cons, !py_sum_cons. apply Qplus_le_compat; [apply Qle_refl|].
    apply IH. intros a' Ha'. apply Hpos. by right.
  - rewrite !fmap_cons, !py_sum_cons.
    rewrite !Qplus_assoc, (Qplus_comm (f b) (f a)). apply Qle_refl.
  - rewrite fmap_cons, py_sum_cons.
    rewrite <- (Qplus_0_l (py_sum (f <$> l))).
    apply Qplus_le_compat; [apply Hpos; left|].
    apply IH. intros a' Ha'. apply Hpos. by right.
  - eapply Qle_trans; [apply IH1|apply IH2; done].
    intros a Ha. apply Hpos. by eapply elem_of_submseteq.
Qed.

Lemma py_sum_const_one {A} (f : A → Q) (l : list A) :
  (∀ a, a ∈ l → (f a == 1)%Q) →
  (py_sum (f <$> l) == inject_Z (Z.of_nat (length l)))%Q.
Proof.
  induction l as [|a l IH]; intros H1.
  - reflexivity.
  - rewrite fmap_cons, py_sum_cons, IH, (H1 a) by (try left; intros; apply H1; by right).
    simpl length. rewrite Nat2Z.inj_succ, <- Z.add_1_l, inject_Z_plus. reflexivity.
Qed.

Lemma link_z_w_elem i self cs region theta :
  wf_instance i → zminus self = Some (x_keys i) →
  link_z_w i self (range 5) = Ok cs →
  region ∈ regions i → 0 ≤ theta < 5 →
  ∃ ras ub, reg_areas i !! region = Some ras ∧ ub_reg i !! region = Some ub ∧
    le_ (lin_sum ((λ a, V (var_zminus a theta)) <$> ras))
        (CMul (inject_Z ub) (V (var_w theta))) ∈ cs.
Proof.
  intros Hwf Hz Hcs Hr Ht.
  assert (Hw : theta ∈ range 5) by (apply elem_of_seqZ; lia).
  assert (Hk : (region, theta) ∈ (r ← regions i; t ← range 5; [(r, t)]))
    by by apply elem_of_pairs.
  destruct (mapM_Ok_elem _ _ _ _ Hcs Hk) as (c & Hc & Hin). simpl in Hc.
  destruct (wf_reg_areas i Hwf _ Hr) as (ras & Hras & Hsub).
  destruct (wf_ub_reg i Hwf _ Hr) as [ub Hub].
  exists ras, ub. split; [done|]. split; [done|].
  unfold subscript in Hc. rewrite Hras, Hz, Hub in Hc. simpl in Hc.
  rewrite (mapM_Ok_fmap (λ a, td_get vzminus (x_keys i) (a, theta))
                        (λ a, V (var_zminus a theta))) in Hc. 2:{
    intros a Ha. apply (td_get_elem vzminus (x_keys i) (a, theta)), elem_of_pairs.
    split; [auto|]. apply wf_period_range; [done|lia]. }
  simpl in Hc. rewrite (td_get_elem vw) in Hc by done.
  simpl in Hc. by injection Hc as <-.
Qed.

(** What a solution of the partflex model satisfies, for the shift cap. *)
Lemma partflex_solution i self sol :
  wf_instance i → build_partflex_model i = Ok self → solution (m self) sol →
  ∃ cap, max_n_shifts i = Some (Some cap) ∧
    (∀ theta, 0 ≤ theta < 5 →
       (sol (var_w theta) == 0)%Q ∨ (sol (var_w theta) == 1)%Q) ∧
    (py_sum (sol ∘ vw <$> range 5) <= inject_Z cap)%Q ∧
    (∀ region theta, region ∈ regions i → 0 ≤ theta < 5 →
       ∃ ras ub, reg_areas i !! region = Some ras ∧ ub_reg i !! region = Some ub ∧
         (region_starts sol ras theta <= inject_Z ub * sol (var_w theta))%Q).
Proof.
  intros Hwf Hb Hsol.
  destruct (build_partflex_model_full i self Hwf Hb)
    as (s & cs & cap & Hs & Hcs & Hcap & _ & _ & _ & Hz & _ & Hv & Hc).
  destruct (build_flexible_model_Ok i s Hwf Hs)
    as (_ & _ & _ & _ & _ & _ & _ & _ & _ & _ & _ & Hzs & _).
  exists cap. split; [done|]. split; [|split].
  - intros theta Ht.
    assert (Hmem : mkVar BINARY 0 0 (vw theta) ∈ m_vars (m self)).
    { rewrite Hv. apply elem_of_app. right.
      apply (list_elem_of_fmap_2' _ _ theta); [|done]. apply elem_of_seqZ. lia. }
    by destruct (solution_var _ _ _ Hsol Hmem) as (_ & _ & Hbin).
  - assert (Hmem : Build_Constr "limit_n_shifts"
        (le_ (td_sum vw (range 5) (λ _, true)) (Num (inject_Z cap)))
        ∈ m_constrs (m self)).
    { rewrite Hc. apply elem_of_app. right. left. }
    pose proof (solution_constr _ _ _ Hsol Hmem) as Hh.
    unfold holds in Hh. cbn [tc le_ csense lhs rhs] in Hh.
    rewrite eval_td_sum in Hh. exact Hh.
  - intros region theta Hr Ht.
    destruct (link_z_w_elem i s cs region theta Hwf Hzs Hcs Hr Ht)
      as (ras & ub & Hras & Hub & Hin).
    exists ras, ub. split; [done|]. split; [done|].
    assert (Hmem : Build_Constr "link_z_w"
        (le_ (lin_sum ((λ a, V (var_zminus a theta)) <$> ras))
             (CMul (inject_Z ub) (V (var_w theta)))) ∈ m_constrs (m self)).
    { rewrite Hc, !elem_of_app. left. right.
      by apply (list_elem_of_fmap_2 (Build_Constr "link_z_w")). }
    pose proof (solution_constr _ _ _ Hsol Hmem) as Hh.
    unfold holds in Hh. cbn [tc le_ csense lhs rhs] in Hh.
    rewrite eval_zminus_sum in Hh. exact Hh.
Qed.

(** X7.  A partflex model is built only with the cap set to an integer;
    every [w[theta]], [theta] in 0..4, is binary, and the constraint
    [w.sum() <= max_n_shifts] holds in every solution. *)
Theorem partflex_model_cap (c : invocation) (j : instance_json)
    (i : Instance) (self : Solver) :
  compute_data c j = Ok i → build_partflex_model i = Ok self →
  ∃ cap, max_n_shifts i = Some (Some cap) ∧ w self = Some (range 5) ∧
    {| ConstrName := "limit_n_shifts";
       tc := le_ (td_sum vw (range 5) (λ _, true)) (Num (inject_Z cap)) |}
      ∈ m_constrs (m self) ∧
    ∀ sol, solution (m self) sol →
      (∀ theta, 0 ≤ theta < 5 →
         (sol (var_w theta) == 0)%Q ∨ (sol (var_w theta) == 1)%Q) ∧
      (sol (var_w 0) + sol (var_w 1) + sol (var_w 2) + sol (var_w 3)
       + sol (var_w 4) <= inject_Z cap)%Q.
Proof.
  intros Hc Hb. pose proof (compute_data_wf _ _ _ Hc) as Hwf.
  destruct (build_partflex_model_full i self Hwf Hb)
    as (s & cs & cap & _ & _ & Hcap & _ & _ & _ & _ & Hw & _ & Hcs).
  exists cap. split; [done|]. split; [done|]. split.
  { rewrite Hcs. apply elem_of_app. right. left. }
  intros sol Hsol.
  destruct (partflex_solution i self sol Hwf Hb Hsol)
    as (cap' & Hcap' & Hbin & Hsum & _).
  assert (cap' = cap) as -> by congruence.
  split; [done|]. unfold py_sum in Hsum. simpl in Hsum.
  by rewrite Qplus_0_l in Hsum.
Qed.

(** X8.  In every solution of the partflex model the shift starts of a
    region at a period are at most [ub_reg[region] * w[theta]]; so a period
    at which some region starts a shift has [w[theta] = 1], and the periods
    at which any region starts a shift are at most [max_n_shifts] in
    number. *)
Theorem partflex_model_start_periods (c : invocation) (j : instance_json)
    (i : Instance) (self : Solver) (sol : var → Q) :
  compute_data c j = Ok i → build_partflex_model i = Ok self →
  solution (m self) sol →
  ∃ cap, max_n_shifts i = Some (Some cap) ∧
    (∀ region theta, region ∈ regions i → 0 ≤ theta < 5 →
       ∃ ras ub, reg_areas i !! region = Some ras ∧ ub_reg i !! region = Some ub ∧
         (region_starts sol ras theta <= inject_Z ub * sol (var_w theta))%Q ∧
         ((0 < region_starts sol ras theta)%Q → (sol (var_w theta) == 1)%Q)) ∧
    (∀ l : list Z, NoDup l →
       (∀ theta, theta ∈ l →
          0 ≤ theta < 5 ∧
          ∃ region ras, region ∈ regions i ∧ reg_areas i !! region = Some ras ∧
                        (0 < region_starts sol ras theta)%Q) →
       Z.of_nat (length l) ≤ cap).
Proof.
  intros Hc Hb Hsol. pose proof (compute_data_wf _ _ _ Hc) as Hwf.
  destruct (partflex_solution i self sol Hwf Hb Hsol)
    as (cap & Hcap & Hbin & Hsum & Hlink).
  exists cap. split; [done|].
  assert (Hone : ∀ region theta ras, region ∈ regions i → 0 ≤ theta < 5 →
    reg_areas i !! region = Some ras → (0 < region_starts sol ras theta)%Q →
    (sol (var_w theta) == 1)%Q).
  { intros region theta ras Hr Ht Hras Hpos.
    destruct (Hlink region theta Hr Ht) as (ras' & ub & Hras' & _ & Hle).
    assert (ras' = ras) as -> by congruence.
    destruct (Hbin theta Ht) as [H0|H1]; [|done].
    rewrite H0, Qmult_0_r in Hle. by apply Qle_not_lt in Hle. }
  split.
  - intros region theta Hr Ht.
    destruct (Hlink region theta Hr Ht) as (ras & ub & Hras & Hub & Hle).
    exists ras, ub. split; [done|]. split; [done|]. split; [done|].
    by apply (Hone region).
  - intros l Hnd Hl. rewrite Zle_Qle.
    assert (H1 : ∀ theta, theta ∈ l → ((sol ∘ vw) theta == 1)%Q).
    { intros theta Hin. destruct (Hl theta Hin) as (Ht & region & ras & Hr & Hras & Hpos).
      by apply (Hone region theta ras). }
    rewrite <- (py_sum_const_one (sol ∘ vw) l H1).
    eapply Qle_trans; [|exact Hsum].
    apply py_sum_submseteq.
    + apply NoDup_submseteq; [done|]. intros theta Hin.
      destruct (Hl theta Hin) as (Ht & _). apply elem_of_seqZ. lia.
    + intros theta Hin. apply elem_of_seqZ in Hin.
      destruct (Hbin theta) as [H0|H1']; [lia| |].
      * simpl. rewrite H0. apply Qle_refl.
      * simpl. rewrite H1'. discriminate.
Qed.

(** ** The tables of a derived instance *)

Lemma filterM_head {A} (p : A → result bool) l x k :
  filterM p l = Ok (x :: k) →
  ∃ pre post, l = pre ++ x :: post ∧ p x = Ok true ∧
              ∀ y, y ∈ pre → p y = Ok false.
Proof.
  induction l as [|a l IH]; simpl; [done|]. intros Hf.
  inv_bind Hf. inv_bind Hf. destruct v.
  - injection Hf as <- <-. exists [], l. split; [done|]. split; [done|].
    by intros y ?%elem_of_nil.
  - injection Hf as ->. destruct (IH E0) as (pre & post & -> & Hx & Hpre).
    exists (a :: pre), post. split; [done|]. split; [done|].
    intros y [->|Hy]%elem_of_cons; auto.
Qed.

Lemma py_sumZ_acc l a : fold_left Z.add l a = a + py_sumZ l.
Proof.
  unfold py_sumZ. revert a. induction l as [|z l IH]; intros a; simpl; [lia|].
  rewrite IH, (IH (0 + z)). lia.
Qed.

Lemma n_areas_length (dregions : list region_json) :
  py_sumZ ((λ r, Z.of_nat (length (r_areas r))) <$> dregions)
  = Z.of_nat (length (r ← dregions; r_areas r)).
Proof.
  induction dregions as [|r l IH]; [done|].
  rewrite fmap_cons, bind_cons, length_app, Nat2Z.inj_add, <- IH.
  unfold py_sumZ at 1. simpl. by rewrite py_sumZ_acc.
Qed.

(** X9.  In a derived instance the two tables of the geography agree: the
    areas listed for a region are areas of the instance, and [area_regs]
    maps every area to the first region, in the order of the file, whose
    list contains it; [n_regions] and [n_areas] are the numbers of regions
    and of areas. *)
Theorem area_region_tables (c : invocation) (j : instance_json) (i : Instance) :
  compute_data c j = Ok i →
  (∀ region, region ∈ regions i →
     ∃ ras, reg_areas i !! region = Some ras ∧ ∀ a, a ∈ ras → a ∈ areas i) ∧
  (∀ a, a ∈ areas i →
     ∃ region ras pre post,
       area_regs i !! a = Some region ∧
       reg_areas i !! region = Some ras ∧ a ∈ ras ∧
       regions i = pre ++ region :: post ∧
       ∀ region' ras', region' ∈ pre → reg_areas i !! region' = Some ras' →
                       a ∉ ras') ∧
  (∀ a, is_Some (area_regs i !! a) → a ∈ areas i) ∧
  n_regions i = Z.of_nat (length (regions i)) ∧
  n_areas i = Z.of_nat (length (areas i)).
Proof.
  intros Hc. pose proof (compute_data_wf _ _ _ Hc) as Hwf.
  pose proof (compute_data_derived _ _ _ Hc) as Hd.
  split; [apply (wf_reg_areas i Hwf)|]. split; [|split; [|split]].
  - intros a Ha.
    destruct (dict_comp_lookup _ _ _ _ (d_area_regs _ _ _ Hd) Ha) as (region & Hf & Hl).
    inv_bind Hf. destruct v as [|r0 rs]; simpl in Hf; [done|]. injection Hf as ->.
    destruct (filterM_head _ _ _ _ E) as (pre & post & Hreg & Hp & Hpre).
    inv_bind Hp. injection Hp as Hp. apply bool_decide_eq_true in Hp.
    apply subscript_Ok in E0.
    exists region, v, pre, post. repeat split; try done.
    intros region' ras' Hin Hras' Hmem. specialize (Hpre _ Hin).
    unfold subscript in Hpre. rewrite Hras' in Hpre. simpl in Hpre.
    injection Hpre as Hpre. by apply bool_decide_eq_false in Hpre.
  - intros a [region Hr].
    by destruct (dict_comp_lookup_Some _ _ _ _ _ (d_area_regs _ _ _ Hd) Hr).
  - unfold compute_data in Hc. inv_bind Hc. destruct v as [[[rm gm] ocm] mdl].
    inv_bind Hc. inv_bind Hc. destruct v0 as [ur ug]. inv_bind Hc. inv_bind Hc.
    destruct v1 as [mns mn]. injection Hc as <-. simpl. by rewrite length_fmap.
  - unfold compute_data in Hc. inv_bind Hc. destruct v as [[[rm gm] ocm] mdl].
    inv_bind Hc. inv_bind Hc. destruct v0 as [ur ug]. inv_bind Hc. inv_bind Hc.
    destruct v1 as [mns mn]. injection Hc as <-. simpl. apply n_areas_length.
Qed.

Lemma make_reg_areas_NoDup l (d : gmap string (list string)) r :
  NoDup (r_id <$> l) → r ∈ l →
  fold_left (λ d r, <[r_id r := r_areas r]> d) l d !! r_id r = Some (r_areas r).
Proof.
  revert d. induction l as [|r' l IH]; intros d Hnd Hin; [by apply elem_of_nil in Hin|].
  rewrite fmap_cons in Hnd. apply NoDup_cons in Hnd as [Hnin Hnd]. simpl.
  apply elem_of_cons in Hin as [->|Hin]; [|by apply IH].
  destruct (fold_left _ l (<[r_id r':=r_areas r']> d) !! r_id r') as [v|] eqn:Hv.
  - apply make_reg_areas_from in Hv as [Hv|(r'' & Hr'' & Hid & _)].
    + rewrite lookup_insert_eq in Hv. done.
    + destruct Hnin. rewrite <- Hid. by apply list_elem_of_fmap_2.
  - pose proof (make_reg_areas_keep l (<[r_id r':=r_areas r']> d) (r_id r')) as Hk.
    rewrite Hv in Hk. destruct Hk as [? ?]; [|done].
    rewrite lookup_insert_eq. by eexists.
Qed.

Lemma make_area_regs_Raise regions areas reg_areas e :
  (∀ region, region ∈ regions → is_Some (reg_areas !! region)) →
  make_area_regs regions areas reg_areas = Raise e → e = IndexError.
Proof.
  intros Hreg Hm. unfold make_area_regs, dict_comp in Hm.
  apply dict_comp_from_Raise_elem in Hm as (a & _ & Hf).
  apply bind_Raise in Hf as [Hf|(rs & _ & Hf)].
  - apply filterM_Raise_elem in Hf as (region & Hr & Hf).
    destruct (Hreg region Hr) as [ras Hras].
    unfold subscript in Hf. by rewrite Hras in Hf.
  - destruct rs; simpl in Hf; [by injection Hf as <-|done].
Qed.

(** X10.  With distinct region identifiers the area-to-region table is
    always built, and the areas of a region are those of the file.  With a
    repeated identifier the later list replaces the earlier one, and an
    area left in no list ends the derivation with [IndexError]. *)
Theorem region_identifiers (c : invocation) (j : instance_json) :
  let dregions := geography_city_regions j in
  let regions := r_id <$> dregions in
  let areas := r ← dregions; r_areas r in
  let reg_areas := make_reg_areas dregions in
  (NoDup regions →
     is_Ok (make_area_regs regions areas reg_areas) ∧
     ∀ r, r ∈ dregions → reg_areas !! r_id r = Some (r_areas r)) ∧
  (∀ a p, a ∈ areas →
     (∀ region ras, region ∈ regions → reg_areas !! region = Some ras → a ∉ ras) →
     read_params c = Ok p →
     compute_data c j = Raise IndexError).
Proof.
  intros dregions regions areas reg_areas.
  assert (Hreg : ∀ region, region ∈ regions → is_Some (reg_areas !! region)).
  { intros region (r & -> & Hr)%list_elem_of_fmap. by apply make_reg_areas_mem. }
  split.
  - intros Hnd.
    assert (Hl : ∀ r, r ∈ dregions → reg_areas !! r_id r = Some (r_areas r)).
    { intros r Hr. by apply make_reg_areas_NoDup. }
    split; [|done]. apply dict_comp_is_Ok. intros a Ha.
    apply list_elem_of_bind in Ha as (r & Ha & Hr).
    destruct (filterM _ regions) as [rs|e] eqn:Hf.
    + simpl. destruct rs as [|r0 rs]; [|by eexists].
      assert (Hin : r_id r ∈ @nil string); [|by apply elem_of_nil in Hin].
      apply (filterM_Ok_elem _ _ _ (r_id r) Hf). split.
      * by apply list_elem_of_fmap_2.
      * unfold subscript. rewrite (Hl r Hr). simpl. by rewrite bool_decide_true.
    + apply filterM_Raise_elem in Hf as (region & Hin & Hf).
      destruct (Hreg region Hin) as [ras Hras].
      unfold subscript in Hf. by rewrite Hras in Hf.
  - intros a [[[rm gm] ocm] mdl] Ha Hnone Hp.
    unfold compute_data. rewrite Hp. simpl.
    fold dregions. fold regions. fold areas. fold reg_areas.
    destruct (make_area_regs regions areas reg_areas) as [ar|e] eqn:Hm.
    + destruct (dict_comp_lookup _ _ _ _ Hm Ha) as (region & Hf & _).
      inv_bind Hf. destruct v as [|r0 rs]; simpl in Hf; [done|]. injection Hf as ->.
      assert (Hin : region ∈ region :: rs) by left.
      apply (filterM_Ok_elem _ _ _ region E) in Hin as [Hr Hq].
      inv_bind Hq. injection Hq as Hq. apply bool_decide_eq_true in Hq.
      apply subscript_Ok in E0. by destruct (Hnone region v Hr E0).
    + simpl. by rewrite (make_area_regs_Raise _ _ _ _ Hreg Hm).
Qed.

(** ** The scenario tables *)

Lemma fill_snoc (s : Z) (a : string) (vals : list Q) (v : Q) (d : gmap (Z * string * Z) Q) :
  fill s a (vals ++ [v]) d
  = <[(s, a, Z.of_nat (length vals)) := v]> (fill s a vals d).
Proof.
  unfold fill, enumerate. rewrite imap_app, fold_left_app. simpl.
  by rewrite Nat.add_0_r.
Qed.

Lemma fill_mem (s : Z) (a : string) (vals : list Q) (d : gmap (Z * string * Z) Q) n (v : Q) :
  vals !! n = Some v → fill s a vals d !! (s, a, Z.of_nat n) = Some v.
Proof.
  induction vals as [|w vals IH] using rev_ind; [done|].
  rewrite fill_snoc. intros Hn.
  destruct (decide (n = length vals)) as [->|Hne].
  - rewrite lookup_insert_eq. by rewrite list_lookup_middle in Hn.
  - rewrite lookup_insert_ne by (intros [= ?]; lia). apply IH.
    apply lookup_lt_Some in Hn as Hlt. rewrite length_app in Hlt. simpl in Hlt.
    rewrite lookup_app_l in Hn by lia. done.
Qed.

Lemma fill_from (s : Z) (a : string) (vals : list Q) (d : gmap (Z * string * Z) Q) k (v : Q) :
  fill s a vals d !! k = Some v →
  d !! k = Some v ∨ ∃ n, k = (s, a, Z.of_nat n) ∧ vals !! n = Some v.
Proof.
  induction vals as [|w vals IH] using rev_ind; [by left|].
  rewrite fill_snoc.
  destruct (decide (k = (s, a, Z.of_nat (length vals)))) as [->|Hne].
  - rewrite lookup_insert_eq. intros [= ->]. right. exists (length vals).
    split; [done|]. by rewrite list_lookup_middle.
  - rewrite lookup_insert_ne by done. intros Hk.
    destruct (IH Hk) as [?|(n & -> & Hn)]; [by left|]. right. exists n.
    split; [done|]. apply lookup_app_l_Some. done.
Qed.

Lemma fill_keep (s : Z) (a : string) (vals : list Q) (d : gmap (Z * string * Z) Q) k :
  is_Some (d !! k) → is_Some (fill s a vals d !! k).
Proof.
  induction vals as [|w vals IH] using rev_ind; [done|].
  rewrite fill_snoc. intros Hk.
  destruct (decide (k = (s, a, Z.of_nat (length vals)))) as [->|Hne].
  - rewrite lookup_insert_eq. by eexists.
  - rewrite lookup_insert_ne by done. by apply IH.
Qed.

Section tables.
Variable get : data_json → list Q.

Lemma rows_from (s : Z) (dts : list data_json) (d : gmap (Z * string * Z) Q) k (v : Q) :
  fold_left (λ d dt, fill s (area_id dt) (get dt) d) dts d !! k = Some v →
  d !! k = Some v ∨
  ∃ dt n, dt ∈ dts ∧ k = (s, area_id dt, Z.of_nat n) ∧ get dt !! n = Some v.
Proof.
  revert d. induction dts as [|dt dts IH]; intros d; [by left|].
  simpl. intros Hk. destruct (IH _ Hk) as [Hd|(dt' & n & Hin & -> & Hn)].
  - apply fill_from in Hd as [?|(n & -> & Hn)]; [by left|].
    right. exists dt, n. split; [left|done].
  - right. exists dt', n. split; [by right|done].
Qed.

Lemma rows_keep (s : Z) (dts : list data_json) (d : gmap (Z * string * Z) Q) k : is_Some (d !! k) → is_Some (fold_left (λ d dt, fill s (area_id dt) (get dt) d) dts d !! k).
Proof.
  revert d. induction dts as [|dt dts IH]; intros d; [done|].
  simpl. intros Hk. by apply IH, fill_keep.
Qed.

Lemma rows_mem (s : Z) (dts : list data_json) (d : gmap (Z * string * Z) Q) dt n (v : Q) :
  dt ∈ dts → get dt !! n = Some v →
  is_Some (fold_left (λ d dt, fill s (area_id dt) (get dt) d) dts d !! (s, area_id dt, Z.of_nat n)).
Proof.
  revert d. induction dts as [|dt' dts IH]; intros d Hin Hn;
    [by apply elem_of_nil in Hin|].
  simpl. apply elem_of_cons in Hin as [->|Hin]; [|by apply IH].
  apply rows_keep. rewrite (fill_mem _ _ _ _ _ _ Hn). by eexists.
Qed.

Lemma table_from (scs : list scenario_json) (d : gmap (Z * string * Z) Q) k (v : Q) :
  fold_left (λ d sc, fold_left (λ d dt, fill (scenario_num sc) (area_id dt) (get dt) d) (data sc) d) scs d !! k = Some v →
  d !! k = Some v ∨
  ∃ sc dt n, sc ∈ scs ∧ dt ∈ data sc ∧
             k = (scenario_num sc, area_id dt, Z.of_nat n) ∧
             get dt !! n = Some v.
Proof.
  revert d. induction scs as [|sc scs IH]; intros d; [by left|].
  simpl. intros Hk. destruct (IH _ Hk) as [Hd|(sc' & dt & n & Hin & Hdt & -> & Hn)].
  - apply rows_from in Hd as [?|(dt & n & Hdt & -> & Hn)]; [by left|].
    right. exists sc, dt, n. split; [left|done].
  - right. exists sc', dt, n. split; [by right|done].
Qed.

Lemma table_keep (scs : list scenario_json) (d : gmap (Z * string * Z) Q) k : is_Some (d !! k) → is_Some (fold_left (λ d sc, fold_left (λ d dt, fill (scenario_num sc) (area_id dt) (get dt) d) (data sc) d) scs d !! k).
Proof.
  revert d. induction scs as [|sc scs IH]; intros d; [done|].
  simpl. intros Hk. by apply IH, rows_keep.
Qed.

Lemma table_mem (scs : list scenario_json) (d : gmap (Z * string * Z) Q) sc dt n (v : Q) :
  sc ∈ scs → dt ∈ data sc → get dt !! n = Some v →
  is_Some (fold_left (λ d sc, fold_left (λ d dt, fill (scenario_num sc) (area_id dt) (get dt) d) (data sc) d) scs d !! (scenario_num sc, area_id dt, Z.of_nat n)).
Proof.
  revert d. induction scs as [|sc' scs IH]; intros d Hin Hdt Hn;
    [by apply elem_of_nil in Hin|].
  simpl. apply elem_of_cons in Hin as [->|Hin]; [|by apply IH].
  apply table_keep. by eapply rows_mem.
Qed.

Lemma table_round_trip (scs : list scenario_json) :
  (∀ s a theta v, fold_left (λ d sc, fold_left (λ d dt, fill (scenario_num sc) (area_id dt) (get dt) d) (data sc) d) scs ∅ !! (s, a, theta) = Some v →
     ∃ sc dt n, sc ∈ scs ∧ dt ∈ data sc ∧ scenario_num sc = s ∧
                area_id dt = a ∧ theta = Z.of_nat n ∧ get dt !! n = Some v) ∧
  (∀ sc dt n v, sc ∈ scs → dt ∈ data sc → get dt !! n = Some v →
     is_Some (fold_left (λ d sc, fold_left (λ d dt, fill (scenario_num sc) (area_id dt) (get dt) d) (data sc) d) scs ∅ !! (scenario_num sc, area_id dt, Z.of_nat n)) ∧
     ((∀ sc' dt', sc' ∈ scs → dt' ∈ data sc' →
         scenario_num sc' = scenario_num sc → area_id dt' = area_id dt →
         get dt' = get dt) →
      fold_left (λ d sc, fold_left (λ d dt, fill (scenario_num sc) (area_id dt) (get dt) d) (data sc) d) scs ∅ !! (scenario_num sc, area_id dt, Z.of_nat n) = Some v)).
Proof.
  split.
  - intros s a theta v Hk. apply table_from in Hk as [Hk|Hk]; [done|].
    destruct Hk as (sc & dt & n & Hsc & Hdt & [= -> -> ->] & Hn).
    by exists sc, dt, n.
  - intros sc dt n v Hsc Hdt Hn.
    pose proof (table_mem scs ∅ sc dt n v Hsc Hdt Hn) as [v' Hv'].
    split; [by eexists|]. intros Huniq. rewrite Hv'. f_equal.
    apply table_from in Hv' as [Hk|Hk]; [done|].
    destruct Hk as (sc' & dt' & n' & Hsc' & Hdt' & [= Hs Ha Hn'] & Hv).
    apply Nat2Z.inj in Hn' as <-.
    rewrite (Huniq sc' dt' Hsc' Hdt') in Hv by done. congruence.
Qed.
End tables.

(** X11.  The two loops that load the scenarios: every entry of [srequired]
    and of [sdemand] is a value of the file, at its scenario number, area
    and (non-negative) position; every value of the file has an entry, and
    the entry is that value when the file gives the scenario and area once
    (or always with the same list). *)
Theorem scenario_tables (scs : list scenario_json) :
  (∀ s a theta v, fill_required scs !! (s, a, theta) = Some v →
     ∃ sc dt n, sc ∈ scs ∧ dt ∈ data sc ∧ scenario_num sc = s ∧
                area_id dt = a ∧ theta = Z.of_nat n ∧
                required_couriers dt !! n = Some v) ∧
  (∀ sc dt n v, sc ∈ scs → dt ∈ data sc → required_couriers dt !! n = Some v →
     is_Some (fill_required scs !! (scenario_num sc, area_id dt, Z.of_nat n)) ∧
     ((∀ sc' dt', sc' ∈ scs → dt' ∈ data sc' →
         scenario_num sc' = scenario_num sc → area_id dt' = area_id dt →
         required_couriers dt' = required_couriers dt) →
      fill_required scs !! (scenario_num sc, area_id dt, Z.of_nat n) = Some v)) ∧
  (∀ s a theta v, fill_demand scs !! (s, a, theta) = Some v →
     ∃ sc dt n, sc ∈ scs ∧ dt ∈ data sc ∧ scenario_num sc = s ∧
                area_id dt = a ∧ theta = Z.of_nat n ∧
                demand dt !! n = Some v) ∧
  (∀ sc dt n v, sc ∈ scs → dt ∈ data sc → demand dt !! n = Some v →
     is_Some (fill_demand scs !! (scenario_num sc, area_id dt, Z.of_nat n)) ∧
     ((∀ sc' dt', sc' ∈ scs → dt' ∈ data sc' →
         scenario_num sc' = scenario_num sc → area_id dt' = area_id dt →
         demand dt' = demand dt) →
      fill_demand scs !! (scenario_num sc, area_id dt, Z.of_nat n) = Some v)).
Proof.
  destruct (table_round_trip required_couriers scs) as [H1 H2].
  destruct (table_round_trip demand scs) as [H3 H4].
  split; [exact H1|]. split; [exact H2|]. split; [exact H3|exact H4].
Qed.

(** ** The bounds: exceptions and rounding *)

Lemma mapM_Raise {A B} (f : A → result B) l e :
  (∀ a, a ∈ l → is_Ok (f a) ∨ f a = Raise e) →
  (∃ a, a ∈ l ∧ f a = Raise e) →
  mapM f l = Raise e.
Proof.
  induction l as [|a l IH]; intros Hall (a' & Ha' & Hf).
  - by apply elem_of_nil in Ha'.
  - rewrite mapM_cons. destruct (Hall a) as [[b Hb]|Hr]; [left| |by rewrite Hr].
    rewrite Hb. simpl. rewrite IH; [done| |].
    + intros a'' Ha''. apply Hall. by right.
    + apply elem_of_cons in Ha' as [->|Ha']; [congruence|eauto].
Qed.

Lemma subscript_cases `{Countable K} {V} (d : gmap K V) k :
  is_Ok (subscript d k) ∨ subscript d k = Raise KeyError.
Proof. unfold subscript. destruct (d !! k); [left; by eexists|by right]. Qed.

Lemma mhat1_entry_cases (srq : gmap (Z * string * Z) Q) scs k :
  is_Ok (mhat1_entry srq scs k) ∨ mhat1_entry srq scs k = Raise KeyError.
Proof.
  unfold mhat1_entry.
  destruct (mapM _ scs) as [vals|e] eqn:Hm; simpl; [left; by eexists|].
  apply mapM_Raise_elem in Hm as (s & _ & Hs).
  destruct (subscript_cases srq (s, k.1, k.2)) as [[v Hv]|Hr]; [congruence|].
  right. congruence.
Qed.

Lemma get_ubs_KeyError (srq : gmap (Z * string * Z) Q) scs ps ars rgs
    (ras : gmap string (list string)) rm gm s a theta :
  s ∈ scs → a ∈ ars → theta ∈ ps → srq !! (s, a, theta) = None →
  get_ubs srq scs ps ars rgs ras rm gm = Raise KeyError.
Proof.
  intros Hs Ha Ht Hnone. unfold get_ubs, dict_comp.
  rewrite (dict_comp_from_Raise (mhat1_entry srq scs) _ ∅ KeyError); [done| |].
  - intros k _. apply mhat1_entry_cases.
  - exists (a, theta). split; [by apply elem_of_pairs|].
    unfold mhat1_entry. rewrite (mapM_Raise _ scs KeyError); [done| |].
    + intros s' _. apply subscript_cases.
    + exists s. split; [done|]. unfold subscript. simpl. by rewrite Hnone.
Qed.

(** X12.  A required-couriers value missing from the file, for a scenario
    number below [num_scenarios], an area of the geography and a period
    below [num_time_intervals], ends the derivation with [KeyError] (the
    parameters read and the area table built). *)
Theorem missing_required_value (c : invocation) (j : instance_json)
    (p : Q * Q * Q * string) (s : Z) (a : string) (theta : Z) :
  read_params c = Ok p →
  is_Ok (make_area_regs (r_id <$> geography_city_regions j)
                        (r ← geography_city_regions j; r_areas r)
                        (make_reg_areas (geography_city_regions j))) →
  s ∈ range (num_scenarios j) →
  a ∈ (r ← geography_city_regions j; r_areas r) →
  theta ∈ range (num_time_intervals j) →
  fill_required (j_scenarios j) !! (s, a, theta) = None →
  compute_data c j = Raise KeyError.
Proof.
  intros Hp [ar Har] Hs Ha Ht Hnone. destruct p as [[[rm gm] ocm] mdl].
  unfold compute_data. rewrite Hp. simpl. rewrite Har. simpl.
  by rewrite (get_ubs_KeyError _ _ _ _ _ _ _ _ s a theta).
Qed.

Lemma ub_reg_ValueError (ras : gmap string (list string)) rm
    (m2 : gmap string double) rgs :
  (∀ region, region ∈ rgs →
     ∃ l, ras !! region = Some l ∧ ∀ a, a ∈ l → m2 !! a = Some S754_nan) →
  (∃ region l, region ∈ rgs ∧ ras !! region = Some l ∧ l ≠ []) →
  dict_comp (ub_reg_entry ras rm m2) rgs = Raise ValueError.
Proof.
  intros Hall (region & l & Hr & Hl & Hne).
  assert (Hentry : ∀ region l, region ∈ rgs → ras !! region = Some l →
    ub_reg_entry ras rm m2 region
    = fl_int (fl_mul (fl_of_Q rm) (fl_sum ((λ _, S754_nan) <$> l)))).
  { intros region' l' Hr' Hl'. unfold ub_reg_entry.
    rewrite (proj2 (subscript_Ok ras region' l') Hl'). simpl.
    rewrite (mapM_Ok_fmap _ (λ _, S754_nan)); [done|].
    intros a Ha. destruct (Hall _ Hr') as (l'' & Hl'' & Hm2).
    assert (l'' = l') as -> by congruence.
    unfold subscript. by rewrite (Hm2 a Ha). }
  assert (Hnan : ∀ l' : list string, l' ≠ [] →
    fl_int (fl_mul (fl_of_Q rm) (fl_sum ((λ _, S754_nan) <$> l'))) = Raise ValueError).
  { intros l' Hl'. rewrite fl_sum_nan.
    - by rewrite fl_mul_nan_r.
    - by destruct l'.
    - by apply Forall_fmap, Forall_forall. }
  apply dict_comp_from_Raise.
  - intros region' Hr'. destruct (Hall _ Hr') as (l' & Hl' & _).
    rewrite (Hentry _ _ Hr' Hl'). destruct l' as [|a l'].
    + destruct (fl_int_mul_zero_cases (fl_of_Q rm)) as [H0|H0].
      * left. by eexists.
      * by right.
    + right. by apply Hnan.
  - exists region. split; [done|]. rewrite (Hentry _ _ Hr Hl). by apply Hnan.
Qed.

Lemma get_ubs_ValueError (srq : gmap (Z * string * Z) Q) scs ps ars rgs
    (ras : gmap string (list string)) rm gm :
  scs = [] ∨ ps = [] →
  (∀ region, region ∈ rgs →
     ∃ l, ras !! region = Some l ∧ ∀ a, a ∈ l → a ∈ ars) →
  (∃ region l, region ∈ rgs ∧ ras !! region = Some l ∧ l ≠ []) →
  get_ubs srq scs ps ars rgs ras rm gm = Raise ValueError.
Proof.
  intros Hempty Hsub Hne. unfold get_ubs.
  destruct (dict_comp_is_Ok (mhat1_entry srq scs)
              (a ← ars; theta ← ps; [(a, theta)])) as [m1 Hm1].
  { intros [a theta] [Ha Ht]%elem_of_pairs.
    destruct Hempty as [->| ->]; [by eexists|by apply elem_of_nil in Ht]. }
  rewrite Hm1. simpl.
  assert (Hm1v : ∀ a theta, a ∈ ars → theta ∈ ps →
    m1 !! (a, theta) = Some S754_nan).
  { intros a theta Ha Ht.
    destruct (dict_comp_lookup _ _ _ (a, theta) Hm1) as (v & Hv & Hl);
      [by apply elem_of_pairs|].
    destruct Hempty as [->| ->]; [|by apply elem_of_nil in Ht].
    unfold mhat1_entry in Hv. cbn [mapM] in Hv. simpl in Hv.
    injection Hv as <-. exact Hl. }
  assert (Hentry : ∀ a, a ∈ ars → mhat2_entry ps m1 a = Ok S754_nan).
  { intros a Ha. unfold mhat2_entry.
    rewrite (mapM_Ok_fmap _ (λ _, S754_nan)).
    - simpl. f_equal. apply fl_mean_nan. by apply Forall_fmap, Forall_forall.
    - intros theta Ht. unfold subscript. by rewrite (Hm1v a theta). }
  destruct (dict_comp_is_Ok (mhat2_entry ps m1) ars) as [m2 Hm2].
  { intros a Ha. rewrite (Hentry a Ha). by eexists. }
  rewrite Hm2. simpl.
  rewrite (ub_reg_ValueError ras rm m2 rgs); [done| |done].
  intros region Hr. destruct (Hsub _ Hr) as (l & Hl & Hin).
  exists l. split; [done|]. intros a Ha.
  destruct (dict_comp_lookup _ _ _ a Hm2 (Hin a Ha)) as (v & Hv & ->).
  rewrite (Hentry a (Hin a Ha)) in Hv. by injection Hv as <-.
Qed.

Lemma range_nonpos n : n ≤ 0 → range n = [].
Proof.
  intros Hn. unfold range, seqZ. replace (Z.to_nat n) with 0%nat by lia. done.
Qed.

(** X13.  With no scenario ([num_scenarios <= 0]) or no period
    ([num_time_intervals <= 0]) and at least one area, the means are
    not-a-number and the derivation ends with [ValueError], at the
    conversion of the first regional bound (before the shift partition is
    looked at). *)
Theorem empty_ranges (c : invocation) (j : instance_json)
    (p : Q * Q * Q * string) (a : string) :
  read_params c = Ok p →
  is_Ok (make_area_regs (r_id <$> geography_city_regions j)
                        (r ← geography_city_regions j; r_areas r)
                        (make_reg_areas (geography_city_regions j))) →
  a ∈ (r ← geography_city_regions j; r_areas r) →
  num_scenarios j ≤ 0 ∨ num_time_intervals j ≤ 0 →
  compute_data c j = Raise ValueError.
Proof.
  intros Hp [ar Har] Ha Hempty. destruct p as [[[rm gm] ocm] mdl].
  unfold compute_data. rewrite Hp. simpl. rewrite Har. simpl.
  rewrite get_ubs_ValueError; [done| | |].
  - destruct Hempty as [Hn|Hn]; [left|right]; by apply range_nonpos.
  - intros region (r & -> & Hr)%list_elem_of_fmap.
    destruct (make_reg_areas_mem _ ∅ r Hr) as [l Hl]. exists l.
    split; [done|]. intros a' Ha'.
    apply make_reg_areas_from in Hl as [Hl|(r' & Hr' & _ & <-)]; [done|].
    apply list_elem_of_bind. by exists r'.
  - destruct (dict_comp_lookup _ _ _ a Har Ha) as (region & Hf & _).
    inv_bind Hf. destruct v as [|r0 rs]; simpl in Hf; [done|]. injection Hf as ->.
    assert (Hin : region ∈ region :: rs) by left.
    apply (filterM_Ok_elem _ _ _ region E) in Hin as [Hr Hq].
    inv_bind Hq. injection Hq as Hq. apply bool_decide_eq_true in Hq.
    apply subscript_Ok in E0. exists region, v. split; [done|]. split; [done|].
    intros ->. by apply elem_of_nil in Hq.
Qed.

Lemma Qtrunc_ceiling q : (q <= 0)%Q → Qtrunc q = Qceiling q.
Proof.
  intros Hq. unfold Qceiling. rewrite <- Qtrunc_floor.
  - destruct q as [n d]. unfold Qtrunc. simpl. rewrite Z.quot_opp_l by done. lia.
  - apply Qopp_le_compat in Hq. exact Hq.
Qed.

(** X14.  Without any assumption on the signs, the bounds of a derived
    instance are the double-precision products rounded toward zero: each
    product is a finite double, and the bound is its floor when it is at
    least 0 and its ceiling when it is negative, for each regional bound and
    for the global bound. *)
Theorem derived_bounds_round_toward_zero (c : invocation) (j : instance_json)
    (i : Instance) :
  compute_data c j = Ok i →
  let round q := if decide (0 <= q)%Q then Qfloor q else Qceiling q in
  (∀ region, region ∈ regions i →
     ∃ ras, reg_areas i !! region = Some ras ∧
            fl_finite (reg_product i ras) ∧
            ub_reg i !! region = Some (round (fl_value (reg_product i ras)))) ∧
  fl_finite (glb_product i) ∧
  ub_global i = round (fl_value (glb_product i)).
Proof.
  intros Hc round.
  assert (Hround : ∀ q, Qtrunc q = round q).
  { intros q. unfold round. destruct (decide (0 <= q)%Q) as [Hq|Hq].
    - by apply Qtrunc_floor.
    - apply Qtrunc_ceiling, Qlt_le_weak, Qnot_le_lt, Hq. }
  destruct (bounds_integer_parts _ _ _ Hc) as (Hval & Hkeys & Hug).
  split.
  - intros region Hr. destruct (Hkeys _ Hr) as [z Hz].
    destruct (Hval _ _ Hz) as (_ & ras & Hras & Hint).
    apply fl_int_Ok in Hint as [Hfin ->].
    exists ras. split; [done|]. split; [done|]. by rewrite <- Hround.
  - apply fl_int_Ok in Hug as [Hfin ->]. by rewrite <- Hround.
Qed.

(** ** When the results are returned *)

Lemma built_y_cases i self :
  wf_instance i → built i self →
  y self = None ∨ ∃ yd, y_idx i = Ok yd ∧ y self = Some yd.
Proof.
  intros Hwf [Hb|[Hb|[Hb|Hb]]].
  - left. destruct (build_base_model_Ok _ _ Hb) as (? & ? & ? & ? & _ & _ & _ & _ & ->).
    done.
  - right. destruct (built_y i self Hwf (or_introl Hb)) as (yd & ? & ? & _). eauto.
  - right. destruct (built_y i self Hwf (or_intror Hb)) as (yd & ? & ? & _). eauto.
  - right. destruct (build_partflex_model_full i self Hwf Hb)
      as (flex & cs & cap & Hf & _ & _ & _ & Hy & _).
    destruct (built_y i flex Hwf (or_intror Hf)) as (yd & ? & ? & _).
    exists yd. split; [done|]. congruence.
Qed.

Lemma regional_pct_value i self sv region :
  wf_instance i → x self = x_keys i → region ∈ regions i →
  ∃ ras ub, reg_areas i !! region = Some ras ∧ ub_reg i !! region = Some ub ∧
    regional_pct i self sv region
    = py_div (100 * py_sum (X sv ∘ vx <$> (a ← ras; theta ← periods i; [(a, theta)])))
             (inject_Z (ub * n_periods i)).
Proof.
  intros Hwf Hx Hr. unfold regional_pct.
  destruct (wf_reg_areas i Hwf _ Hr) as (ras & Hras & Hsub).
  destruct (wf_ub_reg i Hwf _ Hr) as [ub Hub]. exists ras, ub.
  split; [done|]. split; [done|].
  unfold subscript. rewrite Hras, Hub. simpl.
  rewrite (mapM_Ok_fmap _ (λ k, X sv (vx k))). 2:{
    intros [a theta] [Ha Ht]%elem_of_pairs.
    apply td_X_elem. rewrite Hx. apply elem_of_pairs. auto. }
  done.
Qed.

Lemma inject_Z_times_8 z : z ≠ 0 → ¬ (inject_Z (z * 8) == 0)%Q.
Proof.
  intros Hz Heq. unfold Qeq in Heq. simpl in Heq. lia.
Qed.

Lemma pct_movement_is_Ok i self sv yd :
  wf_instance i → x self = x_keys i → y_idx i = Ok yd →
  is_Ok (pct_movement i self sv yd).
Proof.
  intros Hwf Hx Hyd. unfold pct_movement. apply mapM_is_Ok.
  intros [r theta] [Hr Ht]%elem_of_pairs.
  destruct (filterM _ (a1 ← areas i; a2 ← areas i; [(a1, a2)])) as [pairs|e] eqn:Hf.
  2:{ apply filterM_Raise_elem in Hf as ([a1 a2] & [Ha1 Ha2]%elem_of_pairs & Hf).
      destruct (wf_area_regs i Hwf a1 Ha1) as (r1 & ? & Hr1 & _).
      destruct (wf_area_regs i Hwf a2 Ha2) as (r2 & ? & Hr2 & _).
      unfold subscript in Hf. rewrite Hr1, Hr2 in Hf. simpl in Hf.
      destruct (decide (a1 ≠ a2)); [|done]. by destruct (decide (r1 = r)). }
  simpl.
  rewrite (mapM_Ok_fmap _ (λ p : string * string, X sv (var_y p.1 p.2 theta))). 2:{
    intros [a1 a2] Hin. apply (filterM_Ok_elem _ _ _ _ Hf) in Hin as [Hin Hp].
    apply elem_of_pairs in Hin as [Ha1 Ha2].
    destruct (wf_area_regs i Hwf a1 Ha1) as (r1 & ? & Hr1 & _).
    destruct (wf_area_regs i Hwf a2 Ha2) as (r2 & ? & Hr2 & _).
    unfold subscript in Hp. rewrite Hr1, Hr2 in Hp. simpl in Hp.
    destruct (decide (a1 ≠ a2)) as [Hne|]; [|done].
    destruct (decide (r1 = r)) as [->|]; [|done].
    injection Hp as Hp. apply bool_decide_eq_true in Hp as ->.
    apply (td_X_elem sv vy yd (a1, a2, theta)).
    apply (y_idx_elem i yd a1 a2 theta Hwf Hyd). rewrite Hr1, Hr2. auto. }
  simpl. destruct (wf_reg_areas i Hwf _ Hr) as (ras & Hras & Hsub).
  unfold subscript. rewrite Hras. simpl.
  rewrite (mapM_Ok_fmap _ (λ a, X sv (var_x a theta))). 2:{
    intros a Ha. apply (td_X_elem sv vx (x self) (a, theta)).
    rewrite Hx. apply elem_of_pairs. auto. }
  simpl. destruct (Qeq_bool _ 0) eqn:Hz; [by eexists|].
  apply py_div_is_Ok. intros Heq. apply Qeq_bool_iff in Heq. congruence.
Qed.

(** X15.  On a model of one of the four builders, with a demand value for
    every scenario, area and period, [__basic_results] returns exactly when
    no regional bound and not the global bound is 0; the only exception it
    raises is [ZeroDivisionError]. *)
Theorem basic_results_returns (c : invocation) (j : instance_json)
    (i : Instance) (self : Solver) (sv : Solved) :
  compute_data c j = Ok i → demand_complete i → built i self →
  (is_Ok (basic_results i self sv) ↔
   (∀ region, region ∈ regions i → ub_reg i !! region ≠ Some 0) ∧
   ub_global i ≠ 0) ∧
  (∀ e, basic_results i self sv = Raise e → e = ZeroDivisionError).
Proof.
  intros Hc Hd Hb. pose proof (compute_data_wf _ _ _ Hc) as Hwf.
  destruct (built_base i self Hwf Hb) as (_ & _ & Hx & _).
  assert (Hok : (∀ region, region ∈ regions i → ub_reg i !! region ≠ Some 0) →
                ub_global i ≠ 0 → is_Ok (basic_results i self sv)).
  { intros Hreg Hglb. unfold basic_results.
    destruct (hired_couriers_is_Ok i self sv Hx) as [hired ->]. simpl.
    destruct (parcel_tables_is_Ok c j i self sv Hc Hd Hx) as [[[o p] h] ->]. simpl.
    destruct (dict_comp_is_Ok (regional_pct i self sv) (regions i)) as [rp ->].
    { intros region Hr.
      destruct (regional_pct_value i self sv region Hwf Hx Hr)
        as (ras & ub & _ & Hub & ->).
      apply py_div_is_Ok. rewrite (wf_n_periods i Hwf).
      apply inject_Z_times_8. intros ->. by apply (Hreg region Hr). }
    simpl. rewrite py_div_pos by
      (rewrite (wf_n_periods i Hwf); by apply inject_Z_times_8).
    simpl. destruct (built_y_cases i self Hwf Hb) as [->|(yd & Hyd & ->)].
    - by eexists.
    - destruct (pct_movement_is_Ok i self sv yd Hwf Hx Hyd) as [l ->]. by eexists. }
  assert (Hzero : ¬ ((∀ region, region ∈ regions i → ub_reg i !! region ≠ Some 0) ∧
                     ub_global i ≠ 0) →
                  basic_results i self sv = Raise ZeroDivisionError).
  { intros Hn. apply (basic_results_zero_bound c j); [done..|].
    destruct (decide (ub_global i = 0)) as [|Hg]; [by right|left].
    destruct (decide (Exists (λ region, ub_reg i !! region = Some 0) (regions i)))
      as [He|He].
    - apply Exists_exists in He. exact He.
    - destruct Hn. split; [|done]. intros region Hr Hub. apply He.
      apply Exists_exists. eauto. }
  split; [split|].
  - intros [res Hres].
    destruct (decide (ub_global i = 0)) as [Hg|Hg].
    { rewrite Hzero in Hres; [done|]. intros [_ ?]. done. }
    split; [|done]. intros region Hr Hub.
    rewrite Hzero in Hres; [done|]. intros [Hall _]. by apply (Hall region Hr).
  - intros [Hreg Hglb]. by apply Hok.
  - intros e He.
    destruct (decide (ub_global i = 0)) as [Hg|Hg].
    { rewrite Hzero in He by (intros [_ ?]; done). congruence. }
    destruct (decide (Exists (λ region, ub_reg i !! region = Some 0) (regions i)))
      as [Hex|Hex].
    + apply Exists_exists in Hex as (region & Hr & Hub).
      rewrite Hzero in He; [congruence|]. intros [Hall _]. by apply (Hall region Hr).
    + destruct Hok as [res Hres]; [|done|congruence].
      intros region Hr Hub. apply Hex, Exists_exists. eauto.
Qed.

(** ** The hired percentages of a solution *)

Lemma py_sum_le {A} (f g : A → Q) (l : list A) :
  (∀ a, a ∈ l → (f a <= g a)%Q) → (py_sum (f <$> l) <= py_sum (g <$> l))%Q.
Proof.
  induction l as [|a l IH]; intros Hle; [apply Qle_refl|].
  rewrite !fmap_cons, !py_sum_cons. apply Qplus_le_compat.
  - apply Hle. left.
  - apply IH. intros a' Ha'. apply Hle. by right.
Qed.

Lemma py_sum_const {A} (c : Q) (l : list A) :
  (py_sum ((λ _, c) <$> l) == inject_Z (Z.of_nat (length l)) * c)%Q.
Proof.
  induction l as [|a l IH]; [change (py_sum (@fmap list _ _ _ _ [])) with 0%Q; cbn [length]; ring|].
  rewrite fmap_cons, py_sum_cons, IH. cbn [length].
  rewrite Nat2Z.inj_succ, <- Z.add_1_r, inject_Z_plus. simpl. ring.
Qed.

Lemma py_sum_plus {A} (f g : A → Q) (l : list A) :
  (py_sum ((λ a, f a + g a) <$> l) == py_sum (f <$> l) + py_sum (g <$> l))%Q.
Proof.
  induction l as [|a l IH]; [change (py_sum (@fmap list _ _ _ _ [])) with 0%Q; cbn [length]; ring|].
  rewrite !fmap_cons, !py_sum_cons, IH. ring.
Qed.

Lemma py_sum_ext {A} (f g : A → Q) (l : list A) :
  (∀ a, a ∈ l → (f a == g a)%Q) → (py_sum (f <$> l) == py_sum (g <$> l))%Q.
Proof.
  induction l as [|a l IH]; intros Heq; [reflexivity|].
  rewrite !fmap_cons, !py_sum_cons, IH.
  - rewrite (Heq a) by left. reflexivity.
  - intros a' Ha'. apply Heq. by right.
Qed.

Lemma py_sum_singleton (q : Q) : (py_sum [q] == q)%Q.
Proof. unfold py_sum. simpl. ring. Qed.

Lemma py_sum_row {A B} (f : A * B → Q) (a : A) (k : list B) :
  (py_sum (f <$> (b ← k; [(a, b)])) == py_sum ((λ b, f (a, b)) <$> k))%Q.
Proof.
  induction k as [|b k IH]; [reflexivity|].
  rewrite bind_cons, fmap_app, py_sum_app, IH.
  rewrite (fmap_cons (λ b, f (a, b))), (py_sum_cons (f (a, b)) (_ <$> k)).
  apply Qplus_comp; [|reflexivity]. apply (py_sum_singleton (f (a, b))).
Qed.

(** The sum over a product of two lists, read one column at a time. *)
Lemma py_sum_columns {A B} (f : A * B → Q) (l : list A) (k : list B) :
  (py_sum (f <$> (a ← l; b ← k; [(a, b)]))
   == py_sum ((λ b, py_sum ((λ a, f (a, b)) <$> l)) <$> k))%Q.
Proof.
  induction l as [|a l IH].
  - change (f <$> ([] ≫= λ a, b ← k; [(a, b)])) with (@nil Q).
    rewrite (py_sum_const 0%Q k). change (py_sum []) with 0%Q. ring.
  - rewrite bind_cons, fmap_app, py_sum_app, IH, py_sum_row.
    rewrite <- py_sum_plus. apply py_sum_ext. intros b _.
    by rewrite fmap_cons, py_sum_cons.
Qed.

Lemma py_sum_indicator (t : Z) (q : Q) (ps : list Z) :
  NoDup ps → t ∈ ps →
  (py_sum ((λ theta, if decide (t = theta) then q else 0) <$> ps) == q)%Q.
Proof.
  induction ps as [|p ps IH]; intros Hnd Ht; [by apply elem_of_nil in Ht|].
  apply NoDup_cons in Hnd as [Hnin Hnd]. rewrite fmap_cons, py_sum_cons.
  destruct (decide (t = p)) as [->|Hne].
  - rewrite (py_sum_ext _ (λ _, 0%Q)).
    + rewrite py_sum_const. ring.
    + intros theta Hin. destruct (decide (p = theta)) as [->|]; [done|reflexivity].
  - apply elem_of_cons in Ht as [?|Ht]; [done|]. rewrite IH by done. ring.
Qed.

(** The sum over keys whose period is one of [ps], read one period at a
    time. *)
Lemma py_sum_by_period (f : string * Z → Q) (ks : list (string * Z)) (ps : list Z) :
  NoDup ps → (∀ k, k ∈ ks → k.2 ∈ ps) →
  (py_sum (f <$> ks)
   == py_sum ((λ theta,
        py_sum (f <$> filter (λ k : string * Z, bool_decide (k.2 = theta) = true) ks))
      <$> ps))%Q.
Proof.
  intros Hnd. induction ks as [|k ks IH]; intros Hin.
  - rewrite (py_sum_ext
               (λ theta, py_sum (f <$> filter (λ k : string * Z,
                                                bool_decide (k.2 = theta) = true) []))
               (λ _, 0%Q) ps) by (intros; reflexivity).
    rewrite py_sum_const. change (py_sum (f <$> [])) with 0%Q. ring.
  - rewrite fmap_cons, py_sum_cons, IH by (intros k' Hk'; apply Hin; by right).
    rewrite <- (py_sum_indicator k.2 (f k) ps Hnd) at 1 by (apply Hin; left).
    rewrite <- py_sum_plus. apply py_sum_ext. intros theta _.
    rewrite filter_cons. destruct (decide (k.2 = theta)) as [Heq|Hne].
    + rewrite bool_decide_true by done. destruct (decide (true = true)); [|done].
      by rewrite fmap_cons, py_sum_cons.
    + rewrite bool_decide_false by done. destruct (decide (false = true)); [done|].
      ring.
Qed.

Lemma x_nonneg i self sol k :
  wf_instance i → built i self → solution (m self) sol → k ∈ x_keys i →
  (0 <= sol (vx k))%Q.
Proof.
  intros Hwf Hb Hsol Hk. destruct (built_base i self Hwf Hb) as (_ & _ & _ & _ & Hv).
  by destruct (solution_var _ _ _ Hsol (Hv k Hk)) as [Hlb _].
Qed.

Lemma reg_bound_holds i self sol region theta :
  wf_instance i → built i self → solution (m self) sol →
  region ∈ regions i → theta ∈ periods i →
  ∃ ras ub, reg_areas i !! region = Some ras ∧ ub_reg i !! region = Some ub ∧
    (region_total sol ras theta <= inject_Z ub)%Q.
Proof.
  intros Hwf Hb Hsol Hr Ht.
  destruct (built_base i self Hwf Hb) as (base & Hbase & _ & Hsub & _).
  destruct (build_base_model_Ok _ _ Hbase)
    as (obj & cs1 & cs2 & cs3 & _ & H1 & _ & _ & Heq).
  destruct (reg_bound_elem i cs1 region theta Hwf H1 Hr Ht)
    as (ras & ub & Hras & Hub & Hin).
  exists ras, ub. split; [done|]. split; [done|].
  assert (Hmem : {| ConstrName := "reg_bound";
         tc := le_ (lin_sum ((λ a, V (var_x a theta)) <$> ras))
                   (Num (inject_Z ub)) |} ∈ m_constrs (m self)).
  { apply Hsub. rewrite Heq. simpl. rewrite !elem_of_app. left. left.
    by apply (list_elem_of_fmap_2 (Build_Constr "reg_bound")). }
  pose proof (solution_constr _ _ _ Hsol Hmem) as Hh.
  unfold holds in Hh. cbn [tc le_ csense lhs rhs] in Hh.
  by rewrite eval_x_sum in Hh.
Qed.

Lemma global_bound_holds i self sol theta :
  wf_instance i → built i self → solution (m self) sol → theta ∈ periods i →
  (period_total sol i theta <= inject_Z (ub_global i))%Q.
Proof.
  intros Hwf Hb Hsol Ht.
  destruct (built_base i self Hwf Hb) as (base & Hbase & _ & Hsub & _).
  destruct (build_base_model_Ok _ _ Hbase)
    as (obj & cs1 & cs2 & cs3 & _ & _ & H2 & _ & Heq).
  pose proof (global_bound_elem i cs2 theta H2 Ht) as Hin.
  assert (Hmem : {| ConstrName := "global_bound";
       tc := le_ (td_sum vx (x_keys i) (λ k, bool_decide (k.2 = theta)))
                 (Num (inject_Z (ub_global i))) |} ∈ m_constrs (m self)).
  { apply Hsub. rewrite Heq. simpl. rewrite !elem_of_app. left. right.
    by apply (list_elem_of_fmap_2 (Build_Constr "global_bound")). }
  pose proof (solution_constr _ _ _ Hsol Hmem) as Hh.
  unfold holds in Hh. cbn [tc le_ csense lhs rhs] in Hh.
  rewrite eval_td_sum in Hh. exact Hh.
Qed.

(** A percentage [100 * s / (ub * 8)] of a sum [s] of 8 terms between 0 and
    [ub], with [ub] not 0. *)
Lemma pct_within (s : Q) (ub : Z) (f : Z → Q) :
  (s == py_sum (f <$> seqZ 0 8))%Q →
  (∀ theta, theta ∈ seqZ 0 8 → (0 <= f theta <= inject_Z ub)%Q) →
  ub ≠ 0 →
  (0 <= 100 * s / inject_Z (ub * 8) <= 100)%Q.
Proof.
  intros Hs Hf Hub.
  assert (H0 : (0 <= s)%Q).
  { rewrite Hs. apply py_sum_nonneg, Forall_fmap, Forall_forall.
    intros theta Ht. by apply Hf. }
  assert (H8 : (s <= inject_Z (ub * 8))%Q).
  { rewrite Hs.
    eapply Qle_trans; [apply (py_sum_le f (λ _, inject_Z ub)); intros; by apply Hf|].
    rewrite py_sum_const. simpl. rewrite inject_Z_mult.
    apply Qle_lteq. right. ring. }
  assert (Hpos : (0 < inject_Z (ub * 8))%Q).
  { assert (0 ≤ ub).
    { destruct (Hf 0) as [Ha Hb]; [by apply elem_of_seqZ|].
      pose proof (Qle_trans _ _ _ Ha Hb) as Hle.
      replace 0%Q with (inject_Z 0) in Hle by reflexivity.
      by rewrite <- Zle_Qle in Hle. }
    replace 0%Q with (inject_Z 0) by reflexivity. rewrite <- Zlt_Qlt. lia. }
  split.
  - apply Qle_shift_div_l; [done|]. rewrite Qmult_0_l.
    apply Qmult_le_0_compat; [done|exact H0].
  - apply Qle_shift_div_r; [done|]. by apply Qmult_le_l.
Qed.

(** X16.  In the results of a solved model of one of the four builders,
    every regional hired percentage and the global hired percentage lie
    between 0 and 100 (the solver's values satisfying the model). *)
Theorem hired_pct_within (c : invocation) (j : instance_json)
    (i : Instance) (self : Solver) :
  compute_data c j = Ok i → built i self →
  ∀ sv res, solution (m self) (X sv) → basic_results i self sv = Ok res →
    (∀ region p, regional_hired_pct res !! region = Some p →
       (0 <= p <= 100)%Q) ∧
    (0 <= global_avg_hired_pct res <= 100)%Q.
Proof.
  intros Hc Hb sv res Hsol Hres. pose proof (compute_data_wf _ _ _ Hc) as Hwf.
  destruct (built_base i self Hwf Hb) as (_ & _ & Hx & _).
  assert (Hnd : NoDup (periods i)) by (rewrite (wf_periods i Hwf); apply NoDup_seqZ).
  unfold basic_results in Hres. inv_bind Hres. inv_bind Hres.
  destruct v0 as [[o p] h]. inv_bind Hres. inv_bind Hres. inv_bind Hres.
  injection Hres as <-. cbn [regional_hired_pct global_avg_hired_pct]. split.
  - intros region q Hq.
    apply (dict_comp_lookup_Some _ _ _ _ _ E1) in Hq as [Hr Hq].
    destruct (regional_pct_value i self sv region Hwf Hx Hr)
      as (ras & ub & Hras & Hub & Hval).
    rewrite Hval in Hq. apply py_div_Ok in Hq as [-> Hne].
    rewrite (wf_n_periods i Hwf) in *.
    destruct (wf_reg_areas i Hwf _ Hr) as (ras' & Hras' & Hsub).
    assert (ras' = ras) as -> by congruence.
    apply (pct_within _ ub (λ theta, region_total (X sv) ras theta)).
    + rewrite <- (wf_periods i Hwf). apply (py_sum_columns (X sv ∘ vx)).
    + intros theta Ht. rewrite <- (wf_periods i Hwf) in Ht. split.
      * apply py_sum_nonneg, Forall_fmap, Forall_forall. intros a Ha.
        apply (x_nonneg i self (X sv) (a, theta) Hwf Hb Hsol).
        apply elem_of_pairs. auto.
      * destruct (reg_bound_holds i self (X sv) region theta Hwf Hb Hsol Hr Ht)
          as (ras' & ub' & Hras'' & Hub' & Hle).
        assert (ras' = ras) as -> by congruence.
        assert (ub' = ub) as -> by congruence. done.
    + intros ->. by apply Hne.
  - apply py_div_Ok in E2 as [-> Hne]. rewrite (wf_n_periods i Hwf) in *.
    apply (pct_within _ (ub_global i) (λ theta, period_total (X sv) i theta)).
    + rewrite <- (wf_periods i Hwf), Hx. apply py_sum_by_period; [done|].
      intros [a theta] [_ Hk]%elem_of_remove_dups%elem_of_pairs. done.
    + intros theta Ht. rewrite <- (wf_periods i Hwf) in Ht. split.
      * apply py_sum_nonneg, Forall_fmap, Forall_forall. intros k Hk.
        apply list_elem_of_filter in Hk as [_ Hk]. rewrite elem_of_remove_dups in Hk.
        by apply (x_nonneg i self (X sv) k Hwf Hb Hsol).
      * by apply (global_bound_holds i self (X sv) theta Hwf Hb Hsol).
    + intros Hz. apply Hne. by rewrite Hz.
Qed.

(** ** The periods with a shift start *)

Lemma anyM_pure {A} (q : A → bool) (l : list A) :
  anyM (λ a, Ok (q a)) l = Ok (existsb q l).
Proof.
  induction l as [|a l IH]; [done|]. simpl. destruct (q a); [done|exact IH].
Qed.

Lemma anyM_ext {A} (p q : A → result bool) (l : list A) :
  (∀ a, a ∈ l → p a = q a) → anyM p l = anyM q l.
Proof.
  induction l as [|a l IH]; intros Hpq; [done|]. simpl.
  rewrite (Hpq a) by left. destruct (q a) as [[|]|]; simpl; try done.
  apply IH. intros a' Ha'. apply Hpq. by right.
Qed.

Lemma foldM_ext_in {A B} (f g : B → A → result B) l b :
  (∀ b a, a ∈ l → f b a = g b a) → foldM f l b = foldM g l b.
Proof.
  revert b. induction l as [|a l IH]; intros b Hfg; simpl; [done|].
  rewrite Hfg by left. destruct (g b a); simpl; [|done].
  apply IH. intros b' a' Ha'. apply Hfg. by right.
Qed.

Lemma foldM_count (q : Z → bool) (l : list Z) (n : Z) :
  foldM (λ n theta, Ok (if q theta then n + 1 else n)) l n
  = Ok (n + Z.of_nat (length (filter (λ theta, q theta = true) l))).
Proof.
  revert n. induction l as [|theta l IH]; intros n; simpl.
  - f_equal. lia.
  - rewrite IH, filter_cons. destruct (q theta) eqn:Hq.
    + destruct (decide (true = true)); [|done]. simpl. f_equal. lia.
    + destruct (decide (false = true)); [done|]. done.
Qed.

Lemma flex_zminus i self :
  wf_instance i →
  build_flexible_model i = Ok self ∨ build_partflex_model i = Ok self →
  zminus self = Some (x_keys i) ∧ x self = x_keys i ∧ built i self.
Proof.
  intros Hwf [Hb|Hb].
  - destruct (build_flexible_model_Ok i self Hwf Hb)
      as (? & ? & ? & ? & _ & _ & _ & Hx & _ & _ & _ & Hz & _).
    split; [done|]. split; [done|]. right. right. by left.
  - destruct (build_partflex_model_full i self Hwf Hb)
      as (flex & cs & cap & Hf & _ & _ & Hx & _ & _ & Hz & _).
    destruct (build_flexible_model_Ok i flex Hwf Hf)
      as (? & ? & ? & ? & _ & _ & _ & Hx' & _ & _ & _ & Hz' & _).
    split; [congruence|]. split; [congruence|]. right. right. by right.
Qed.

Lemma flex_count i self sv :
  wf_instance i → zminus self = Some (x_keys i) →
  foldM (λ n theta,
      zm ← getattr (zminus self);
      present ← anyM (λ a, Ok (bool_decide ((a, theta) ∈ zm))) (areas i);
      if present : bool then
        started ← anyM (λ a, v ← td_X sv vzminus zm (a, theta);
                            Ok (if Qlt_le_dec (1 # 10) v then true else false))
                       (areas i);
        Ok (if started : bool then n + 1 else n)
      else Ok n)
    (periods i) 0
  = Ok (Z.of_nat (length (start_periods sv i))).
Proof.
  intros Hwf Hz. unfold start_periods.
  rewrite <- (Z.add_0_l (Z.of_nat _)), <- (foldM_count (starts_shift sv i)).
  apply foldM_ext_in. intros n theta Ht. rewrite Hz. simpl.
  rewrite anyM_pure. unfold starts_shift.
  rewrite (anyM_ext _ (λ a, Ok (if Qlt_le_dec (1 # 10) (X sv (var_zminus a theta))
                                then true else false))). 2:{
    intros a Ha. rewrite (td_X_elem sv vzminus (x_keys i) (a, theta)); [done|].
    apply elem_of_pairs. auto. }
  rewrite anyM_pure.
  destruct (existsb (λ a : string, bool_decide ((a, theta) ∈ x_keys i)) (areas i))
    eqn:Hp; simpl; [done|].
  destruct (areas i) as [|a ars] eqn:Hars; [done|].
  simpl in Hp. rewrite bool_decide_true in Hp; [done|].
  apply elem_of_pairs. rewrite Hars. split; [left|done].
Qed.

(** X17.  On the flexible and the partially flexible model,
    [__flex_results] returns whenever [__basic_results] does; the count it
    reports is the number of periods at which some area has a shift-start
    value above 0.1, it is at most 8, and the percentage is 100 times the
    count over the 8 periods. *)
Theorem flex_results_start_periods (c : invocation) (j : instance_json)
    (i : Instance) (self : Solver) (sv : Solved) :
  compute_data c j = Ok i →
  build_flexible_model i = Ok self ∨ build_partflex_model i = Ok self →
  (is_Ok (flex_results i self sv) ↔ is_Ok (basic_results i self sv)) ∧
  ∀ res, flex_results i self sv = Ok res →
    let n := Z.of_nat (length (start_periods sv i)) in
    periods_with_start res = Some n ∧ 0 ≤ n ≤ 8 ∧
    periods_with_start_pct res = Some (100 * inject_Z n / inject_Z 8)%Q ∧
    ∀ theta, theta ∈ start_periods sv i ↔
      theta ∈ periods i ∧
      ∃ a, a ∈ areas i ∧ (1 # 10 < X sv (var_zminus a theta))%Q.
Proof.
  intros Hc Hb. pose proof (compute_data_wf _ _ _ Hc) as Hwf.
  destruct (flex_zminus i self Hwf Hb) as (Hz & _ & _).
  assert (Hdiv : py_div (100 * inject_Z (Z.of_nat (length (start_periods sv i))))
                        (inject_Z (n_periods i))
                 = Ok (100 * inject_Z (Z.of_nat (length (start_periods sv i)))
                       / inject_Z 8)%Q).
  { rewrite (wf_n_periods i Hwf). by apply py_div_pos. }
  split; [split|].
  - intros [res Hres]. unfold flex_results in Hres. inv_bind Hres. by eexists.
  - intros [res0 Hres0]. unfold flex_results. rewrite Hres0. simpl.
    rewrite (flex_count i self sv Hwf Hz). simpl. rewrite Hdiv. by eexists.
  - intros res Hres n. unfold flex_results in Hres. inv_bind Hres.
    rewrite (flex_count i self sv Hwf Hz) in Hres. simpl in Hres.
    rewrite Hdiv in Hres. simpl in Hres. injection Hres as <-. simpl.
    split; [done|]. split; [|split; [done|]].
    + split; [lia|]. unfold n, start_periods.
      pose proof (length_filter (λ theta, starts_shift sv i theta = true) (periods i)) as Hle.
      rewrite (wf_periods i Hwf) in Hle at 2. rewrite length_seqZ in Hle. lia.
    + intros theta. unfold start_periods. rewrite list_elem_of_filter.
      unfold starts_shift. rewrite existsb_exists. split.
      * intros [(a & Ha & Hv) Ht]. split; [done|]. exists a.
        split; [by apply list_elem_of_In|].
        by destruct (Qlt_le_dec (1 # 10) (X sv (var_zminus a theta))).
      * intros [Ht (a & Ha & Hv)]. split; [|done]. exists a.
        split; [by apply list_elem_of_In|].
        destruct (Qlt_le_dec (1 # 10) (X sv (var_zminus a theta))) as [|Hle]; [done|].
        by apply Qle_not_lt in Hle.
Qed.

Lemma close_at_keeps keys (l : list Var) v :
  v ∈ l → ∃ v', v' ∈ close_at keys <$> l ∧ key v' = key v ∧ LB v' = LB v.
Proof.
  intros Hv. exists (close_at keys v). split; [by apply list_elem_of_fmap_2|].
  unfold close_at. by destruct (decide (key v ∈ keys)).
Qed.

Lemma partflex_solution_flex i self sol :
  wf_instance i → build_partflex_model i = Ok self → solution (m self) sol →
  ∃ flex, build_flexible_model i = Ok flex ∧ solution (m flex) sol.
Proof.
  intros Hwf Hb [Hv Hcs].
  destruct (build_partflex_model_full i self Hwf Hb)
    as (flex & cs & cap & Hf & _ & _ & _ & _ & _ & _ & _ & Hvars & Hconstrs).
  exists flex. split; [done|]. rewrite Hvars in Hv. rewrite Hconstrs in Hcs.
  apply Forall_app in Hv as [Hv _]. apply Forall_app in Hcs as [Hcs _].
  apply Forall_app in Hcs as [Hcs _]. by split.
Qed.

Lemma flex_zminus_values i self sol a theta :
  wf_instance i → build_flexible_model i = Ok self → solution (m self) sol →
  a ∈ areas i → theta ∈ periods i →
  (0 <= sol (var_zminus a theta))%Q ∧
  (5 ≤ theta → (sol (var_zminus a theta) == 0)%Q).
Proof.
  intros Hwf Hb Hsol Ha Ht.
  destruct (build_flexible_model_Ok i self Hwf Hb)
    as (base & yi & cs5 & cs6 & _ & _ & _ & _ & _ & _ & _ & _ & _ & Hv & _).
  assert (Hdecl : mkVar INTEGER 0 0 (vzminus (a, theta)) ∈
            ((m_vars (m base) ++ (mkVar INTEGER 0 EPS ∘ vy <$> yi))
             ++ (mkVar INTEGER 0 0 ∘ vzplus <$> x_keys i))
            ++ (mkVar INTEGER 0 0 ∘ vzminus <$> x_keys i)).
  { apply elem_of_app. right.
    apply (list_elem_of_fmap_2' _ _ (a, theta)); [|done]. by apply elem_of_pairs. }
  split.
  - destruct (close_at_keeps
                ((λ k : Z * string, var_zminus k.2 k.1) <$>
                 (theta ← range2 5 8; a ← areas i; [(theta, a)])) _ _ Hdecl)
      as (v1 & Hv1 & Hk1 & Hl1).
    destruct (close_at_keeps
                ((λ k : Z * string, var_zplus k.2 k.1) <$>
                 (theta ← range 3; a ← areas i; [(theta, a)])) _ _ Hv1)
      as (v2 & Hv2 & Hk2 & Hl2).
    rewrite <- Hv in Hv2.
    destruct (solution_var _ _ _ Hsol Hv2) as [Hlb _].
    rewrite Hl2, Hl1, Hk2, Hk1 in Hlb. exact Hlb.
  - intros H5.
    assert (Hmem : {| key := var_zminus a theta; VType := INTEGER; LB := 0;
                      UB := Some 0%Q; Obj := 0 |} ∈ m_vars (m self)).
    { rewrite Hv.
      apply close_at_elem; [|intros (? & ? & _)%list_elem_of_fmap; done].
      apply (close_at_closed _ _ (mkVar INTEGER 0 0 (vzminus (a, theta)))).
      - exact Hdecl.
      - apply (list_elem_of_fmap_2' _ _ (theta, a)); [|done].
        apply elem_of_pairs. split; [|done].
        rewrite (wf_periods i Hwf) in Ht. apply elem_of_seqZ in Ht.
        apply elem_of_seqZ. lia. }
    by apply (closed_is_zero sol _ (solution_var _ _ _ Hsol Hmem)).
Qed.

Lemma start_periods_elem sv i theta :
  theta ∈ start_periods sv i ↔
  theta ∈ periods i ∧ ∃ a, a ∈ areas i ∧ (1 # 10 < X sv (var_zminus a theta))%Q.
Proof.
  unfold start_periods. rewrite list_elem_of_filter.
  unfold starts_shift. rewrite existsb_exists. split.
  - intros [(a & Ha & Hv) Ht]. split; [done|]. exists a.
    split; [by apply list_elem_of_In|].
    by destruct (Qlt_le_dec (1 # 10) (X sv (var_zminus a theta))).
  - intros [Ht (a & Ha & Hv)]. split; [|done]. exists a.
    split; [by apply list_elem_of_In|].
    destruct (Qlt_le_dec (1 # 10) (X sv (var_zminus a theta))) as [|Hle]; [done|].
    by apply Qle_not_lt in Hle.
Qed.

(** X18.  When the solver's values satisfy the model, the periods reported
    with a shift start are among the first five, so at most 5 on the
    flexible and the partially flexible model; on the partially flexible
    model each of them has [w[theta] = 1] and their number is at most
    [max_n_shifts]. *)
Theorem start_periods_within_cap (c : invocation) (j : instance_json)
    (i : Instance) (self : Solver) :
  compute_data c j = Ok i →
  build_flexible_model i = Ok self ∨ build_partflex_model i = Ok self →
  ∀ sv res, solution (m self) (X sv) → flex_results i self sv = Ok res →
    ∃ n, periods_with_start res = Some n ∧ 0 ≤ n ≤ 5 ∧
         (∀ theta, theta ∈ start_periods sv i → 0 ≤ theta < 5) ∧
         (build_partflex_model i = Ok self →
            ∃ cap, max_n_shifts i = Some (Some cap) ∧ n ≤ cap ∧
                   ∀ theta, theta ∈ start_periods sv i →
                            (X sv (var_w theta) == 1)%Q).
Proof.
  intros Hc Hb sv res Hsol Hres. pose proof (compute_data_wf _ _ _ Hc) as Hwf.
  destruct (flex_zminus i self Hwf Hb) as (Hz & _ & _).
  assert (Hflex : ∃ flex, build_flexible_model i = Ok flex ∧ solution (m flex) (X sv)).
  { destruct Hb as [Hb|Hb]; [by exists self|].
    by apply (partflex_solution_flex i self). }
  destruct Hflex as (flex & Hf & Hfsol).
  assert (Hearly : ∀ theta, theta ∈ start_periods sv i → 0 ≤ theta < 5).
  { intros theta (Ht & a & Ha & Hv)%start_periods_elem.
    destruct (flex_zminus_values i flex (X sv) a theta Hwf Hf Hfsol Ha Ht) as [_ H0].
    rewrite (wf_periods i Hwf) in Ht. apply elem_of_seqZ in Ht.
    destruct (decide (5 ≤ theta)) as [H5|]; [|lia].
    rewrite (H0 H5) in Hv. discriminate. }
  assert (Hnd : NoDup (start_periods sv i)).
  { apply NoDup_filter. rewrite (wf_periods i Hwf). apply NoDup_seqZ. }
  assert (Hsub : start_periods sv i ⊆+ seqZ 0 5).
  { apply NoDup_submseteq; [done|]. intros theta Ht%Hearly. apply elem_of_seqZ. lia. }
  exists (Z.of_nat (length (start_periods sv i))). split; [|split; [|split; [done|]]].
  - unfold flex_results in Hres. inv_bind Hres.
    rewrite (flex_count i self sv Hwf Hz) in Hres. simpl in Hres.
    inv_bind Hres. by injection Hres as <-.
  - apply submseteq_length in Hsub. rewrite length_seqZ in Hsub. lia.
  - intros Hp.
    destruct (partflex_solution i self (X sv) Hwf Hp Hsol)
      as (cap & Hcap & Hbin & Hsum & Hlink).
    assert (Hone : ∀ theta, theta ∈ start_periods sv i → (X sv (var_w theta) == 1)%Q).
    { intros theta Hin. pose proof (Hearly theta Hin) as Ht5.
      apply start_periods_elem in Hin as (Ht & a & Ha & Hv).
      destruct (wf_area_regs i Hwf a Ha) as (region & ras & _ & Hr & Hras & Hin).
      destruct (Hlink region theta Hr Ht5) as (ras' & ub & Hras' & _ & Hle).
      assert (ras' = ras) as -> by congruence.
      destruct (Hbin theta Ht5) as [H0|H1]; [|done].
      rewrite H0, Qmult_0_r in Hle.
      assert (Hge : (X sv (var_zminus a theta) <= region_starts (X sv) ras theta)%Q).
      { rewrite <- (py_sum_singleton (X sv (var_zminus a theta))).
        apply (py_sum_submseteq (λ a, X sv (var_zminus a theta)) [a] ras).
        - by apply singleton_submseteq_l.
        - intros a' Ha'. destruct (wf_reg_areas i Hwf _ Hr) as (ras' & Hras'' & Hall).
          assert (ras' = ras) as -> by congruence.
          by destruct (flex_zminus_values i flex (X sv) a' theta Hwf Hf Hfsol
                         (Hall a' Ha') Ht). }
      pose proof (Qle_trans _ _ _ Hge Hle) as Hneg.
      pose proof (Qlt_le_trans _ _ _ Hv Hneg) as Habs. discriminate. }
    exists cap. split; [done|]. split; [|done].
    rewrite Zle_Qle.
    rewrite <- (py_sum_const_one (X sv ∘ vw) (start_periods sv i)) by
      (intros theta Hin; by apply Hone).
    eapply Qle_trans; [|exact Hsum].
    apply py_sum_submseteq; [done|].
    intros theta Hin. apply elem_of_seqZ in Hin.
    destruct (Hbin theta) as [H0|H1']; [lia| |].
    + simpl. rewrite H0. apply Qle_refl.
    + simpl. rewrite H1'. discriminate.
Qed.

(** ** The parcel estimates *)

Lemma Qdiv_le_iff a b n : (0 < n)%Q → (a / n <= b / n ↔ a <= b)%Q.
Proof. intros Hn. unfold Qdiv. apply Qmult_le_r. by apply Qinv_lt_0_compat. Qed.

Lemma py_max_0_nonneg a : (0 <= py_max a 0)%Q.
Proof.
  unfold py_max. destruct (Qlt_le_dec a 0) as [|Hle]; [apply Qle_refl|exact Hle].
Qed.

Lemma py_max_0_of_nonneg a : (0 <= a)%Q → py_max a 0 = a.
Proof.
  intros Ha. unfold py_max. destruct (Qlt_le_dec a 0) as [Hlt|]; [|done].
  by apply Qle_not_lt in Ha.
Qed.

Lemma py_max_0_of_nonpos a : (a <= 0)%Q → (py_max a 0 == 0)%Q.
Proof.
  intros Ha. unfold py_max. destruct (Qlt_le_dec a 0) as [|Hle]; [reflexivity|].
  by apply Qle_antisym.
Qed.

(** X19.  The parcel estimates of an area and period always exist on a
    built model with complete demand; the outsourced values are never
    negative; with [D] the mean demand over the scenarios that require
    couriers, outsourced plus in-house parcels are [D] when the in-house
    estimate is at most [D], and nothing is outsourced when it is at least
    [D]; the outsourced percentage is at most 100 when the hired value is
    not negative. *)
Theorem parcels_add_up (c : invocation) (j : instance_json)
    (i : Instance) (self : Solver) (sv : Solved) (a : string) (theta : Z) :
  compute_data c j = Ok i → demand_complete i → built i self →
  a ∈ areas i → theta ∈ periods i →
  ∃ o p h,
    parcel_estimates i self sv a theta = Ok (o, p, h) ∧
    let D := Qmean ((λ s, demand_at i s a theta) <$> positive_scenarios i a theta) in
    (0 <= o)%Q ∧ (0 <= p)%Q ∧
    ((h <= D)%Q → (o + h == D)%Q) ∧
    ((D <= h)%Q → (o == 0)%Q) ∧
    ((0 <= X sv (var_x a theta))%Q → (p <= 100)%Q).
Proof.
  intros Hc Hd Hb Ha Ht. pose proof (compute_data_wf _ _ _ Hc) as Hwf.
  destruct (built_base i self Hwf Hb) as (_ & _ & Hx & _).
  destruct (wf_parcel_inputs c j i self a theta Hc Hd Hx Ha Ht) as (Hreq & Hdem & Hin).
  destruct (decide (positive_scenarios i a theta = [])) as [Hps|Hne].
  { exists 0%Q, 0%Q, 0%Q. split.
    - by apply parcel_estimates_zero.
    - rewrite Hps. unfold Qmean. simpl. repeat split; try done; intros; reflexivity. }
  pose proof (parcel_estimates_value i self sv a theta Hreq Hdem Hin Hne) as Hval.
  cbv zeta in Hval.
  set (xv := X sv (var_x a theta)) in *.
  set (ps := positive_scenarios i a theta) in *.
  set (n := inject_Z (Z.of_nat (length ps))) in *.
  set (T1 := py_sum ((λ s, (required i s a theta - xv) * demand_at i s a theta
                           / required i s a theta)%Q <$> ps)) in *.
  set (T2 := py_sum ((λ s, 100 * (required i s a theta - xv)
                           / required i s a theta)%Q <$> ps)) in *.
  set (T3 := py_sum ((λ s, demand_at i s a theta * xv / required i s a theta)%Q
                     <$> ps)) in *.
  exists (py_max T1 0 / n)%Q, (py_max T2 0 / n)%Q, (T3 / n)%Q.
  split; [exact Hval|]. intros D.
  assert (Hn : (0 < n)%Q).
  { unfold n. replace 0%Q with (inject_Z 0) by reflexivity. rewrite <- Zlt_Qlt.
    destruct ps; [done|simpl; lia]. }
  assert (Hr : ∀ s, s ∈ ps → (0 < required i s a theta)%Q).
  { intros s Hs. unfold ps, positive_scenarios in Hs.
    apply list_elem_of_filter in Hs as [Hs _]. by apply positive_true. }
  assert (Hsum : (T1 + T3 == py_sum ((λ s, demand_at i s a theta) <$> ps))%Q).
  { unfold T1, T3. rewrite <- py_sum_plus. apply py_sum_ext. intros s Hs.
    pose proof (Qlt_nonzero _ (Hr s Hs)). by field. }
  fold (Qmean ((λ s, demand_at i s a theta) <$> ps)) in D.
  assert (HD : (D == (T1 + T3) / n)%Q).
  { unfold D, Qmean. rewrite length_fmap. fold n. by rewrite Hsum. }
  split; [|split; [|split; [|split]]].
  - apply Qle_shift_div_l; [done|]. rewrite Qmult_0_l. apply py_max_0_nonneg.
  - apply Qle_shift_div_l; [done|]. rewrite Qmult_0_l. apply py_max_0_nonneg.
  - intros Hle. rewrite HD in Hle. apply Qdiv_le_iff in Hle; [|done].
    assert (H1 : (0 <= T1)%Q).
    { apply (Qplus_le_l _ _ T3). by rewrite Qplus_0_l. }
    rewrite (py_max_0_of_nonneg _ H1), HD.
    pose proof (Qlt_nonzero _ Hn). by field.
  - intros Hle. rewrite HD in Hle. apply Qdiv_le_iff in Hle; [|done].
    assert (H1 : (T1 <= 0)%Q).
    { apply (Qplus_le_l _ _ T3). by rewrite Qplus_0_l. }
    rewrite (py_max_0_of_nonpos _ H1). unfold Qdiv. apply Qmult_0_l.
  - intros Hxv. apply Qle_shift_div_r; [done|].
    assert (H2 : (T2 <= 100 * n)%Q).
    { unfold T2. eapply Qle_trans.
      - apply (py_sum_le _ (λ _, 100%Q)). intros s Hs.
        apply Qle_shift_div_r; [by apply Hr|].
        apply Qmult_le_l; [done|].
        rewrite <- (Qplus_0_r (required i s a theta)) at 2.
        unfold Qminus. apply Qplus_le_r.
        apply (Qopp_le_compat 0 xv Hxv).
      - rewrite py_sum_const. fold n. apply Qle_lteq. right. ring. }
    unfold py_max. destruct (Qlt_le_dec T2 0) as [Hlt|Hge]; [|done].
    apply Qmult_le_0_compat; [done|]. by apply Qlt_le_weak.
Qed.

(** ** The models as extensions of one another *)

Lemma solution_subset md md' sol :
  (∀ v, v ∈ m_vars md → v ∈ m_vars md') →
  (∀ c, c ∈ m_constrs md → c ∈ m_constrs md') →
  solution md' sol → solution md sol.
Proof.
  intros Hv Hc [Hvars Hcs]. split; apply Forall_forall.
  - intros v Hin. by apply (proj1 (Forall_forall _ _) Hvars), Hv.
  - intros c Hin. by apply (proj1 (Forall_forall _ _) Hcs c), Hc.
Qed.

Lemma base_var_not_closed i base v (l1 l2 : list (Z * string)) :
  build_base_model i = Ok base → v ∈ m_vars (m base) →
  (key v ∉ (λ k : Z * string, var_zminus k.2 k.1) <$> l1) ∧
  (key v ∉ (λ k : Z * string, var_zplus k.2 k.1) <$> l2).
Proof.
  intros Hb Hv.
  destruct (build_base_model_Ok _ _ Hb) as (? & ? & ? & ? & _ & _ & _ & _ & ->).
  simpl in Hv. apply elem_of_app in Hv as [Hv|Hv];
    apply list_elem_of_fmap in Hv as (k & -> & _);
    split; intros (? & ? & _)%list_elem_of_fmap; done.
Qed.

(** X20.  Each of the fixed, flexible and partially flexible models extends
    the base model, and the partially flexible model extends the flexible
    one: the variables and constraints of the smaller model are, unchanged,
    among those of the larger, so every solution of the larger model is a
    solution of the smaller. *)
Theorem models_extend_base (c : invocation) (j : instance_json)
    (i : Instance) (self : Solver) :
  compute_data c j = Ok i → built i self →
  (∃ base, build_base_model i = Ok base ∧
     (∀ v, v ∈ m_vars (m base) → v ∈ m_vars (m self)) ∧
     (∀ c, c ∈ m_constrs (m base) → c ∈ m_constrs (m self)) ∧
     (∀ sol, solution (m self) sol → solution (m base) sol)) ∧
  (build_partflex_model i = Ok self →
   ∃ flex, build_flexible_model i = Ok flex ∧
     (∀ v, v ∈ m_vars (m flex) → v ∈ m_vars (m self)) ∧
     (∀ c, c ∈ m_constrs (m flex) → c ∈ m_constrs (m self)) ∧
     (∀ sol, solution (m self) sol → solution (m flex) sol)).
Proof.
  intros Hc Hb. pose proof (compute_data_wf _ _ _ Hc) as Hwf.
  assert (Hflex : ∀ flex, build_flexible_model i = Ok flex →
    ∃ base, build_base_model i = Ok base ∧
      (∀ v, v ∈ m_vars (m base) → v ∈ m_vars (m flex)) ∧
      (∀ c, c ∈ m_constrs (m base) → c ∈ m_constrs (m flex))).
  { intros flex Hf.
    destruct (build_flexible_model_Ok i flex Hwf Hf)
      as (base & yi & cs5 & cs6 & Hbase & _ & _ & _ & _ & _ & _ & _ & _ & Hv & Hcs).
    exists base. split; [done|]. split.
    - intros v Hin. rewrite Hv.
      destruct (base_var_not_closed i base v
                  (theta ← range2 5 8; a ← areas i; [(theta, a)])
                  (theta ← range 3; a ← areas i; [(theta, a)]) Hbase Hin) as [H1 H2].
      apply close_at_elem; [|exact H2]. apply close_at_elem; [|exact H1].
      rewrite !elem_of_app. auto.
    - intros c' Hin. rewrite Hcs, !elem_of_app. auto. }
  assert (Hpart : ∀ self, build_partflex_model i = Ok self →
    ∃ flex, build_flexible_model i = Ok flex ∧
      (∀ v, v ∈ m_vars (m flex) → v ∈ m_vars (m self)) ∧
      (∀ c, c ∈ m_constrs (m flex) → c ∈ m_constrs (m self))).
  { intros s Hs.
    destruct (build_partflex_model_full i s Hwf Hs)
      as (flex & cs & cap & Hf & _ & _ & _ & _ & _ & _ & _ & Hv & Hcs).
    exists flex. split; [done|]. split.
    - intros v Hin. rewrite Hv, elem_of_app. auto.
    - intros c' Hin. rewrite Hcs, !elem_of_app. auto. }
  assert (Hbase : ∃ base, build_base_model i = Ok base ∧
     (∀ v, v ∈ m_vars (m base) → v ∈ m_vars (m self)) ∧
     (∀ c, c ∈ m_constrs (m base) → c ∈ m_constrs (m self))).
  { destruct Hb as [Hb|[Hb|[Hb|Hb]]].
    - exists self. auto.
    - pose proof Hb as Hb'. unfold build_fixed_model in Hb'.
      inv_bind Hb'. rename v into base.
      inv_bind Hb'. apply add_y_vars_Ok in E0 as (yi & Hyi & ->).
      inv_bind Hb'. apply addConstrs_Ok in E0 as (cs1 & H1 & ->).
      inv_bind Hb'. apply addConstrs_Ok in E0 as (cs2 & H2 & ->).
      injection Hb' as <-. exists base. split; [done|]. simpl. split.
      + intros v Hin. rewrite elem_of_app. auto.
      + intros c' Hin. rewrite !elem_of_app. auto.
    - by apply Hflex.
    - destruct (Hpart self Hb) as (flex & Hf & Hv & Hcs).
      destruct (Hflex flex Hf) as (base & Hbase & Hv' & Hcs').
      exists base. split; [done|]. split; auto. }
  split.
  - destruct Hbase as (base & Hbase & Hv & Hcs). exists base.
    split; [done|]. split; [done|]. split; [done|].
    intros sol. by apply solution_subset.
  - intros Hp. destruct (Hpart self Hp) as (flex & Hf & Hv & Hcs). exists flex.
    split; [done|]. split; [done|]. split; [done|].
    intros sol. by apply solution_subset.
Qed.

(** ** What the script returns for each model *)

Lemma basic_results_fields i self sv res :
  basic_results i self sv = Ok res →
  num_periods res = num_time_intervals (i_json i) ∧
  n_shift_start_periods res = None ∧
  periods_with_start res = None ∧ periods_with_start_pct res = None ∧
  (y self = None → courier_moved_pct res = None) ∧
  (is_Some (y self) → is_Some (courier_moved_pct res)).
Proof.
  intros Hres. unfold basic_results in Hres. inv_bind Hres. inv_bind Hres.
  destruct v0 as [[o p] h]. inv_bind Hres. inv_bind Hres. inv_bind Hres.
  injection Hres as <-. simpl. repeat split; try done.
  - intros Hy. rewrite Hy in E3. by injection E3 as <-.
  - intros [yd Hy]. rewrite Hy in E3. inv_bind E3. injection E3 as <-. by eexists.
Qed.

Lemma flex_results_fields i self sv res :
  flex_results i self sv = Ok res →
  ∃ res0, basic_results i self sv = Ok res0 ∧
    num_periods res = num_periods res0 ∧
    courier_moved_pct res = courier_moved_pct res0 ∧
    n_shift_start_periods res = n_shift_start_periods res0 ∧
    is_Some (periods_with_start res) ∧ is_Some (periods_with_start_pct res).
Proof.
  intros Hres. unfold flex_results in Hres. inv_bind Hres. inv_bind Hres.
  inv_bind Hres. injection Hres as <-. exists v. simpl.
  repeat split; try done; by eexists.
Qed.

(** X21.  What the script returns, by model: the base model reports no
    movement percentage and no shift-start figures; the fixed model reports
    a movement percentage and 2 shift-start periods; the flexible and the
    partially flexible model report a movement percentage, the counted
    periods with a start and their percentage; results for the partially
    flexible model exist only when [-u] was given; the period count
    reported is always 8. *)
Theorem results_by_model (optimize : Model → Solved) (a : Namespace)
    (j : instance_json) (res : Results) :
  main optimize a j = Ok res →
  num_periods res = 8 ∧
  (args_model a = "base" →
     courier_moved_pct res = None ∧ n_shift_start_periods res = None ∧
     periods_with_start res = None ∧ periods_with_start_pct res = None) ∧
  (args_model a = "fixed" →
     is_Some (courier_moved_pct res) ∧ n_shift_start_periods res = Some 2 ∧
     periods_with_start res = None ∧ periods_with_start_pct res = None) ∧
  (args_model a = "flex" ∨ args_model a = "partflex" →
     is_Some (courier_moved_pct res) ∧ n_shift_start_periods res = None ∧
     is_Some (periods_with_start res) ∧ is_Some (periods_with_start_pct res)) ∧
  (args_model a = "partflex" → is_Some (args_max_n_shifts a)).
Proof.
  intros Hmain. unfold main in Hmain. inv_bind Hmain. rename v into i.
  pose proof (compute_data_wf _ _ _ E) as Hwf.
  pose proof (compute_data_derived _ _ _ E) as Hd.
  assert (H8 : num_time_intervals (i_json i) = 8).
  { rewrite (d_json _ _ _ Hd), <- (d_n_periods _ _ _ Hd). apply (wf_n_periods i Hwf). }
  assert (Hflexres : ∀ self, 
    build_flexible_model i = Ok self ∨ build_partflex_model i = Ok self →
    flex_results i self (optimize (m self)) = Ok res →
    num_periods res = 8 ∧ is_Some (courier_moved_pct res) ∧
    n_shift_start_periods res = None ∧
    is_Some (periods_with_start res) ∧ is_Some (periods_with_start_pct res)).
  { intros self Hb Hres.
    destruct (flex_results_fields _ _ _ _ Hres) as (res0 & Hres0 & -> & -> & -> & ? & ?).
    destruct (basic_results_fields _ _ _ _ Hres0) as (-> & -> & _ & _ & _ & Hy).
    split; [done|]. split; [|done]. apply Hy.
    destruct Hb as [Hb|Hb].
    - destruct (built_y i self Hwf (or_intror Hb)) as (yd & _ & -> & _). by eexists.
    - destruct (build_partflex_model_full i self Hwf Hb)
        as (flex & cs & cap & Hf & _ & _ & _ & -> & _).
      destruct (built_y i flex Hwf (or_intror Hf)) as (yd & _ & -> & _). by eexists. }
  destruct (decide (args_model a = "base")) as [Hm|Hnb].
  { unfold solve_base in Hmain. inv_bind Hmain. rename v into self.
    destruct (basic_results_fields _ _ _ _ Hmain) as (-> & ? & ? & ? & Hy & _).
    assert (y self = None) as Hnone.
    { by destruct (build_base_model_Ok _ _ E0) as (? & ? & ? & ? & _ & _ & _ & _ & ->). }
    split; [done|]. rewrite Hm.
    split; [intros _; auto|]. split; [done|]. split; [intros [?|?]; done|done]. }
  destruct (decide (args_model a = "fixed")) as [Hm|Hnf].
  { unfold solve_fixed, fixed_results in Hmain. inv_bind Hmain. rename v into self.
    inv_bind Hmain. injection Hmain as <-. simpl.
    destruct (basic_results_fields _ _ _ _ E1) as (-> & ? & ? & ? & _ & Hy).
    destruct (built_y i self Hwf (or_introl E0)) as (yd & _ & Hy' & _).
    split; [done|]. rewrite Hm.
    split; [done|]. split; [|split; [intros [?|?]; done|done]].
    intros _. split; [|done]. apply Hy. by eexists. }
  destruct (decide (args_model a = "partflex")) as [Hm|Hnp].
  { unfold solve_partflex in Hmain. inv_bind Hmain. rename v into self.
    destruct (Hflexres self (or_intror E0) Hmain) as (? & ? & ? & ? & ?).
    split; [done|]. rewrite Hm.
    split; [done|]. split; [done|]. split; [done|]. intros _.
    destruct (build_partflex_model_full i self Hwf E0)
      as (flex & cs & cap & _ & _ & Hcap & _).
    pose proof (d_params _ _ _ Hd) as Hq. simpl in Hq. injection Hq as _ _ _ Hmi.
    pose proof (d_partflex _ _ _ Hd) as Hp. unfold partflex_attrs in Hp.
    rewrite decide_True in Hp by congruence. injection Hp as Hp _.
    rewrite Hcap in Hp. injection Hp as ->. by eexists. }
  unfold solve_flex in Hmain. inv_bind Hmain. rename v into self.
  destruct (Hflexres self (or_introl E0) Hmain) as (? & ? & ? & ? & ?).
  split; [done|]. split; [done|]. split; [done|]. split; [done|done].
Qed.

(** ** The averages of the results *)

Lemma np_mean_is_Fin (qs : list Q) : qs ≠ [] → ∃ q, np_mean (Fin <$> qs) = Fin q.
Proof. intros Hne. rewrite np_mean_Fin by done. by eexists. Qed.

(** X22.  The averages in returned results are numbers: results are
    returned only when the global bound is not 0, so there is a region and
    the mean of the regional percentages is not the not-a-number of an
    empty mean; the same holds for the movement percentage when it is
    reported. *)
Theorem averages_are_numbers (c : invocation) (j : instance_json)
    (i : Instance) (self : Solver) (sv : Solved) (res : Results) :
  compute_data c j = Ok i → basic_results i self sv = Ok res →
  regions i ≠ [] ∧ ub_global i ≠ 0 ∧
  (∃ q, regional_avg_hired_pct res = Fin q) ∧
  (∀ v, courier_moved_pct res = Some v → ∃ q, v = Fin q).
Proof.
  intros Hc Hres. pose proof (compute_data_wf _ _ _ Hc) as Hwf.
  pose proof (d_ubs _ _ _ (compute_data_derived _ _ _ Hc)) as Hubs.
  destruct (get_ubs_Ok_inv _ _ _ _ _ _ _ _ _ _ Hubs)
    as (m1 & m2 & _ & _ & Hur & Hug).
  unfold basic_results in Hres. inv_bind Hres. inv_bind Hres.
  destruct v0 as [[o p] h]. inv_bind Hres. inv_bind Hres. inv_bind Hres.
  injection Hres as <-. cbn [regional_avg_hired_pct courier_moved_pct].
  apply py_div_Ok in E2 as [_ Hne].
  assert (Hg : ub_global i ≠ 0).
  { intros Hz. apply Hne. by rewrite Hz. }
  assert (Hreg : regions i ≠ []).
  { intros Hnil. rewrite Hnil in Hur. injection Hur as Hur.
    apply Hg. rewrite <- Hur in Hug. unfold sum_values in Hug.
    rewrite map_fold_empty in Hug. by apply fl_int_mul_zero in Hug. }
  split; [done|]. split; [done|]. split.
  - rewrite list_fmap_compose. apply np_mean_is_Fin.
    destruct (regions i) as [|region rs] eqn:Hrs; [done|].
    destruct (dict_comp_lookup _ _ _ region E1) as (q & _ & Hq); [left|].
    apply elem_of_map_to_list in Hq. intros Hnil.
    apply fmap_nil_inv in Hnil. rewrite Hnil in Hq. by apply elem_of_nil in Hq.
  - intros v' Hv'. destruct (y self) as [yd|]; [|by injection E3 as <-].
    inv_bind E3. injection E3 as <-. injection Hv' as <-.
    apply np_mean_is_Fin. unfold pct_movement in E2.
    apply mapM_Ok_length in E2. intros ->. simpl in E2.
    destruct (regions i) as [|region rs]; [done|].
    rewrite (wf_periods i Hwf) in E2. done.
Qed.

(** ** The further properties at the small instance *)

Lemma withinb_sound sol v : withinb sol v = true → within sol v.
Proof.
  unfold withinb, within. intros H.
  apply andb_true_iff in H as [H Ht]. apply andb_true_iff in H as [Hl Hu].
  split; [by apply Qle_bool_iff|]. split.
  - intros u Hub. rewrite Hub in Hu. by apply Qle_bool_iff.
  - destruct (VType v).
    + exists (Qfloor (sol (key v))). by apply Qeq_bool_iff.
    + done.
    + apply orb_true_iff in Ht as [Ht|Ht]; [left|right]; by apply Qeq_bool_iff.
Qed.

Lemma holdsb_sound sol c : holdsb sol c = true → holds sol c.
Proof.
  unfold holdsb, holds. destruct (csense c); intros H.
  - by apply Qle_bool_iff.
  - by apply Qle_bool_iff.
  - by apply Qeq_bool_iff.
Qed.

Lemma solutionb_sound md sol : solutionb md sol = true → solution md sol.
Proof.
  unfold solutionb, solution. intros H. apply andb_true_iff in H as [Hv Hc].
  split; apply Forall_forall.
  - intros v Hin. apply withinb_sound.
    apply (proj1 (forallb_forall _ _) Hv). by apply list_elem_of_In.
  - intros c Hin. apply holdsb_sound.
    apply (proj1 (forallb_forall _ _) Hc c). by apply list_elem_of_In.
Qed.

(** The two shifts of the small instance are a solution of each of the four
    models. *)
Lemma toy_shifts_base : solution (m toy_base_solver) toy_shifts.
Proof. apply solutionb_sound. vm_compute. reflexivity. Qed.

Lemma toy_shifts_fixed : solution (m toy_fixed_solver) toy_shifts.
Proof. apply solutionb_sound. vm_compute. reflexivity. Qed.

Lemma toy_shifts_flex : solution (m toy_flex_solver) toy_shifts.
Proof. apply solutionb_sound. vm_compute. reflexivity. Qed.

Lemma toy_shifts_partflex : solution (m toy_partflex_solver) toy_shifts.
Proof. apply solutionb_sound. vm_compute. reflexivity. Qed.
Lemma regional_bound_in_every_model_witness :
  ∃ ras ub, reg_areas toy_partflex !! "r" = Some ras ∧
            ub_reg toy_partflex !! "r" = Some ub ∧
            (region_total toy_shifts ras 3 <= inject_Z ub)%Q.
Proof.
  destruct (regional_bound_in_every_model
              (CommandLine (toy_args "partflex" (Some 2))) (toy_json 2 10)
              toy_partflex toy_partflex_solver) with (region := "r"%string) (theta := 3)
    as (ras & ub & Hras & Hub & _ & Hsol).
  - by_running.
  - right. right. right. by_running.
  - by_evaluation.
  - by_evaluation.
  - exists ras, ub. split; [exact Hras|]. split; [exact Hub|].
    apply Hsol, toy_shifts_partflex.
Defined.

Lemma global_bound_in_every_model_witness :
  (period_total toy_shifts toy_fixed 3 <= inject_Z (ub_global toy_fixed))%Q.
Proof.
  destruct (global_bound_in_every_model
              (CommandLine (toy_args "fixed" None)) (toy_json 2 10)
              toy_fixed toy_fixed_solver) with (theta := 3) as (_ & Hsol).
  - by_running.
  - right. left. by_running.
  - by_evaluation.
  - exact (proj1 (Hsol toy_shifts toy_shifts_fixed)).
Defined.

Lemma fixed_model_flow_balance_witness :
  ∃ self yd, build_fixed_model toy_fixed = Ok self ∧ y self = Some yd ∧
    ∀ sol, solution (m self) sol →
      (sol (var_x "a" 2) ==
       sol (var_x "a" 1) + moved_in sol yd "a" 2 - moved_out sol yd "a" 2)%Q.
Proof.
  destruct (fixed_model_flow_balance
              (CommandLine (toy_args "fixed" None)) (toy_json 2 10) toy_fixed)
    as (self & yd & Hself & Hy & Hall).
  - by_running.
  - by_evaluation.
  - vm_compute. discriminate.
  - exists self, yd. split; [exact Hself|]. split; [exact Hy|].
    destruct (Hall "a"%string [0; 1; 2; 3] 2) as (_ & Hsol).
    + by_evaluation.
    + by_evaluation.
    + by_evaluation.
    + exact Hsol.
Defined.

Lemma movement_variables_witness :
  ∃ yd, y toy_flex_solver = Some yd ∧ ("a"%string, "b"%string, 3) ∈ yd ∧
        (0 <= toy_shifts (var_y "a" "b" 3))%Q.
Proof.
  destruct (movement_variables
              (CommandLine (toy_args "flex" None)) (toy_json 2 10)
              toy_flex toy_flex_solver) as (yd & Hy & Hall).
  - by_running.
  - right. by_running.
  - destruct (Hall "a"%string "b"%string 3) as [Hiff Hvar].
    assert (Hin : ("a"%string, "b"%string, 3) ∈ yd).
    { apply Hiff. split; [by_evaluation|]. split; [by_evaluation|].
      split; [by_evaluation|]. split; [by_evaluation|]. vm_compute. reflexivity. }
    exists yd. split; [exact Hy|]. split; [exact Hin|].
    destruct (Hvar Hin) as (_ & Hsol). apply (Hsol toy_shifts), toy_shifts_flex.
Defined.

Lemma flex_model_closed_periods_witness :
  (toy_shifts (var_zminus "a" 6) == 0)%Q ∧ (toy_shifts (var_zplus "b" 1) == 0)%Q.
Proof.
  pose proof toy_shifts_flex as Hsol.
  destruct (flex_model_closed_periods
              (CommandLine (toy_args "flex" None)) (toy_json 2 10)
              toy_flex toy_flex_solver) with (a := "a"%string) (theta := 6)
    as [Hlate _].
  - by_running.
  - by_running.
  - by_evaluation.
  - destruct (flex_model_closed_periods
                (CommandLine (toy_args "flex" None)) (toy_json 2 10)
                toy_flex toy_flex_solver) with (a := "b"%string) (theta := 1)
      as [_ Hearly].
    + by_running.
    + by_running.
    + by_evaluation.
    + split.
      * apply Hlate; [lia|exact Hsol].
      * apply Hearly; [lia|exact Hsol].
Defined.

Lemma flex_model_shift_length_witness :
  ∃ ras, reg_areas toy_flex !! "r" = Some ras ∧
         (region_starts toy_shifts ras 4 == region_ends toy_shifts ras 7)%Q.
Proof.
  destruct (flex_model_shift_length
              (CommandLine (toy_args "flex" None)) (toy_json 2 10)
              toy_flex toy_flex_solver) with (region := "r"%string) (theta := 4)
    as (ras & Hras & _ & Hsol).
  - by_running.
  - by_running.
  - by_evaluation.
  - lia.
  - exists ras. split; [exact Hras|]. apply Hsol, toy_shifts_flex.
Defined.

Lemma partflex_model_cap_witness :
  ∃ cap, max_n_shifts toy_partflex = Some (Some cap) ∧
    (toy_shifts (var_w 0) + toy_shifts (var_w 1) + toy_shifts (var_w 2)
     + toy_shifts (var_w 3) + toy_shifts (var_w 4) <= inject_Z cap)%Q.
Proof.
  destruct (partflex_model_cap
              (CommandLine (toy_args "partflex" (Some 2))) (toy_json 2 10)
              toy_partflex toy_partflex_solver) as (cap & Hcap & _ & _ & Hsol).
  - by_running.
  - by_running.
  - exists cap. split; [exact Hcap|]. apply Hsol, toy_shifts_partflex.
Defined.

Lemma partflex_model_start_periods_witness :
  ∃ cap, max_n_shifts toy_partflex = Some (Some cap) ∧ 2 ≤ cap.
Proof.
  destruct (partflex_model_start_periods
              (CommandLine (toy_args "partflex" (Some 2))) (toy_json 2 10)
              toy_partflex toy_partflex_solver toy_shifts)
    as (cap & Hcap & _ & Hcount).
  - by_running.
  - by_running.
  - apply toy_shifts_partflex.
  - exists cap. split; [exact Hcap|]. apply (Hcount [0; 4]).
    + by_evaluation.
    + intros theta Ht. split.
      * apply elem_of_cons in Ht as [->|Ht];
          [|apply list_elem_of_singleton in Ht as ->]; lia.
      * exists "r"%string, ["a"%string; "b"%string].
        split; [by_evaluation|]. split; [vm_compute; reflexivity|].
        apply elem_of_cons in Ht as [->|Ht];
          [|apply list_elem_of_singleton in Ht as ->]; vm_compute; reflexivity.
Defined.
Lemma area_region_tables_witness :
  n_regions toy_base = 1 ∧ n_areas toy_base = 2 ∧
  ∃ region, area_regs toy_base !! "b" = Some region ∧ region ∈ regions toy_base.
Proof.
  destruct (area_region_tables
              (CommandLine (toy_args "base" None)) (toy_json 2 10) toy_base)
    as (_ & Hareas & _ & Hnr & Hna).
  - by_running.
  - split; [rewrite Hnr; vm_compute; reflexivity|].
    split; [rewrite Hna; vm_compute; reflexivity|].
    destruct (Hareas "b"%string) as (region & ras & pre & post & Har & _ & _ & Hreg & _).
    + by_evaluation.
    + exists region. split; [exact Har|]. rewrite Hreg.
      apply elem_of_app. right. left.
Defined.

Lemma region_identifiers_witness :
  compute_data (CommandLine (toy_args "base" None)) twin_regions_json
  = Raise IndexError.
Proof.
  destruct (region_identifiers (CommandLine (toy_args "base" None)) twin_regions_json)
    as [_ Hdup].
  apply (Hdup "a"%string (1, 1, 2, "base"%string)%Q).
  - by_evaluation.
  - intros region ras Hr Hras.
    apply elem_of_cons in Hr as [->|Hr];
      [|apply elem_of_cons in Hr as [->|Hr]; [|by apply elem_of_nil in Hr]];
      vm_compute in Hras; injection Hras as <-; by_evaluation.
  - reflexivity.
Defined.

Lemma scenario_tables_witness :
  ∃ sc dt, sc ∈ j_scenarios (toy_json 2 10) ∧ dt ∈ data sc ∧
           scenario_num sc = 1 ∧ area_id dt = "b"%string ∧
           required_couriers dt !! 5%nat = Some 2%Q.
Proof.
  destruct (scenario_tables (j_scenarios (toy_json 2 10))) as (Hfrom & _ & _ & _).
  destruct (Hfrom 1 "b"%string 5 2%Q) as (sc & dt & n & Hsc & Hdt & Hs & Ha & Hn & Hv).
  - vm_compute. reflexivity.
  - exists sc, dt. split; [exact Hsc|]. split; [exact Hdt|].
    split; [exact Hs|]. split; [exact Ha|].
    assert (n = 5%nat) as <- by lia. exact Hv.
Defined.

Lemma missing_required_value_witness :
  compute_data (CommandLine (toy_args "base" None)) short_required_json
  = Raise KeyError.
Proof.
  apply (missing_required_value
           (CommandLine (toy_args "base" None)) short_required_json
           (1, 1, 2, "base"%string)%Q 0 "a"%string 7).
  - reflexivity.
  - apply returns_is_Ok. vm_compute. exact I.
  - by_evaluation.
  - by_evaluation.
  - by_evaluation.
  - vm_compute. reflexivity.
Defined.

Lemma empty_ranges_witness :
  compute_data (CommandLine (toy_args "base" None)) no_scenarios_json
  = Raise ValueError.
Proof.
  apply (empty_ranges
           (CommandLine (toy_args "base" None)) no_scenarios_json
           (1, 1, 2, "base"%string)%Q "a"%string).
  - reflexivity.
  - apply returns_is_Ok. vm_compute. exact I.
  - by_evaluation.
  - left. vm_compute. discriminate.
Defined.

Lemma derived_bounds_round_toward_zero_witness :
  ub_reg toy_negative !! "r1" = Some (-75) ∧
  ub_reg toy_negative !! "r2" = Some (-37) ∧
  ub_global toy_negative = -168 ∧
  Qfloor (fl_value (reg_product toy_negative ["a"; "b"])) = -76 ∧
  Qfloor (fl_value (glb_product toy_negative)) = -168.
Proof.
  destruct (derived_bounds_round_toward_zero
              (CommandLine (toy_bounds_args (-(3 # 8)))) toy_bounds_json toy_negative)
    as (Hreg & _ & Hg).
  - by_running.
  - destruct (Hreg "r1"%string) as (ras1 & Hras1 & _ & Hub1); [by_evaluation|].
    destruct (Hreg "r2"%string) as (ras2 & Hras2 & _ & Hub2); [by_evaluation|].
    vm_compute in Hras1. injection Hras1 as <-.
    vm_compute in Hras2. injection Hras2 as <-.
    split; [|split; [|split; [|split]]].
    + rewrite Hub1. vm_compute. reflexivity.
    + rewrite Hub2. vm_compute. reflexivity.
    + rewrite Hg. vm_compute. reflexivity.
    + vm_compute. reflexivity.
    + vm_compute. reflexivity.
Defined.

Lemma basic_results_returns_witness :
  is_Ok (basic_results toy_base toy_base_solver toy_run) ∧
  ub_global toy_base ≠ 0 ∧
  ∀ region, region ∈ regions toy_base → ub_reg toy_base !! region ≠ Some 0.
Proof.
  assert (Hok : is_Ok (basic_results toy_base toy_base_solver toy_run)).
  { apply returns_is_Ok. vm_compute. exact I. }
  destruct (basic_results_returns
              (CommandLine (toy_args "base" None)) (toy_json 2 10)
              toy_base toy_base_solver toy_run) as [Hiff _].
  - by_running.
  - by_evaluation.
  - left. by_running.
  - destruct (proj1 Hiff Hok) as [Hreg Hglb]. split; [exact Hok|].
    split; [exact Hglb|exact Hreg].
Defined.

Lemma hired_pct_within_witness :
  ∃ res, basic_results toy_fixed toy_fixed_solver toy_run = Ok res ∧
    (0 <= global_avg_hired_pct res <= 100)%Q ∧
    ∀ p, regional_hired_pct res !! "r" = Some p → (0 <= p <= 100)%Q.
Proof.
  assert (Hok : is_Ok (basic_results toy_fixed toy_fixed_solver toy_run)).
  { apply returns_is_Ok. vm_compute. exact I. }
  destruct Hok as [res Hres]. exists res. split; [exact Hres|].
  destruct (hired_pct_within
              (CommandLine (toy_args "fixed" None)) (toy_json 2 10)
              toy_fixed toy_fixed_solver) with (sv := toy_run) (res := res)
    as [Hreg Hglb].
  - by_running.
  - right. left. by_running.
  - apply toy_shifts_fixed.
  - exact Hres.
  - split; [exact Hglb|]. intros p. apply Hreg.
Defined.

Lemma flex_results_start_periods_witness :
  ∃ res, flex_results toy_flex toy_flex_solver toy_run = Ok res ∧
         periods_with_start res = Some 2 ∧
         periods_with_start_pct res = Some (100 * inject_Z 2 / inject_Z 8)%Q.
Proof.
  destruct (flex_results_start_periods
              (CommandLine (toy_args "flex" None)) (toy_json 2 10)
              toy_flex toy_flex_solver toy_run) as [Hiff Hval].
  - by_running.
  - left. by_running.
  - destruct (proj2 Hiff) as [res Hres].
    + apply returns_is_Ok. vm_compute. exact I.
    + exists res. split; [exact Hres|].
      destruct (Hval res Hres) as (Hn & _ & Hpct & _).
      split; [rewrite Hn|rewrite Hpct]; vm_compute; reflexivity.
Defined.

Lemma start_periods_within_cap_witness :
  ∃ res n, flex_results toy_partflex toy_partflex_solver toy_run = Ok res ∧
           periods_with_start res = Some n ∧ n ≤ 2.
Proof.
  assert (Hok : is_Ok (flex_results toy_partflex toy_partflex_solver toy_run)).
  { apply returns_is_Ok. vm_compute. exact I. }
  destruct Hok as [res Hres]. exists res.
  destruct (start_periods_within_cap
              (CommandLine (toy_args "partflex" (Some 2))) (toy_json 2 10)
              toy_partflex toy_partflex_solver) with (sv := toy_run) (res := res)
    as (n & Hn & _ & _ & Hcap).
  - by_running.
  - right. by_running.
  - apply toy_shifts_partflex.
  - exact Hres.
  - exists n. split; [exact Hres|]. split; [exact Hn|].
    destruct Hcap as (cap & Hcap & Hle & _); [by_running|].
    vm_compute in Hcap. injection Hcap as <-. exact Hle.
Defined.

Lemma parcels_add_up_witness :
  ∃ o p h,
    parcel_estimates toy_base toy_base_solver toy_solved "a" 3 = Ok (o, p, h) ∧
    (o + h == 10)%Q ∧ (p <= 100)%Q.
Proof.
  destruct (parcels_add_up
              (CommandLine (toy_args "base" None)) (toy_json 2 10)
              toy_base toy_base_solver toy_solved "a" 3)
    as (o & p & h & Hv & _ & _ & Hsum & _ & Hpct).
  - by_running.
  - by_evaluation.
  - left. by_running.
  - by_evaluation.
  - by_evaluation.
  - exists o, p, h. split; [exact Hv|].
    vm_compute in Hv. injection Hv as <- <- <-. split.
    + rewrite Hsum; vm_compute; [reflexivity|discriminate].
    + apply Hpct. vm_compute. discriminate.
Defined.

Lemma models_extend_base_witness :
  ∃ base flex, build_base_model toy_partflex = Ok base ∧
               build_flexible_model toy_partflex = Ok flex ∧
               solution (m base) toy_shifts ∧ solution (m flex) toy_shifts.
Proof.
  destruct (models_extend_base
              (CommandLine (toy_args "partflex" (Some 2))) (toy_json 2 10)
              toy_partflex toy_partflex_solver) as [Hbase Hflex].
  - by_running.
  - right. right. right. by_running.
  - destruct Hbase as (base & Hb & _ & _ & Hsb).
    destruct Hflex as (flex & Hf & _ & _ & Hsf); [by_running|].
    exists base, flex. split; [exact Hb|]. split; [exact Hf|].
    split; [apply Hsb|apply Hsf]; apply toy_shifts_partflex.
Defined.

Lemma results_by_model_witness :
  ∃ res, main (λ _, toy_run) (toy_args "fixed" None) (toy_json 2 10) = Ok res ∧
    num_periods res = 8 ∧ n_shift_start_periods res = Some 2 ∧
    is_Some (courier_moved_pct res) ∧ periods_with_start res = None.
Proof.
  assert (Hok : is_Ok (main (λ _, toy_run) (toy_args "fixed" None) (toy_json 2 10))).
  { apply returns_is_Ok. vm_compute. exact I. }
  destruct Hok as [res Hres]. exists res.
  destruct (results_by_model (λ _, toy_run) (toy_args "fixed" None) (toy_json 2 10) res)
    as (H8 & _ & Hfixed & _).
  - exact Hres.
  - destruct Hfixed as (Hy & Hn & Hp & _); [reflexivity|]. split; [exact Hres|].
    split; [exact H8|]. split; [exact Hn|]. split; [exact Hy|exact Hp].
Defined.

Lemma averages_are_numbers_witness :
  ∃ res, basic_results toy_fixed toy_fixed_solver toy_run = Ok res ∧
    (∃ q, regional_avg_hired_pct res = Fin q) ∧
    (∃ v q, courier_moved_pct res = Some v ∧ v = Fin q).
Proof.
  assert (Hok : is_Ok (basic_results toy_fixed toy_fixed_solver toy_run)).
  { apply returns_is_Ok. vm_compute. exact I. }
  destruct Hok as [res Hres]. exists res.
  destruct (averages_are_numbers
              (CommandLine (toy_args "fixed" None)) (toy_json 2 10)
              toy_fixed toy_fixed_solver toy_run res)
    as (_ & _ & Havg & Hmoved).
  - by_running.
  - exact Hres.
  - split; [exact Hres|]. split; [exact Havg|].
    assert (Hsome : is_Some (courier_moved_pct res)).
    { revert Hres. vm_compute. intros [= <-]. eexists. reflexivity. }
    destruct Hsome as [v Hv]. destruct (Hmoved v Hv) as [q Hq].
    exists v, q. split; [exact Hv|exact Hq].
Defined.
